(** * Human Voice Risk Editor: analysis engine and offset reconciliation

    A shallow embedding of [server/index.js] (segmenter, risk scorer,
    suggestion engine) and of the accept/reject logic of
    [client/src/App.jsx].

    Conventions of the embedding.
    - A JavaScript string is a [list ascii] ([str]): the model covers the
      texts whose code units lie below 256.  White space and letter case
      are those of the language on these code units; the upper-case forms
      of U+00B5 and U+00FF are the only results outside the alphabet, and
      the model leaves these two characters as they are.
    - Offsets ([start], [end], the result of [indexOf]) are [Z], since the
      client adds a signed [delta] to them.
    - A JavaScript number is a rational [Q] (every finite double is one).
      Comparisons, [Math.max], [Math.min], [Math.round], the unary minus
      and the conversion of a count are exact on doubles and are taken on
      [Q] as they are.  The operations that round their result ([+], [-],
      [*], [/]) and those that the language leaves to the implementation
      ([**], [Math.sqrt], [Math.log2]) are a parameter of the model, the
      record [arithmetic]: what is proved holds for every arithmetic, that
      of the doubles among them.  The one place of the source that yields
      [NaN] is modelled by [NaN].
    - The word tokenizer of the [compromise] library,
      [nlp(text).terms().out('array')], is a parameter [terms]. *)

From Stdlib Require Import Ascii String DecimalString DecimalNat List ZArith
  QArith Qround Qminmax Lia Lqa Bool Arith.
Import ListNotations.

Local Open Scope Z_scope.

(** ** JavaScript strings *)

Definition str := list ascii.

(** String literals of the source. *)
Definition lit (s : string) : str := list_ascii_of_string s.

Definition code (c : ascii) : N := N_of_ascii c.

Definition inRange (lo hi : N) (c : ascii) : bool :=
  (N.leb lo (code c) && N.leb (code c) hi)%bool.

(** [\s], and the white space that [trim] removes: TAB, LF, VT, FF, CR,
    SPACE and the no-break space U+00A0. *)
Definition isSpace (c : ascii) : bool :=
  (inRange 9 13 c || N.eqb (code c) 32 || N.eqb (code c) 160)%bool.

Definition isUpper (c : ascii) : bool := inRange 65 90 c.
Definition isLower (c : ascii) : bool := inRange 97 122 c.
Definition isDigit (c : ascii) : bool := inRange 48 57 c.

(** [\w]: [A-Za-z0-9_]. *)
Definition isWordChar (c : ascii) : bool :=
  (isUpper c || isLower c || isDigit c || N.eqb (code c) 95)%bool.

(** The letters beyond ASCII: upper case from U+00C0 to U+00DE but for the
    multiplication sign U+00D7, lower case from U+00E0 to U+00FE but for
    the division sign U+00F7. *)
Definition isUpperLatin (c : ascii) : bool :=
  (inRange 192 214 c || inRange 216 222 c)%bool.

Definition isLowerLatin (c : ascii) : bool :=
  (inRange 224 246 c || inRange 248 254 c)%bool.

(** [c.toLowerCase()] *)
Definition toLowerChar (c : ascii) : ascii :=
  if (isUpper c || isUpperLatin c)%bool then ascii_of_N (code c + 32) else c.

(** The upper-case form of a character, when it is one character of the
    alphabet; the canonical form that a regular expression with the flag
    [i] compares. *)
Definition toUpperChar (c : ascii) : ascii :=
  if (isLower c || isLowerLatin c)%bool then ascii_of_N (code c - 32) else c.

(** [c.toUpperCase()] of a string of one character: the sharp s U+00DF
    becomes two characters. *)
Definition toUpperCase (c : ascii) : str :=
  if N.eqb (code c) 223 then lit "SS" else [toUpperChar c].

Definition toLowerCase (s : str) : str := map toLowerChar s.

Definition str_eqb (a b : str) : bool :=
  if list_eq_dec ascii_dec a b then true else false.

Definition isEmpty (s : str) : bool :=
  match s with [] => true | _ => false end.

Fixpoint trimStart (s : str) : str :=
  match s with
  | c :: r => if isSpace c then trimStart r else s
  | [] => []
  end.

Definition trimEnd (s : str) : str := rev (trimStart (rev s)).

(** [s.trim()] *)
Definition trim (s : str) : str := trimEnd (trimStart s).

Definition len (s : str) : Z := Z.of_nat (length s).

(** Relative index of [String.prototype.slice]: a negative argument counts
    from the end, everything is clamped to [0, length]. *)
Definition relIndex (n i : Z) : Z :=
  if i <? 0 then Z.max (n + i) 0 else Z.min i n.

(** [s.slice(a, b)] *)
Definition slice (s : str) (a b : Z) : str :=
  let from := relIndex (len s) a in
  let to := relIndex (len s) b in
  firstn (Z.to_nat (to - from)) (skipn (Z.to_nat from) s).

(** [s.slice(a)] *)
Definition sliceFrom (s : str) (a : Z) : str := slice s a (len s).

Fixpoint isPrefix (p s : str) : bool :=
  match p, s with
  | [], _ => true
  | _ :: _, [] => false
  | a :: p', b :: s' => (Ascii.eqb a b && isPrefix p' s')%bool
  end.

Fixpoint indexOfFrom (sub s : str) (pos : nat) : option nat :=
  if isPrefix sub s then Some pos
  else match s with
       | [] => None
       | _ :: r => indexOfFrom sub r (S pos)
       end.

(** [s.indexOf(sub)]: the first occurrence, or -1. *)
Definition indexOf (s sub : str) : Z :=
  match indexOfFrom sub s 0 with
  | Some i => Z.of_nat i
  | None => -1
  end.

(** [s.includes(c)] for a one-character needle. *)
Definition includes (s : str) (c : ascii) : bool :=
  existsb (Ascii.eqb c) s.

(** [s.charAt(0).toUpperCase() + s.slice(1)], guarded by [!text]. *)
Definition capitalizeFirst (s : str) : str :=
  match s with
  | [] => s
  | c :: r => toUpperCase c ++ r
  end.

Definition lowerFirst (s : str) : str :=
  match s with
  | [] => s
  | c :: r => toLowerChar c :: r
  end.

(** [s.split(/\s+/)]: the pieces between maximal runs of white space; a
    run at either end leaves an empty piece there. *)
Fixpoint splitSpaces (s : str) (cur : str) (inGap : bool) : list str :=
  match s with
  | [] => [cur]
  | c :: r =>
      if isSpace c then
        if inGap then splitSpaces r cur true
        else cur :: splitSpaces r [] true
      else splitSpaces r (cur ++ [c]) false
  end.

Definition split_ws (s : str) : list str := splitSpaces s [] false.

(** [arr.join(' ')] *)
Fixpoint join (sep : str) (l : list str) : str :=
  match l with
  | [] => []
  | [x] => x
  | x :: r => x ++ sep ++ join sep r
  end.

(** [arr.splice(at, 0, x)] on an index inside the array. *)
Definition spliceInsert {A} (l : list A) (at_ : nat) (x : A) : list A :=
  firstn at_ l ++ x :: skipn at_ l.

(** [s.replace(/\s{2,}/g, ' ')]: every run of two or more white-space
    characters becomes one space; a single one stays as it is. *)
Fixpoint takeSpaces (s : str) : nat :=
  match s with
  | c :: r => if isSpace c then S (takeSpaces r) else O
  | [] => O
  end.

Fixpoint collapseSpaces (fuel : nat) (s : str) : str :=
  match fuel with
  | O => s
  | S f =>
      match s with
      | [] => []
      | c :: r =>
          let n := takeSpaces s in
          if (2 <=? n)%nat then " "%char :: collapseSpaces f (skipn n s)
          else c :: collapseSpaces f r
      end
  end.

Definition collapse (s : str) : str := collapseSpaces (length s) s.

(** ** Regular expressions of the source

    Each regular expression of the source is embedded by the matcher it
    denotes; [exec] scans from [lastIndex] for the first position at which
    the pattern matches and returns the index and the matched text. *)

Definition isWordOpt (o : option ascii) : bool :=
  match o with Some c => isWordChar c | None => false end.

(** [\b] between two neighbouring characters (absent at either end of the
    string). *)
Definition wordBoundary (prev next : option ascii) : bool :=
  xorb (isWordOpt prev) (isWordOpt next).

(** The character just before offset [pos] of [text]. *)
Definition charBefore (text : str) (pos : nat) : option ascii :=
  match pos with
  | O => None
  | S p => nth_error text p
  end.

(** The character before the position that follows a match [m], [prev]
    being the character before the match. *)
Definition lastChar (prev : option ascii) (m : str) : option ascii :=
  match m with
  | [] => prev
  | c :: r => Some (last r c)
  end.

(** A literal under the [i] flag, anchored at the head of [s]: the matched
    text and what follows it. *)
Fixpoint matchLiteralCI (pat s : str) : option (str * str) :=
  match pat with
  | [] => Some ([], s)
  | p :: pat' =>
      match s with
      | [] => None
      | c :: s' =>
          if Ascii.eqb (toUpperChar p) (toUpperChar c) then
            match matchLiteralCI pat' s' with
            | Some (m, rest) => Some (c :: m, rest)
            | None => None
            end
          else None
      end
  end.

(** [\b(alt1|alt2|...)\b] under the [i] flag, anchored at the head of [s],
    [prev] being the character before it: alternatives are tried in
    order. *)
Fixpoint matchAlts (prev : option ascii) (alts : list str) (s : str)
  : option str :=
  match alts with
  | [] => None
  | alt :: more =>
      match matchLiteralCI alt s with
      | Some (m, rest) =>
          if wordBoundary (lastChar prev m) (hd_error rest)
          then Some m else matchAlts prev more s
      | None => matchAlts prev more s
      end
  end.

Definition matchWordHere (prev : option ascii) (alts : list str) (s : str)
  : option str :=
  if wordBoundary prev (hd_error s) then matchAlts prev alts s else None.

Fixpoint execWordFrom (alts : list str) (prev : option ascii) (s : str)
  (pos : nat) : option (nat * str) :=
  match matchWordHere prev alts s with
  | Some m => Some (pos, m)
  | None =>
      match s with
      | [] => None
      | c :: r => execWordFrom alts (Some c) r (S pos)
      end
  end.

(** [regex.exec(text)] for [/\b(alts)\b/gi] with the given [lastIndex]. *)
Definition execWord (alts : list str) (text : str) (lastIndex : nat)
  : option (nat * str) :=
  execWordFrom alts (charBefore text lastIndex) (skipn lastIndex text)
    lastIndex.

(** All matches of a global regular expression, as [text.match(re)] and
    [text.replace(re, ...)] enumerate them: both start from
    [lastIndex = 0], and each match moves [lastIndex] to its end. *)
Fixpoint matchAllFrom (fuel : nat) (alts : list str) (text : str)
  (lastIndex : nat) : list (nat * str) :=
  match fuel with
  | O => []
  | S f =>
      match execWord alts text lastIndex with
      | None => []
      | Some (i, m) => (i, m) :: matchAllFrom f alts text (i + length m)
      end
  end.

Definition matchAll (alts : list str) (text : str) : list (nat * str) :=
  matchAllFrom (S (length text)) alts text 0.

(** A JavaScript value, as far as the replacer callback of
    [String.prototype.replace] sees one. *)
Inductive jsval :=
| VStr (s : str)
| VNum (z : Z).

(** [a === b] *)
Definition strictEq (a b : jsval) : bool :=
  match a, b with
  | VStr x, VStr y => str_eqb x y
  | VNum x, VNum y => Z.eqb x y
  | _, _ => false
  end.

(** [text.replace(re, callback)] for a regular expression with ONE capture
    group around the whole alternation: the callback is called with
    [(match, p1, offset, string)], and [p1] is the captured text, here the
    match itself.  [cb] receives the first two of these arguments. *)
Fixpoint replaceMatches (text : str) (pos : nat) (ms : list (nat * str))
  (cb : str -> jsval -> str) : str :=
  match ms with
  | [] => skipn pos text
  | (i, m) :: r =>
      firstn (i - pos) (skipn pos text) ++ cb m (VStr m)
        ++ replaceMatches text (i + length m) r cb
  end.

Definition replaceAll (alts : list str) (text : str)
  (cb : str -> jsval -> str) : str :=
  replaceMatches text 0 (matchAll alts text) cb.

(** [/^[A-Z]/.test(s)] *)
Definition startsUpper (s : str) : bool :=
  match s with c :: _ => isUpper c | [] => false end.

(** [/^word\b/i.test(s)] *)
Definition startsWithWord (word s : str) : bool :=
  match matchLiteralCI word s with
  | Some (m, rest) =>
      wordBoundary (lastChar None m) (hd_error rest)
  | None => false
  end.

(** [(s.match(/c/g) || []).length] *)
Definition countChar (c : ascii) (s : str) : nat :=
  length (filter (Ascii.eqb c) s).

(** ** Segmenter *)

Definition isTerminal (c : ascii) : bool :=
  (Ascii.eqb c "."%char || Ascii.eqb c "!"%char || Ascii.eqb c "?"%char)%bool.

(** The characters excluded by [[^.!?\n]]. *)
Definition isBreak (c : ascii) : bool :=
  (isTerminal c || N.eqb (code c) 10)%bool.

(** [[^.!?\n]+]: the longest run at the head of [s], and what follows. *)
Fixpoint takeRun (s : str) : str * str :=
  match s with
  | [] => ([], [])
  | c :: r =>
      if isBreak c then ([], s)
      else let (run, rest) := takeRun r in (c :: run, rest)
  end.

(** [/[^.!?\n]+[.!?]?/] anchored at the head of [s]. *)
Definition matchSentenceHere (s : str) : option str :=
  let (run, rest) := takeRun s in
  match run with
  | [] => None
  | _ =>
      match rest with
      | c :: _ => if isTerminal c then Some (run ++ [c]) else Some run
      | [] => Some run
      end
  end.

Fixpoint execSentenceFrom (s : str) (pos : nat) : option (nat * str) :=
  match matchSentenceHere s with
  | Some m => Some (pos, m)
  | None =>
      match s with
      | [] => None
      | _ :: r => execSentenceFrom r (S pos)
      end
  end.

Definition execSentence (text : str) (lastIndex : nat) : option (nat * str) :=
  execSentenceFrom (skipn lastIndex text) lastIndex.

Record sentence := mkSentence {
  s_index : nat;
  s_raw : str;
  s_text : str;
  s_start : Z;
  s_end : Z;
  s_wordCount : nat;
  s_opener : str;
  s_firstWord : str
}.

Definition isTokenChar (c : ascii) : bool :=
  (isLower c || Ascii.eqb c "'"%char)%bool.

Section Tokenizer.

(** [nlp(text).terms().out('array')] *)
Variable terms : str -> list str.

Definition tokenizeWords (text : str) : list str :=
  filter (fun w => negb (isEmpty w))
    (map (fun term => filter isTokenChar (toLowerCase term)) (terms text)).

(** The body of the [while] loop of [splitSentences], for one match. *)
Definition sentenceOf (sentences : list sentence) (index : nat) (raw : str)
  : sentence :=
  let start := Z.of_nat index in
  let end_ := Z.of_nat index + len raw in
  let normalized := trim raw in
  let words := tokenizeWords normalized in
  let openerWords := firstn 2 words in
  {| s_index := length sentences;
     s_raw := raw;
     s_text := normalized;
     s_start := start;
     s_end := end_;
     s_wordCount := length words;
     s_opener := join (lit " ") openerWords;
     s_firstWord := hd [] words |}.

Fixpoint splitLoop (fuel : nat) (text : str) (lastIndex : nat)
  (sentences : list sentence) : list sentence :=
  match fuel with
  | O => sentences
  | S f =>
      match execSentence text lastIndex with
      | None => sentences
      | Some (index, raw) =>
          let next := (index + length raw)%nat in
          if isEmpty (trim raw) then splitLoop f text next sentences
          else splitLoop f text next
                 (sentences ++ [sentenceOf sentences index raw])
      end
  end.

Definition splitSentences (text : str) : list sentence :=
  splitLoop (S (length text)) text 0 [].

End Tokenizer.

(** A stand-in for the tokenizer on plain text: the words between white
    space. *)
Definition spaceTerms (text : str) : list str :=
  filter (fun w => negb (isEmpty w)) (split_ws text).

(** ** Numbers *)

(** The operations of the source whose result depends on the arithmetic
    of the implementation: the four that round to a double, and [x ** 2],
    [Math.sqrt] and [Math.log2], which the language specifies up to an
    approximation.  The source divides by zero at one place only, the
    opener ratios of a text without openers, which [sentencePatternRisk]
    gives as [NaN]; its other divisors are counts that it has tested or
    that the floor of twenty words makes positive, a mean that it has
    tested, and the logarithm of a count above 1. *)
Record arithmetic := mkArithmetic {
  fadd : Q -> Q -> Q;
  fsub : Q -> Q -> Q;
  fmul : Q -> Q -> Q;
  fdiv : Q -> Q -> Q;
  fsquare : Q -> Q;
  fsqrt : Q -> Q;
  flog2 : Q -> Q
}.

(** The double nearest to a rational, a tie going to the even significand:
    the rounding of the four operations and of the decimal literals, for
    magnitudes in the normal range of the doubles. *)
Definition round53 (q : Q) : Q :=
  let n := Qnum q in
  let d := Z.pos (Qden q) in
  if n =? 0 then 0%Q
  else
    let a := Z.abs n in
    let num := fun e => if 0 <=? e then a else a * 2 ^ (- e) in
    let den := fun e => if 0 <=? e then d * 2 ^ e else d in
    let e1 := Z.log2 a - Z.log2 d - 53 in
    let e := if 2 ^ 53 <=? num e1 / den e1 then e1 + 1 else e1 in
    let m := num e / den e in
    let r := num e mod den e in
    let up := ((den e <? 2 * r) || ((den e =? 2 * r) && Z.odd m))%bool in
    let v := Z.sgn n * (if up then m + 1 else m) in
    Qred (if 0 <=? e then inject_Z (v * 2 ^ e)
          else Qmake v (Z.to_pos (2 ^ (- e)))).

(** The doubles that the decimal literals 2.2, 0.4, 0.28, 0.24, 0.22 and
    0.26 of the source denote; the other literals are doubles
    themselves. *)
Definition double_2_2 : Q := 2476979795053773 # 1125899906842624.
Definition double_0_4 : Q := 3602879701896397 # 9007199254740992.
Definition double_0_28 : Q := 1261007895663739 # 4503599627370496.
Definition double_0_24 : Q := 1080863910568919 # 4503599627370496.
Definition double_0_22 : Q := 7926335344172073 # 36028797018963968.
Definition double_0_26 : Q := 1170935903116329 # 4503599627370496.

Definition Qnat (n : nat) : Q := inject_Z (Z.of_nat n).

Definition Qlt_bool (x y : Q) : bool := negb (Qle_bool y x).

(** [Math.max(min, Math.min(max, value))] with [min = 0], [max = 100]. *)
Definition clamp (value : Q) : Q := Qmax 0 (Qmin 100 value).

(** A number that may be [NaN]. *)
Inductive number :=
| NaN
| Num (q : Q).

(** [Math.round]: the nearest integer, a tie going up. *)
Definition round (x : number) : option Z :=
  match x with
  | NaN => None
  | Num q => Some (Qfloor (q + (1 # 2)))
  end.

Inductive band := low | moderate | high.

(** On [NaN] both comparisons are false. *)
Definition getRiskColor (score : number) : band :=
  match score with
  | NaN => high
  | Num q =>
      if Qlt_bool q 35 then low
      else if Qlt_bool q 65 then moderate
      else high
  end.

Section Numeric.

Variable fp : arithmetic.

(** [arr.reduce((sum, value) => sum + value, 0)] *)
Definition sum (arr : list Q) : Q := fold_left (fadd fp) arr 0%Q.

Definition average (arr : list Q) : Q :=
  match arr with
  | [] => 0%Q
  | _ => fdiv fp (sum arr) (Qnat (length arr))
  end.

Definition stdDev (arr : list Q) : Q :=
  if (length arr <=? 1)%nat then 0%Q
  else
    let mean := average arr in
    let variance :=
      fdiv fp
        (fold_left
           (fun sum value => fadd fp sum (fsquare fp (fsub fp value mean)))
           arr 0%Q)
        (Qnat (length arr)) in
    fsqrt fp variance.

End Numeric.

(** ** Insertion-ordered maps from words to counts ([new Map()]) *)

Fixpoint mapIncr (key : str) (m : list (str * nat)) : list (str * nat) :=
  match m with
  | [] => [(key, 1%nat)]
  | (k, v) :: r =>
      if str_eqb k key then (k, S v) :: r else (k, v) :: mapIncr key r
  end.

(** [keys.forEach((k) => m.set(k, (m.get(k) || 0) + 1))] on a fresh map. *)
Definition countAll (keys : list str) : list (str * nat) :=
  fold_left (fun m k => mapIncr k m) keys [].

Definition maxOf (l : list nat) : nat := fold_right Nat.max O l.

(** ** Constant tables *)

Definition COMMON_WORDS : list str := map lit
  [ "the"; "a"; "an"; "and"; "or"; "but"; "if"; "then"; "that"; "this"; "it";
    "is"; "are"; "was"; "were"; "be"; "been"; "being"; "to"; "of"; "in"; "on";
    "at"; "for"; "with"; "by"; "from"; "as"; "about"; "into"; "through";
    "after"; "before"; "between"; "because"; "while"; "over"; "under";
    "during"; "within"; "without"; "i"; "you"; "we"; "they"; "he"; "she";
    "my"; "your"; "our"; "their"; "its"; "there"; "here"; "can"; "could";
    "would"; "should"; "may"; "might"; "do"; "does"; "did"; "have"; "has";
    "had"; "more"; "most"; "very"; "really" ]%string.

Definition PREDICTABLE_PHRASES : list (str * str) :=
  map (fun p => (lit (fst p), lit (snd p)))
  [ ("in conclusion", "to wrap up");
    ("it is important to note that", "worth noting:");
    ("the purpose of this", "this is meant to");
    ("there are several", "a few");
    ("this demonstrates that", "this shows");
    ("in addition", "plus");
    ("furthermore", "also");
    ("moreover", "on top of that");
    ("overall", "all in all");
    ("it should be noted that", "note that") ]%string.

(** The alternatives of [HEDGE_REGEX], [/\b(may|might|...)\b/gi]. *)
Definition HEDGE_REGEX : list str := map lit
  [ "may"; "might"; "could"; "perhaps"; "possibly"; "generally"; "typically";
    "often"; "somewhat"; "largely"; "arguably"; "relatively" ]%string.

(** ** Results of an analysis *)

Record styleProfile := mkStyle {
  avgSentenceLength : Q;
  sentenceVariance : Q;
  commaRate : Q;
  questionRate : Q
}.

Record riskMetrics := mkMetrics {
  m_perplexity : option Z;
  m_burstiness : option Z;
  m_sentencePatternDiversity : option Z;
  m_vocabularyPredictability : option Z;
  m_overallRisk : option Z
}.

Record riskBands := mkBands {
  b_perplexity : band;
  b_burstiness : band;
  b_sentencePatternDiversity : band;
  b_vocabularyPredictability : band;
  b_overallRisk : band
}.

Inductive suggestionType :=
| vary_sentence_length
| swap_predictable_phrasing
| add_stylistic_texture
| diversify_openers
| reduce_hedging_uniformity.

Inductive status := pending | accepted | rejected.

(** The object handed to [pushSuggestion]. *)
Record candidate := mkCandidate {
  c_type : suggestionType;
  c_title : string;
  c_description : str;
  c_start : Z;
  c_end : Z;
  c_original : str;
  c_replacement : str;
  c_riskImpact : Z
}.

Record suggestion := mkSuggestion {
  sg_type : suggestionType;
  sg_title : string;
  sg_description : str;
  sg_start : Z;
  sg_end : Z;
  sg_original : str;
  sg_replacement : str;
  sg_riskImpact : Z;
  sg_id : str;
  sg_status : status
}.

(** The fields of [insights] that are counts; the rounded ratios are left
    out. *)
Record insights := mkInsights {
  i_wordCount : nat;
  i_sentenceCount : nat;
  i_note : option string
}.

Record analysis := mkAnalysis {
  metrics : riskMetrics;
  riskBands_ : riskBands;
  insights_ : insights;
  suggestions : list suggestion;
  styleProfile_ : option styleProfile
}.

(** [`s-${n}`] *)
Definition idOf (n : nat) : str :=
  lit "s-" ++ lit (NilEmpty.string_of_uint (Nat.to_uint n)).

(** [{ ...suggestion, id: `s-${n}`, status: 'pending' }] *)
Definition withId (c : candidate) (n : nat) : suggestion :=
  {| sg_type := c_type c;
     sg_title := c_title c;
     sg_description := c_description c;
     sg_start := c_start c;
     sg_end := c_end c;
     sg_original := c_original c;
     sg_replacement := c_replacement c;
     sg_riskImpact := c_riskImpact c;
     sg_id := idOf n;
     sg_status := pending |}.

(** [pushSuggestion]: a candidate with a negative start or an empty span is
    dropped; the others get the next id and the status [pending]. *)
Definition pushSuggestion (suggestions : list suggestion) (c : candidate)
  : list suggestion :=
  if ((c_start c <? 0) || (c_end c <=? c_start c))%bool then suggestions
  else suggestions ++ [withId c (length suggestions + 1)].

(** ** Suggestion engine *)

Definition dquote : ascii := ascii_of_nat 34.

(** [left] and [right] of a sentence text around its first comma. *)
Definition commaSplit (t : str) : str * str :=
  let splitIndex := indexOf t (lit ",") in
  (trim (slice t 0 splitIndex), trim (sliceFrom t (splitIndex + 1))).

(** [`${left}. ${capitalizeFirst(right)}`] *)
Definition splitReplacement (t : str) : str :=
  let (left, right) := commaSplit t in
  left ++ lit ". " ++ capitalizeFirst right.

(** [/[()?;:]/.test(text)] *)
Definition hasTexture (text : str) : bool :=
  existsb (fun c => existsb (Ascii.eqb c) (lit "()?;:")) text.

(** The lead-in chosen by the opener of a sentence text. *)
Definition openerReplacement (t : str) : str :=
  if startsWithWord (lit "this") t then lit "In this case, " ++ lowerFirst t
  else if startsWithWord (lit "the") t then
    lit "From another angle, " ++ lowerFirst t
  else if startsWithWord (lit "it") t then
    lit "At a practical level, " ++ lowerFirst t
  else lit "As written here, " ++ lowerFirst t.

(** The replacer of the hedge detector,
    [(hedge, offset) => offset === text.toLowerCase().indexOf(hedge.toLowerCase()) ? '' : hedge].
    Its second parameter is bound to the second argument of the call. *)
Definition hedgeReplacer (t : str) (hedge : str) (offset : jsval) : str :=
  if strictEq offset (VNum (indexOf (toLowerCase t) (toLowerCase hedge)))
  then [] else hedge.

(** [text.replace(HEDGE_REGEX, replacer).replace(/\s{2,}/g, ' ').trim()] *)
Definition hedgeReplacement (t : str) : str :=
  trim (collapse (replaceAll HEDGE_REGEX t (hedgeReplacer t))).

Section Suggestions.

Variable fp : arithmetic.

Definition varyCandidate (target : sentence) : candidate :=
  {| c_type := vary_sentence_length;
     c_title := "Vary sentence length in this run";
     c_description := lit "These nearby sentences have very similar length. Splitting this one adds natural rhythm.";
     c_start := s_start target;
     c_end := s_end target;
     c_original := s_raw target;
     c_replacement := splitReplacement (s_text target);
     c_riskImpact := 8 |}.

(** 1) Vary sentence length: the loop over the windows of three
    consecutive sentences. *)
Fixpoint varySentenceLength (sentences : list sentence)
  (suggestions : list suggestion) : list suggestion :=
  match sentences with
  | [] => suggestions
  | first :: rest =>
      match rest with
      | target :: third :: _ =>
          let lengths :=
            map (fun s => Qnat (s_wordCount s)) [first; target; third] in
          let localStd := stdDev fp lengths in
          let suggestions' :=
            if Qle_bool localStd double_2_2 then
              if ((20 <? s_wordCount target)%nat
                  && includes (s_text target) ","%char)%bool then
                let (left, right) := commaSplit (s_text target) in
                if (negb (isEmpty left) && negb (isEmpty right))%bool then
                  pushSuggestion suggestions (varyCandidate target)
                else suggestions
              else suggestions
            else suggestions in
          varySentenceLength rest suggestions'
      | _ => suggestions
      end
  end.

Definition phraseCandidate (index : nat) (original next : str) : candidate :=
  {| c_type := swap_predictable_phrasing;
     c_title := "Use less templated phrasing";
     c_description := lit "This phrase is common in generated text. A small wording swap can feel more personal.";
     c_start := Z.of_nat index;
     c_end := Z.of_nat index + len original;
     c_original := original;
     c_replacement := next;
     c_riskImpact := 6 |}.

(** The [while] loop over the matches of one catalog phrase.  The
    catalog phrases hold letters and spaces only, so that the escaping
    [replace] of the source leaves them as they are and the regular
    expression is [\bphrase\b] with the flags [gi].  The [return] of the
    source leaves the callback of [forEach] for this phrase. *)
Fixpoint phraseLoop (fuel : nat) (phrase replacement text : str)
  (lastIndex : nat) (suggestions : list suggestion) : list suggestion :=
  match fuel with
  | O => suggestions
  | S f =>
      match execWord [phrase] text lastIndex with
      | None => suggestions
      | Some (index, original) =>
          let next :=
            if startsUpper original then capitalizeFirst replacement
            else replacement in
          let suggestions' :=
            pushSuggestion suggestions (phraseCandidate index original next) in
          if (40 <=? length suggestions')%nat then suggestions'
          else phraseLoop f phrase replacement text
                 (index + length original) suggestions'
      end
  end.

(** 2) Swap predictable phrasing: [PREDICTABLE_PHRASES.forEach(...)]. *)
Definition swapPredictablePhrasing (text : str)
  (suggestions : list suggestion) : list suggestion :=
  fold_left
    (fun acc entry =>
       phraseLoop (S (length text)) (fst entry) (snd entry) text 0 acc)
    PREDICTABLE_PHRASES suggestions.

(** The text of a sentence with the aside inserted:
    [words.splice(insertAt, 0, '(for context),')] and [words.join(' ')]. *)
Definition textureReplacement (t : str) : str :=
  let words := split_ws t in
  let insertAt := Nat.min 6 (length words - 1) in
  join (lit " ") (spliceInsert words insertAt (lit "(for context),")).

Definition textureCandidate (target : sentence) : candidate :=
  {| c_type := add_stylistic_texture;
     c_title := "Add a small human-style aside";
     c_description := lit "A brief parenthetical can make polished writing feel more naturally human.";
     c_start := s_start target;
     c_end := s_end target;
     c_original := s_raw target;
     c_replacement := textureReplacement (s_text target);
     c_riskImpact := 5 |}.

(** 3) Add stylistic texture. *)
Definition addStylisticTexture (text : str) (sentences : list sentence)
  (style : option styleProfile) (suggestions : list suggestion)
  : list suggestion :=
  if (negb (hasTexture text)
      || match style with
         | Some p => Qlt_bool double_0_4 (commaRate p)
         | None => false
         end)%bool
  then
    match find (fun s => ((14 <=? s_wordCount s)%nat
                          && negb (includes (s_text s) "("%char))%bool)
               sentences with
    | Some textureTarget =>
        pushSuggestion suggestions (textureCandidate textureTarget)
    | None => suggestions
    end
  else suggestions.

Definition openerCandidate (word : str) (s : sentence) : candidate :=
  {| c_type := diversify_openers;
     c_title := "Diversify repetitive sentence starts";
     c_description :=
       lit "Several sentences start with " ++ [dquote] ++ word ++ [dquote]
       ++ lit ". Varying one opener reduces structural repetition.";
     c_start := s_start s;
     c_end := s_end s;
     c_original := s_raw s;
     c_replacement := openerReplacement (s_text s);
     c_riskImpact := 7 |}.

(** 4) Diversify sentence openers. *)
Definition diversifyOpeners (sentences : list sentence)
  (suggestions : list suggestion) : list suggestion :=
  let openerCounts :=
    countAll (filter (fun k => negb (isEmpty k)) (map s_firstWord sentences)) in
  let repetitiveOpeners :=
    map fst (filter (fun e => (3 <=? snd e)%nat) openerCounts) in
  fold_left
    (fun acc word =>
       let repeatedSentences :=
         firstn 2 (skipn 1
           (filter (fun s => str_eqb (s_firstWord s) word) sentences)) in
       fold_left
         (fun acc' s => pushSuggestion acc' (openerCandidate word s))
         repeatedSentences acc)
    repetitiveOpeners suggestions.

Definition hedgeCandidate (s : sentence) (replacement : str) : candidate :=
  {| c_type := reduce_hedging_uniformity;
     c_title := "Reduce repetitive hedging";
     c_description := lit "Hedging is useful, but too much in every sentence can look algorithmic.";
     c_start := s_start s;
     c_end := s_end s;
     c_original := s_raw s;
     c_replacement := replacement;
     c_riskImpact := 6 |}.

(** 5) Reduce hedging uniformity. *)
Definition reduceHedging (hedgeDensity : Q) (sentences : list sentence)
  (suggestions : list suggestion) : list suggestion :=
  if Qle_bool (5 # 10) hedgeDensity then
    fold_left
      (fun acc s =>
         match matchAll HEDGE_REGEX (s_text s) with
         | [] => acc
         | _ =>
             let replacement := hedgeReplacement (s_text s) in
             if (negb (isEmpty replacement)
                 && negb (str_eqb replacement (s_text s)))%bool
             then pushSuggestion acc (hedgeCandidate s replacement)
             else acc
         end)
      sentences suggestions
  else suggestions.

Definition rhythmCandidate (longSentence : sentence) : candidate :=
  {| c_type := vary_sentence_length;
     c_title := "Match your usual rhythm";
     c_description := lit "Compared to your style sample, this section is rhythmically uniform. Split one sentence to restore your voice.";
     c_start := s_start longSentence;
     c_end := s_end longSentence;
     c_original := s_raw longSentence;
     c_replacement := splitReplacement (s_text longSentence);
     c_riskImpact := 8 |}.

(** Additional sentence-length guidance aligned with the style profile. *)
Definition matchRhythm (sentences : list sentence)
  (sentenceLengthMean sentenceLengthStd : Q) (style : option styleProfile)
  (suggestions : list suggestion) : list suggestion :=
  match style with
  | Some p =>
      if Qlt_bool sentenceLengthStd (fmul fp (sentenceVariance p) (75 # 100))
      then
        match find (fun s => Qlt_bool (fadd fp sentenceLengthMean 7)
                               (Qnat (s_wordCount s))) sentences with
        | Some longSentence =>
            if includes (s_text longSentence) ","%char then
              pushSuggestion suggestions (rhythmCandidate longSentence)
            else suggestions
        | None => suggestions
        end
      else suggestions
  | None => suggestions
  end.

(** The candidates of the five detectors, in the order of generation. *)
Definition candidates (text : str) (sentences : list sentence)
  (sentenceLengthMean sentenceLengthStd hedgeDensity : Q)
  (style : option styleProfile) : list suggestion :=
  let s1 := varySentenceLength sentences [] in
  let s2 := swapPredictablePhrasing text s1 in
  let s3 := addStylisticTexture text sentences style s2 in
  let s4 := diversifyOpeners sentences s3 in
  let s5 := reduceHedging hedgeDensity sentences s4 in
  matchRhythm sentences sentenceLengthMean sentenceLengthStd style s5.

(** [buildSuggestions]: [suggestions.slice(0, 20)] at the end. *)
Definition buildSuggestions (text : str) (sentences : list sentence)
  (sentenceLengthMean sentenceLengthStd hedgeDensity : Q)
  (style : option styleProfile) : list suggestion :=
  firstn 20
    (candidates text sentences sentenceLengthMean sentenceLengthStd
       hedgeDensity style).

End Suggestions.

(** ** Style profiler and risk scorer *)

Section Analysis.

Variable terms : str -> list str.
Variable fp : arithmetic.

(** [sentences.map((s) => s.wordCount).filter(Boolean)] *)
Definition nonzeroLengths (sentences : list sentence) : list Q :=
  map Qnat (filter (fun n => negb (n =? 0)%nat) (map s_wordCount sentences)).

Definition computeStyleProfile (text : str) : option styleProfile :=
  if isEmpty (trim text) then None
  else
    let sentences := splitSentences terms text in
    let sentenceLengths := nonzeroLengths sentences in
    let commaCount := countChar ","%char text in
    let questionCount := countChar "?"%char text in
    let n := length sentenceLengths in
    Some {| avgSentenceLength := average fp sentenceLengths;
            sentenceVariance := stdDev fp sentenceLengths;
            commaRate := if (n =? 0)%nat then 0%Q
                         else fdiv fp (Qnat commaCount) (Qnat n);
            questionRate := if (n =? 0)%nat then 0%Q
                            else fdiv fp (Qnat questionCount) (Qnat n) |}.

(** The result for a document below the floor. *)
Definition neutral (words : list str) (sentences : list sentence)
  (style : option styleProfile) : analysis :=
  {| metrics := {| m_perplexity := Some 50;
                   m_burstiness := Some 50;
                   m_sentencePatternDiversity := Some 50;
                   m_vocabularyPredictability := Some 50;
                   m_overallRisk := Some 50 |};
     riskBands_ := {| b_perplexity := moderate;
                      b_burstiness := moderate;
                      b_sentencePatternDiversity := moderate;
                      b_vocabularyPredictability := moderate;
                      b_overallRisk := moderate |};
     insights_ := {| i_wordCount := length words;
                     i_sentenceCount := length sentences;
                     i_note := Some "Add more text for a stronger signal. Roughly 120+ words gives better stability."%string |};
     suggestions := [];
     styleProfile_ := style |}.

Definition perplexityRisk (words : list str) : Q :=
  let frequencies := countAll words in
  let totalWords := Qnat (length words) in
  let uniqueWords := length frequencies in
  let probabilities :=
    map (fun e => fdiv fp (Qnat (snd e)) totalWords) frequencies in
  let entropy :=
    fold_left
      (fun sum p =>
         fadd fp sum
           (if Qlt_bool 0 p then fmul fp (- p)%Q (flog2 fp p) else 0%Q))
      probabilities 0%Q in
  let maxEntropy :=
    if (1 <? uniqueWords)%nat then flog2 fp (Qnat uniqueWords) else 1%Q in
  let entropyRatio := fdiv fp entropy maxEntropy in
  let maxFrequency := maxOf (map snd frequencies) in
  let repetitionRatio := fdiv fp (Qnat maxFrequency) totalWords in
  clamp (fadd fp (fmul fp (fsub fp 1 entropyRatio) 85)
           (fmul fp repetitionRatio 45)).

Definition burstinessRisk (sentences : list sentence)
  (style : option styleProfile) : Q :=
  let sentenceLengths := nonzeroLengths sentences in
  let sentenceLengthMean := average fp sentenceLengths in
  let sentenceLengthStd := stdDev fp sentenceLengths in
  let sentenceLengthCV :=
    if Qeq_bool sentenceLengthMean 0 then 0%Q
    else fdiv fp sentenceLengthStd sentenceLengthMean in
  let burstiness := clamp (fsub fp 92 (fmul fp sentenceLengthCV 125)) in
  match style with
  | Some p =>
      if Qlt_bool 0 (sentenceVariance p) then
        let varianceGap :=
          Qmax 0 (fsub fp (sentenceVariance p) sentenceLengthStd) in
        clamp (fadd fp burstiness (fmul fp varianceGap (35 # 10)))
      else burstiness
  | None => burstiness
  end.

(** [sentences.map((s) => s.opener || s.firstWord).filter(Boolean)] *)
Definition openersOf (sentences : list sentence) : list str :=
  filter (fun o => negb (isEmpty o))
    (map (fun s => if isEmpty (s_opener s) then s_firstWord s
                   else s_opener s) sentences).

(** With no opener at all, [Math.max()] is [-Infinity], the first ratio
    is [-Infinity / 0] and the second [0 / 0]: the score is [NaN], and
    [clamp] keeps it. *)
Definition sentencePatternRisk (sentences : list sentence) : number :=
  let openers := openersOf sentences in
  let openerCounts := countAll openers in
  match openers with
  | [] => NaN
  | _ =>
      let n := Qnat (length openers) in
      let dominantOpenerRatio :=
        fdiv fp (Qnat (maxOf (map snd openerCounts))) n in
      let openerDiversityRatio := fdiv fp (Qnat (length openerCounts)) n in
      Num (clamp (fadd fp (fmul fp (fsub fp 1 openerDiversityRatio) 70)
                    (fmul fp dominantOpenerRatio 55)))
  end.

(** [hedgeMatches.length / Math.max(1, sentences.length)] *)
Definition hedgeDensityOf (trimmed : str) (sentences : list sentence) : Q :=
  fdiv fp (Qnat (length (matchAll HEDGE_REGEX trimmed)))
    (Qnat (Nat.max 1 (length sentences))).

Definition vocabularyPredictabilityRisk (trimmed : str)
  (words : list str) (sentences : list sentence) : Q :=
  let frequencies := countAll words in
  let totalWords := Qnat (length words) in
  let uniqueWords := Qnat (length frequencies) in
  let commonWordCount :=
    length (filter (fun w => existsb (str_eqb w) COMMON_WORDS) words) in
  let commonRatio := fdiv fp (Qnat commonWordCount) totalWords in
  let hapaxRatio :=
    fdiv fp
      (Qnat (length (filter (fun c => (c =? 1)%nat) (map snd frequencies))))
      uniqueWords in
  let base :=
    clamp (fadd fp (fmul fp commonRatio 120)
             (fmul fp (fsub fp 1 hapaxRatio) 30)) in
  clamp (fadd fp base (fmul fp (hedgeDensityOf trimmed sentences) 12)).

Definition overallRiskOf (perplexity burstiness : Q)
  (sentencePattern : number) (vocabulary : Q) : number :=
  match sentencePattern with
  | NaN => NaN
  | Num pattern =>
      Num (clamp
             (fadd fp
                (fadd fp
                   (fadd fp (fmul fp perplexity double_0_28)
                      (fmul fp burstiness double_0_24))
                   (fmul fp pattern double_0_22))
                (fmul fp vocabulary double_0_26)))
  end.

Definition analyzeText (text styleSample : str) : analysis :=
  let trimmed := trim text in
  let sentences := splitSentences terms trimmed in
  let words := tokenizeWords terms trimmed in
  let style := computeStyleProfile styleSample in
  if (isEmpty trimmed || (length words <? 20)%nat
      || (length sentences <? 2)%nat)%bool
  then neutral words sentences style
  else
    let perplexity := perplexityRisk words in
    let sentenceLengths := nonzeroLengths sentences in
    let sentenceLengthMean := average fp sentenceLengths in
    let sentenceLengthStd := stdDev fp sentenceLengths in
    let burstiness := burstinessRisk sentences style in
    let sentencePattern := sentencePatternRisk sentences in
    let vocabulary := vocabularyPredictabilityRisk trimmed words sentences in
    let hedgeDensity := hedgeDensityOf trimmed sentences in
    let overall :=
      overallRiskOf perplexity burstiness sentencePattern vocabulary in
    {| metrics :=
         {| m_perplexity := round (Num perplexity);
            m_burstiness := round (Num burstiness);
            m_sentencePatternDiversity := round sentencePattern;
            m_vocabularyPredictability := round (Num vocabulary);
            m_overallRisk := round overall |};
       riskBands_ :=
         {| b_perplexity := getRiskColor (Num perplexity);
            b_burstiness := getRiskColor (Num burstiness);
            b_sentencePatternDiversity := getRiskColor sentencePattern;
            b_vocabularyPredictability := getRiskColor (Num vocabulary);
            b_overallRisk := getRiskColor overall |};
       insights_ := {| i_wordCount := length words;
                       i_sentenceCount := length sentences;
                       i_note := None |};
       suggestions :=
         buildSuggestions fp trimmed sentences sentenceLengthMean
           sentenceLengthStd hedgeDensity style;
       styleProfile_ := style |}.

End Analysis.

(** ** Client: accepting and rejecting suggestions *)

(** The part of the state of [App] that accepting a suggestion reads and
    writes. *)
Record appState := mkState {
  st_text : str;
  st_suggestions : list suggestion;
  st_error : string
}.

Definition STALE : string :=
  "This suggestion no longer lines up with the current text. Run Analyze again.".

(** The span at which the recorded original of a suggestion is found:
    [(start, end, originalSlice)], or nothing when it is stale. *)
Definition locate (text : str) (suggestion : suggestion)
  : option (Z * Z * str) :=
  let start := sg_start suggestion in
  let end_ := sg_end suggestion in
  let originalSlice := slice text start end_ in
  if str_eqb originalSlice (sg_original suggestion) then
    Some (start, end_, originalSlice)
  else
    let exact := indexOf text (sg_original suggestion) in
    if 0 <=? exact then
      Some (exact, exact + len (sg_original suggestion), sg_original suggestion)
    else
      let compact := trim (sg_original suggestion) in
      let fallback := if isEmpty compact then -1 else indexOf text compact in
      if fallback <? 0 then None
      else Some (fallback, fallback + len compact, compact).

(** The callback of [suggestions.map] in [applySuggestion]. *)
Definition reconcile (id : str) (start end_ delta : Z) (replacement : str)
  (item : suggestion) : suggestion :=
  if str_eqb (sg_id item) id then
    {| sg_type := sg_type item;
       sg_title := sg_title item;
       sg_description := sg_description item;
       sg_start := start;
       sg_end := start + len replacement;
       sg_original := sg_original item;
       sg_replacement := sg_replacement item;
       sg_riskImpact := sg_riskImpact item;
       sg_id := sg_id item;
       sg_status := accepted |}
  else if end_ <=? sg_start item then
    {| sg_type := sg_type item;
       sg_title := sg_title item;
       sg_description := sg_description item;
       sg_start := sg_start item + delta;
       sg_end := sg_end item + delta;
       sg_original := sg_original item;
       sg_replacement := sg_replacement item;
       sg_riskImpact := sg_riskImpact item;
       sg_id := sg_id item;
       sg_status := sg_status item |}
  else item.

Definition isPending (s : status) : bool :=
  match s with pending => true | _ => false end.

(** [applySuggestion(id)], up to the request that refreshes the scores. *)
Definition applySuggestion (st : appState) (id : str) : appState :=
  match find (fun item => str_eqb (sg_id item) id) (st_suggestions st) with
  | None => st
  | Some suggestion =>
      if negb (isPending (sg_status suggestion)) then st
      else
        match locate (st_text st) suggestion with
        | None =>
            {| st_text := st_text st;
               st_suggestions := st_suggestions st;
               st_error := STALE |}
        | Some (start, end_, originalSlice) =>
            let nextText :=
              slice (st_text st) 0 start ++ sg_replacement suggestion
              ++ sliceFrom (st_text st) end_ in
            let delta := len (sg_replacement suggestion) - len originalSlice in
            {| st_text := nextText;
               st_suggestions :=
                 map (reconcile id start end_ delta (sg_replacement suggestion))
                   (st_suggestions st);
               st_error := st_error st |}
        end
  end.

(** ** Stand-ins for the library functions, used to run the model *)

(** The double nearest to the square root of a positive rational that is
    not minute: the root of [n / d] is that of [n * d] over [d]; it is
    taken to 128 binary places, with half a unit added when it is not
    exact, so that it rounds as the root itself. *)
Definition sqrt64 (q : Q) : Q :=
  if Qle_bool q 0 then 0%Q
  else
    let n := Qnum q in
    let d := Z.pos (Qden q) in
    let scaled := n * d * 2 ^ 256 in
    let s := Z.sqrt scaled in
    let half := if s * s =? scaled then 0 else 1 in
    round53 (Qmake (2 * s + half) (Z.to_pos (2 * d * 2 ^ 128))).

(** [q] rounded down to thirty binary places. *)
Definition trunc30 (q : Q) : Q :=
  Qmake (Qfloor (q * inject_Z (2 ^ 30))%Q) (2 ^ 30).

(** The binary places of the logarithm of [x], [1 <= x < 2], by repeated
    squaring. *)
Fixpoint log2Bits (bits : nat) (x unit : Q) : Q :=
  match bits with
  | O => 0%Q
  | S b =>
      let y := trunc30 (x * x)%Q in
      if Qle_bool 2 y
      then (unit + log2Bits b (trunc30 (y / 2)%Q) (unit / 2))%Q
      else log2Bits b y (unit / 2)%Q
  end.

(** The binary logarithm, to twenty binary places. *)
Definition log2approx (q : Q) : Q :=
  if Qle_bool q 0 then 0%Q
  else
    let up := Qle_bool 1 q in
    let x := if up then q else (/ q)%Q in
    let e := Z.log2 (Qfloor x) in
    let r := (inject_Z e + log2Bits 20 (x / inject_Z (2 ^ e)) (1 # 2))%Q in
    Qred (if up then r else (- r)%Q).

(** The arithmetic that rounds nothing, to compare with. *)
Definition exactArithmetic : arithmetic :=
  {| fadd := Qplus;
     fsub := Qminus;
     fmul := Qmult;
     fdiv := Qdiv;
     fsquare := fun x => (x * x)%Q;
     fsqrt := sqrt64;
     flog2 := log2approx |}.

(** The arithmetic of the doubles, with the logarithm to twenty binary
    places. *)
Definition binary64 : arithmetic :=
  {| fadd := fun a b => round53 (a + b)%Q;
     fsub := fun a b => round53 (a - b)%Q;
     fmul := fun a b => round53 (a * b)%Q;
     fdiv := fun a b => round53 (a / b)%Q;
     fsquare := fun x => round53 (x * x)%Q;
     fsqrt := sqrt64;
     flog2 := fun x => round53 (log2approx x) |}.

(** ** Specification vocabulary *)

(** The invariant of a sentence record over the segmented text. *)
Definition spanOf (text : str) (s : sentence) : Prop :=
  0 <= s_start s < s_end s /\ s_end s <= len text /\
  s_raw s = slice text (s_start s) (s_end s).

(** [sub] occurs in [text] at offset [i]. *)
Definition occursAt (text sub : str) (i : nat) : Prop :=
  exists pre post, text = pre ++ sub ++ post /\ length pre = i.

(** [i] is the offset of the first occurrence of [sub] in [text]. *)
Definition firstOccurrence (text sub : str) (i : nat) : Prop :=
  occursAt text sub i /\ forall j, (j < i)%nat -> ~ occursAt text sub j.

(** The white space of the language among the characters of the
    alphabet, by code: TAB, LF, VT, FF, CR, SPACE and U+00A0. *)
Definition whiteSpace (c : ascii) : Prop :=
  In (code c) [9; 10; 11; 12; 13; 32; 160]%N.

(** [core] is [s] with the white space at its two ends taken off: what
    [s.trim()] is to return. *)
Definition trimmedForm (s core : str) : Prop :=
  exists lead trail,
    s = lead ++ core ++ trail /\
    Forall whiteSpace lead /\ Forall whiteSpace trail /\
    (forall c r, core = c :: r -> ~ whiteSpace c) /\
    (forall r c, core = r ++ [c] -> ~ whiteSpace c).

(** Where the claim of the design locates the original of a suggestion:
    at the recorded span; failing that, at its first occurrence; failing
    that, at the first occurrence of its trimmed form. *)
Inductive Located (text : str) (sg : suggestion) : Z -> Z -> str -> Prop :=
| at_recorded_span :
    slice text (sg_start sg) (sg_end sg) = sg_original sg ->
    Located text sg (sg_start sg) (sg_end sg) (sg_original sg)
| at_first_occurrence i :
    slice text (sg_start sg) (sg_end sg) <> sg_original sg ->
    firstOccurrence text (sg_original sg) i ->
    Located text sg (Z.of_nat i) (Z.of_nat i + len (sg_original sg))
      (sg_original sg)
| at_trimmed_occurrence i compact :
    slice text (sg_start sg) (sg_end sg) <> sg_original sg ->
    (forall j, ~ occursAt text (sg_original sg) j) ->
    trimmedForm (sg_original sg) compact ->
    compact <> [] ->
    firstOccurrence text compact i ->
    Located text sg (Z.of_nat i) (Z.of_nat i + len compact) compact.

(** All three attempts fail: the trimmed original is empty or occurs
    nowhere. *)
Definition Stale (text : str) (sg : suggestion) : Prop :=
  slice text (sg_start sg) (sg_end sg) <> sg_original sg /\
  (forall j, ~ occursAt text (sg_original sg) j) /\
  exists compact,
    trimmedForm (sg_original sg) compact /\
    (compact = [] \/ forall j, ~ occursAt text compact j).

Definition demoSuggestion (id : string) (start end_ : Z)
  (original replacement : string) : suggestion :=
  {| sg_type := swap_predictable_phrasing;
     sg_title := "Use less templated phrasing";
     sg_description := [];
     sg_start := start;
     sg_end := end_;
     sg_original := lit original;
     sg_replacement := lit replacement;
     sg_riskImpact := 6;
     sg_id := lit id;
     sg_status := pending |}.

(** A document with three pending suggestions: one before, one at, and one
    after the phrase "in addition". *)
Definition demoState : appState :=
  {| st_text := lit "Overall it works. in addition, it is fast. Moreover it is small.";
     st_suggestions :=
       [ demoSuggestion "s-1" 0 7 "Overall" "All in all";
         demoSuggestion "s-2" 18 29 "in addition" "plus, as a bonus";
         demoSuggestion "s-3" 43 51 "Moreover" "On top of that" ];
     st_error := "" |}.

(** The document of [demoState] after an edit that removed "Moreover",
    with a suggestion whose recorded span is out of date and one whose
    original is gone. *)
Definition editedState : appState :=
  {| st_text := lit "Overall it works. in addition, it is fast.";
     st_suggestions :=
       [ demoSuggestion "s-2" 30 41 "in addition" "plus";
         demoSuggestion "s-3" 43 51 "Moreover" "On top of that" ];
     st_error := "" |}.


(** The no-break space U+00A0. *)
Definition nbsp : ascii := ascii_of_nat 160.

(** A document in which "Moreover" follows the full stop with nothing in
    between, and a suggestion recorded for the span that once held it
    with the white space around it: a no-break space and a space in
    front, a space after. *)
Definition driftedState : appState :=
  {| st_text := lit "It works.Moreover it is small.";
     st_suggestions :=
       [ {| sg_type := diversify_openers;
            sg_title := "Diversify repetitive sentence starts";
            sg_description := [];
            sg_start := 9;
            sg_end := 20;
            sg_original := nbsp :: lit " Moreover ";
            sg_replacement := lit "What is more,";
            sg_riskImpact := 7;
            sg_id := lit "s-1";
            sg_status := pending |} ];
     st_error := "" |}.

(** What the design promises of one score: the metric is the score rounded
    to an integer of [0, 100], and the band follows the thresholds 35 and 65
    on the score before rounding. *)
Definition scored (score : Q) (metric : option Z) (b : band) : Prop :=
  (exists z, metric = Some z /\ z = Qfloor (score + (1 # 2)) /\ 0 <= z <= 100)
  /\ (score < 35 -> b = low)%Q
  /\ (35 <= score -> score < 65 -> b = moderate)%Q
  /\ (65 <= score -> b = high)%Q.

(** [SAMPLE_TEXT], the draft that the client starts with. *)
Definition SAMPLE_TEXT : str :=
  lit "The results show that the project met its objectives in multiple ways. The report explains the timeline and outcomes in detail. The team completed every task on schedule and stayed aligned with requirements. It is important to note that each milestone followed the same structure for consistency. Furthermore, the analysis provides a clear summary of what happened and why it mattered.".

Fixpoint repeatStr (n : nat) (s : str) : str :=
  match n with
  | O => []
  | S k => s ++ repeatStr k s
  end.

(** Forty times the first catalog phrase, then the seventh. *)
Definition fortyConclusions : str :=
  repeatStr 40 (lit "In conclusion. ") ++ lit "Furthermore.".

(** Sixteen sentences of two words, five of them alike: twelve distinct
    openers, the most frequent one five times. *)
Definition sixteenOpeners : str :=
  repeatStr 5 (lit "We go. ")
  ++ lit "I am. You are. He is. She was. It did. They do. One can. Who will. All had. Few have. Some were.".

(** Ten sentences of two words, three of them alike: eight distinct
    openers, the most frequent one three times. *)
Definition tenOpeners : str :=
  repeatStr 3 (lit "We go. ")
  ++ lit "I am. You are. He is. She was. It did. They do. One can.".

(** A draft of two lines, the second a sentence of seventeen words. *)
Definition twoLineDraft : str :=
  lit "We met on Monday." ++ [ascii_of_nat 10]
  ++ lit "The committee agreed to postpone the vote until every report had been read twice by all members.".

(** Two sentences of eleven words with one hedge word each. *)
Definition hedgedDocument : str :=
  lit "The plan may work well for the whole team this year. Our plan might fail badly for the whole team next year.".

(** The replacement that the design describes for a sentence text: the
    first match of a hedge word is removed and no other, runs of white
    space are collapsed, the ends are trimmed. *)
Definition removeFirstHedge (t : str) : str :=
  match matchAll HEDGE_REGEX t with
  | [] => t
  | (i, m) :: _ => trim (collapse (firstn i t ++ skipn (i + length m) t))
  end.

(** Offset [i] of [text] is the start of the text or follows a character
    that ends a sentence match: a terminator or a line break. *)
Definition afterBreak (text : str) (i : nat) : Prop :=
  i = 0%nat \/ exists c, nth_error text (i - 1) = Some c /\ isBreak c = true.

(** Where the segmenter may resume: after a break, or in front of one (or
    at the end of the text). *)
Definition resumable (text : str) (i : nat) : Prop :=
  afterBreak text i \/
  forall c, nth_error text i = Some c -> isBreak c = true.

(** A sentence record of [text]: its span, its trimmed text, and the place
    where its span begins. *)
Definition sentenceIn (text : str) (s : sentence) : Prop :=
  spanOf text s /\ s_text s = trim (s_raw s) /\ s_text s <> [] /\
  afterBreak text (Z.to_nat (s_start s)).




(** The candidates that the detectors may hand to [pushSuggestion]. *)
Inductive Proposed (text : str) (sentences : list sentence)
  : candidate -> Prop :=
| proposed_vary s :
    In s sentences -> Proposed text sentences (varyCandidate s)
| proposed_phrase entry lastIndex index original next :
    In entry PREDICTABLE_PHRASES ->
    execWord [fst entry] text lastIndex = Some (index, original) ->
    next = snd entry \/ next = capitalizeFirst (snd entry) ->
    Proposed text sentences (phraseCandidate index original next)
| proposed_texture s :
    In s sentences -> Proposed text sentences (textureCandidate s)
| proposed_opener word s :
    In s sentences -> Proposed text sentences (openerCandidate word s)
| proposed_hedge s :
    In s sentences -> hedgeReplacement (s_text s) <> [] ->
    Proposed text sentences (hedgeCandidate s (hedgeReplacement (s_text s)))
| proposed_rhythm s :
    In s sentences -> Proposed text sentences (rhythmCandidate s).

(** A suggestion of the list: a proposed candidate with a valid span, an
    id and the status [pending]. *)
Definition Pushed (text : str) (sentences : list sentence)
  (sg : suggestion) : Prop :=
  exists c n, Proposed text sentences c /\ sg = withId c n /\
              0 <= c_start c < c_end c.

(** ** Client: the preview, the counters and rejection *)

(** [text.match(/\S+/g)]: the maximal runs of characters that are no white
    space, [cur] being the run under way. *)
Fixpoint nonSpaceRuns (s cur : str) : list str :=
  match s with
  | [] => if isEmpty cur then [] else [cur]
  | c :: r =>
      if isSpace c then
        if isEmpty cur then nonSpaceRuns r [] else cur :: nonSpaceRuns r []
      else nonSpaceRuns r (cur ++ [c])
  end.

(** [countWords]: [matches ? matches.length : 0] on the trimmed text. *)
Definition countWords (text : str) : nat :=
  length (nonSpaceRuns (trim text) []).

Inductive tone := emerald | amber | rose.

(** [getRiskTone], up to the names of the style classes. *)
Definition getRiskTone (score : Z) : tone :=
  if score <? 35 then emerald
  else if score <? 65 then amber
  else rose.

(** The tone that goes with a band of the server. *)
Definition toneOf (b : band) : tone :=
  match b with low => emerald | moderate => amber | high => rose end.

Definition toneRank (t : tone) : nat :=
  match t with emerald => 0 | amber => 1 | rose => 2 end.

(** A segment of [HighlightedPreview]. *)
Inductive segment :=
| TextSegment (content : str)
| HighlightSegment (content : str) (suggestion : suggestion).

Definition segmentContent (g : segment) : str :=
  match g with
  | TextSegment content => content
  | HighlightSegment content _ => content
  end.

(** [.sort((a, b) => a.start - b.start)]: a stable sort by [start]. *)
Fixpoint insertByStart (x : suggestion) (l : list suggestion)
  : list suggestion :=
  match l with
  | [] => [x]
  | y :: r =>
      if sg_start x <=? sg_start y then x :: l else y :: insertByStart x r
  end.

Definition sortByStart (l : list suggestion) : list suggestion :=
  fold_right insertByStart [] l.

(** The callback of [pending.forEach] in [HighlightedPreview], on the pair
    of [segments] and [cursor]. *)
Definition previewStep (text : str) (state : list segment * Z)
  (suggestion : suggestion) : list segment * Z :=
  let (segments, cursor) := state in
  if ((sg_start suggestion <? cursor)
      || (len text <? sg_end suggestion))%bool then state
  else
    let segments' :=
      if cursor <? sg_start suggestion then
        segments ++ [TextSegment (slice text cursor (sg_start suggestion))]
      else segments in
    (segments' ++
       [HighlightSegment
          (slice text (sg_start suggestion) (sg_end suggestion)) suggestion],
     sg_end suggestion).

(** The segments that [HighlightedPreview] renders, or nothing when no
    suggestion is pending (the component then shows a fixed message). *)
Definition previewSegments (text : str) (suggestions : list suggestion)
  : option (list segment) :=
  let pending :=
    sortByStart (filter (fun s => isPending (sg_status s)) suggestions) in
  match pending with
  | [] => None
  | _ =>
      let (segments, cursor) := fold_left (previewStep text) pending ([], 0) in
      Some (if cursor <? len text
            then segments ++ [TextSegment (sliceFrom text cursor)]
            else segments)
  end.

Definition isAccepted (s : status) : bool :=
  match s with accepted => true | _ => false end.

(** [acceptedCount] and [pendingCount] *)
Definition acceptedCount (suggestions : list suggestion) : nat :=
  length (filter (fun s => isAccepted (sg_status s)) suggestions).

Definition pendingCount (suggestions : list suggestion) : nat :=
  length (filter (fun s => isPending (sg_status s)) suggestions).

Definition withStatus (s : suggestion) (st : status) : suggestion :=
  {| sg_type := sg_type s;
     sg_title := sg_title s;
     sg_description := sg_description s;
     sg_start := sg_start s;
     sg_end := sg_end s;
     sg_original := sg_original s;
     sg_replacement := sg_replacement s;
     sg_riskImpact := sg_riskImpact s;
     sg_id := sg_id s;
     sg_status := st |}.

(** [x?.id || null] *)
Definition idOrNull (x : option suggestion) : option str :=
  match x with
  | Some s => if isEmpty (sg_id s) then None else Some (sg_id s)
  | None => None
  end.

Definition optStr_eqb (a : option str) (b : str) : bool :=
  match a with Some x => str_eqb x b | None => false end.

(** [rejectSuggestion(id)] on the list of suggestions and the active
    suggestion id. *)
Definition rejectSuggestion (suggestions : list suggestion)
  (activeSuggestionId : option str) (id : str)
  : list suggestion * option str :=
  let next :=
    map (fun suggestion =>
           if str_eqb (sg_id suggestion) id
           then withStatus suggestion rejected else suggestion)
      suggestions in
  if optStr_eqb activeSuggestionId id then
    (next, idOrNull (find (fun item => isPending (sg_status item)) next))
  else (next, activeSuggestionId).

(** What [analyzeText] of the client stores when [shouldResetSuggestions]
    is set: the suggestions of the response, each with the status
    [pending], and the id of the first as the active one. *)
Definition resetSuggestions (data : analysis)
  : list suggestion * option str :=
  let nextSuggestions :=
    map (fun suggestion => withStatus suggestion pending) (suggestions data) in
  (nextSuggestions, idOrNull (hd_error nextSuggestions)).

(** ** Vocabulary of the further properties *)

(** The count that an insertion-ordered map holds for a key, 0 when the
    key is absent ([m.get(k) || 0]). *)
Definition getCount (m : list (str * nat)) (k : str) : nat :=
  match find (fun e => str_eqb (fst e) k) m with
  | Some e => snd e
  | None => O
  end.

(** The number of occurrences of a key in a list of keys. *)
Definition occurrences (keys : list str) (k : str) : nat :=
  length (filter (fun x => str_eqb x k) keys).

(** A raw sentence span: a non-empty run of characters that are no
    terminator and no line break, with at most one terminator after it. *)
Definition rawShape (raw : str) : Prop :=
  exists run,
    run <> [] /\ Forall (fun c => isBreak c = false) run /\
    (raw = run \/ exists t, isTerminal t = true /\ raw = run ++ [t]).

(** The sentence records are in the order of the text and do not
    overlap. *)
Fixpoint ordered (bound : Z) (l : list sentence) : Prop :=
  match l with
  | [] => True
  | s :: r => bound <= s_start s /\ s_start s < s_end s /\ ordered (s_end s) r
  end.

(** Offset [k] of the text lies in the span of one of the sentences. *)
Definition covered (l : list sentence) (k : nat) : Prop :=
  exists s, In s l /\ s_start s <= Z.of_nat k < s_end s.

(** The suggestions of a list carry the ids [s-1], [s-2], ... in order, and
    all are pending. *)
Definition numbered (l : list suggestion) : Prop :=
  forall i sg, nth_error l i = Some sg ->
               sg_id sg = idOf (S i) /\ sg_status sg = pending.

(** The 256 characters. *)
Definition allAscii : list ascii := map ascii_of_nat (seq 0 256).

(** What a detector has tested of a candidate before it hands it to
    [pushSuggestion]. *)
Inductive Checked (text : str) (sentences : list sentence)
  (hedgeDensity : Q) (style : option styleProfile) : candidate -> Prop :=
| checked_vary s :
    In s sentences -> (20 < s_wordCount s)%nat ->
    includes (s_text s) ","%char = true ->
    fst (commaSplit (s_text s)) <> [] ->
    snd (commaSplit (s_text s)) <> [] ->
    Checked text sentences hedgeDensity style (varyCandidate s)
| checked_phrase entry lastIndex index original :
    In entry PREDICTABLE_PHRASES ->
    execWord [fst entry] text lastIndex = Some (index, original) ->
    Checked text sentences hedgeDensity style
      (phraseCandidate index original
         (if startsUpper original then capitalizeFirst (snd entry)
          else snd entry))
| checked_texture s :
    In s sentences -> (14 <= s_wordCount s)%nat ->
    includes (s_text s) "("%char = false ->
    Checked text sentences hedgeDensity style (textureCandidate s)
| checked_opener word s :
    In word
      (map fst
         (filter (fun e => (3 <=? snd e)%nat)
            (countAll (filter (fun k => negb (isEmpty k))
                         (map s_firstWord sentences))))) ->
    In s (firstn 2 (skipn 1
            (filter (fun s => str_eqb (s_firstWord s) word) sentences))) ->
    Checked text sentences hedgeDensity style (openerCandidate word s)
| checked_hedge s :
    (5 # 10 <= hedgeDensity)%Q -> In s sentences ->
    matchAll HEDGE_REGEX (s_text s) <> [] ->
    hedgeReplacement (s_text s) <> [] ->
    hedgeReplacement (s_text s) <> s_text s ->
    Checked text sentences hedgeDensity style
      (hedgeCandidate s (hedgeReplacement (s_text s)))
| checked_rhythm s p :
    style = Some p -> In s sentences ->
    includes (s_text s) ","%char = true ->
    Checked text sentences hedgeDensity style (rhythmCandidate s).

(** A suggestion made of a candidate that passed the tests of its
    detector. *)
Definition Detected (text : str) (sentences : list sentence)
  (hedgeDensity : Q) (style : option styleProfile) (sg : suggestion) : Prop :=
  exists c n, Checked text sentences hedgeDensity style c /\ sg = withId c n.

(** A draft whose second sentence is long and holds a comma. *)
Definition committeeDraft : str :=
  lit "We met. When the committee finally met on Tuesday, the members agreed to postpone the vote until every report had been read.".

(** A style profile with a large spread of sentence lengths. *)
Definition variedStyle : styleProfile :=
  {| avgSentenceLength := 12;
     sentenceVariance := 10;
     commaRate := 0;
     questionRate := 0 |}.

(** Two short sentences with a hedge word each; the first holds a double
    space. *)
Definition spacedHedges : str := lit "It may  work. It might fail.".

(** * Properties *)

(** ** Strings *)

Lemma len_app (a b : str) : len (a ++ b) = len a + len b.
Proof. unfold len. rewrite length_app. lia. Qed.

Lemma len_nonneg (s : str) : 0 <= len s.
Proof. unfold len. lia. Qed.

Lemma slice_inside (s : str) (a b : Z) :
  0 <= a <= b -> b <= len s ->
  slice s a b = firstn (Z.to_nat (b - a)) (skipn (Z.to_nat a) s).
Proof.
  intros Ha Hb. unfold slice, relIndex.
  destruct (Z.ltb_spec a 0); [lia|].
  destruct (Z.ltb_spec b 0); [lia|].
  rewrite !Z.min_l by lia. reflexivity.
Qed.

(** The slice that covers the middle of a concatenation. *)
Lemma slice_middle (pre m post : str) :
  slice (pre ++ m ++ post) (len pre) (len pre + len m) = m.
Proof.
  rewrite slice_inside.
  - replace (len pre + len m - len pre) with (len m) by lia.
    unfold len. rewrite !Nat2Z.id.
    rewrite skipn_app, skipn_all, Nat.sub_diag. simpl.
    rewrite firstn_app, firstn_all, Nat.sub_diag. simpl.
    apply app_nil_r.
  - pose proof (len_nonneg pre). pose proof (len_nonneg m). lia.
  - rewrite !len_app. pose proof (len_nonneg post). lia.
Qed.

Lemma slice_prefix (pre post : str) : slice (pre ++ post) 0 (len pre) = pre.
Proof.
  pose proof (slice_middle [] pre post) as H. simpl in H.
  exact H.
Qed.

Lemma sliceFrom_suffix (pre post : str) :
  sliceFrom (pre ++ post) (len pre) = post.
Proof.
  unfold sliceFrom.
  pose proof (slice_middle pre post []) as H.
  rewrite app_nil_r in H. rewrite len_app. exact H.
Qed.

(** ** Segmenter *)

Lemma takeRun_app (s : str) : fst (takeRun s) ++ snd (takeRun s) = s.
Proof.
  induction s as [|c r IH]; simpl; [reflexivity|].
  destruct (isBreak c); simpl; [reflexivity|].
  destruct (takeRun r) as [run rest]. simpl in *. now rewrite IH.
Qed.

Lemma matchSentenceHere_prefix (s m : str) :
  matchSentenceHere s = Some m -> m <> [] /\ exists rest, s = m ++ rest.
Proof.
  unfold matchSentenceHere. pose proof (takeRun_app s) as H.
  destruct (takeRun s) as [run rest]. simpl in H.
  destruct run as [|c run]; [discriminate|].
  destruct rest as [|t rest].
  - intros [= <-]. split; [discriminate|]. exists []. now rewrite <- H.
  - destruct (isTerminal t); intros [= <-].
    + split; [discriminate|]. exists rest. rewrite <- H. simpl.
      now rewrite <- app_assoc.
    + split; [discriminate|]. exists (t :: rest). now rewrite <- H.
Qed.

Lemma execSentenceFrom_found (s : str) (pos i : nat) (m : str) :
  execSentenceFrom s pos = Some (i, m) ->
  m <> [] /\ exists pre rest,
    s = pre ++ m ++ rest /\ i = (pos + length pre)%nat.
Proof.
  revert pos. induction s as [|c r IH]; intros pos; simpl.
  - unfold matchSentenceHere. simpl. discriminate.
  - destruct (matchSentenceHere (c :: r)) as [m0|] eqn:E.
    + intros [= <- <-]. apply matchSentenceHere_prefix in E.
      destruct E as [Hne [rest Hr]]. split; [exact Hne|].
      exists [], rest. simpl. split; [exact Hr|lia].
    + intros H. apply IH in H. destruct H as [Hne [pre [rest [Hr Hi]]]].
      split; [exact Hne|]. exists (c :: pre), rest. simpl.
      split; [now rewrite Hr|lia].
Qed.

(** What one [exec] of the sentence pattern returns: a non-empty piece of
    the text, at or after [lastIndex]. *)
Lemma execSentence_found (text : str) (lastIndex i : nat) (m : str) :
  execSentence text lastIndex = Some (i, m) ->
  m <> [] /\ (lastIndex <= i)%nat /\
  exists pre rest, text = pre ++ m ++ rest /\ length pre = i.
Proof.
  unfold execSentence. intros H.
  destruct (Nat.le_gt_cases lastIndex (length text)) as [Hle|Hgt].
  - apply execSentenceFrom_found in H.
    destruct H as [Hne [pre [rest [Hr Hi]]]].
    split; [exact Hne|]. split; [lia|].
    exists (firstn lastIndex text ++ pre), rest. split.
    + rewrite <- app_assoc, <- Hr. now rewrite firstn_skipn.
    + rewrite length_app, length_firstn. lia.
  - rewrite skipn_all2 in H by lia. simpl in H.
    unfold matchSentenceHere in H. simpl in H. discriminate.
Qed.

Section SegmenterProperties.

Variable terms : str -> list str.

Lemma sentenceOf_span (text : str) (acc : list sentence) (pre m rest : str) :
  text = pre ++ m ++ rest -> m <> [] ->
  spanOf text (sentenceOf terms acc (length pre) m).
Proof.
  intros -> Hne. unfold spanOf, sentenceOf. simpl.
  assert (0 < len m) by (unfold len; destruct m; [easy|simpl; lia]).
  pose proof (len_nonneg pre). pose proof (len_nonneg rest).
  fold (len pre). rewrite !len_app.
  repeat split; try lia.
  symmetry. apply slice_middle.
Qed.

Lemma splitLoop_spans (fuel : nat) (text : str) :
  forall lastIndex acc,
    Forall (spanOf text) acc ->
    Forall (spanOf text) (splitLoop terms fuel text lastIndex acc).
Proof.
  induction fuel as [|f IH]; intros lastIndex acc Hacc; simpl; [exact Hacc|].
  destruct (execSentence text lastIndex) as [[i m]|] eqn:E; [|exact Hacc].
  apply execSentence_found in E.
  destruct E as [Hne [_ [pre [rest [Ht Hi]]]]].
  destruct (isEmpty (trim m)); apply IH; [exact Hacc|].
  apply Forall_app. split; [exact Hacc|].
  constructor; [|constructor].
  rewrite <- Hi. now apply sentenceOf_span with (rest := rest).
Qed.

(** The loop needs at most one round per character left: with that much
    fuel, more fuel changes nothing. *)
Lemma splitLoop_enough (fuel : nat) (text : str) :
  forall lastIndex acc fuel',
    (length text - lastIndex < fuel)%nat -> (fuel <= fuel')%nat ->
    splitLoop terms fuel' text lastIndex acc
    = splitLoop terms fuel text lastIndex acc.
Proof.
  induction fuel as [|f IH]; intros lastIndex acc fuel' Hlt Hle; [lia|].
  destruct fuel' as [|f']; [lia|]. simpl.
  destruct (execSentence text lastIndex) as [[i m]|] eqn:E; [|reflexivity].
  apply execSentence_found in E.
  destruct E as [Hne [Hli [pre [rest [Ht Hi]]]]].
  assert (Hlen : (length text = i + length m + length rest)%nat).
  { rewrite Ht, !length_app. lia. }
  assert (0 < length m)%nat by (destruct m; [easy|simpl; lia]).
  destruct (isEmpty (trim m)); apply IH; lia.
Qed.

End SegmenterProperties.

(** C9. Every sentence record that the segmenter produces for a text has
    [0 <= start < end <= length(text)], and its raw text is
    [text.slice(start, end)]. *)
Theorem sentence_span_valid (terms : str -> list str) (text : str)
  (s : sentence) :
  In s (splitSentences terms text) ->
  0 <= s_start s < s_end s /\ s_end s <= len text /\
  s_raw s = slice text (s_start s) (s_end s).
Proof.
  intros Hin.
  pose proof (splitLoop_spans terms (S (length text)) text 0 []
                (Forall_nil _)) as H.
  rewrite Forall_forall in H. exact (H s Hin).
Qed.

Lemma sentence_span_valid_witness :
  let text := lit "A b.  C d!" in
  let s := nth 1 (splitSentences spaceTerms text)
             (mkSentence 0 [] [] 0 0 0 [] []) in
  s_start s = 4 /\ s_end s = 10 /\
  (0 <= s_start s < s_end s /\ s_end s <= len text /\
   s_raw s = slice text (s_start s) (s_end s)).
Proof.
  intros text s. split; [reflexivity|]. split; [reflexivity|].
  apply (sentence_span_valid spaceTerms text s).
  vm_compute. right. left. reflexivity.
Defined.

(** ** Where a sentence span begins *)

Lemma isTerminal_isBreak (c : ascii) : isTerminal c = true -> isBreak c = true.
Proof. unfold isBreak. now intros ->. Qed.

Lemma takeRun_shape (s : str) :
  Forall (fun c => isBreak c = false) (fst (takeRun s)) /\
  (forall c, hd_error (snd (takeRun s)) = Some c -> isBreak c = true).
Proof.
  induction s as [|c r IH]; simpl.
  - split; [constructor|discriminate].
  - destruct (isBreak c) eqn:E; simpl.
    + split; [constructor|]. now intros c' [= <-].
    + destruct (takeRun r) as [run rest]. simpl in *.
      destruct IH as [IH1 IH2]. split; [now constructor|exact IH2].
Qed.

Lemma nth_error_middle {A} (pre : list A) (c : A) (post : list A) :
  nth_error (pre ++ c :: post) (length pre) = Some c.
Proof.
  rewrite nth_error_app2 by lia. now rewrite Nat.sub_diag.
Qed.

(** The shape of a sentence match: it begins with a character that is no
    break, and it ends with a terminator or in front of a break (or at the
    end of the text). *)
Lemma matchSentenceHere_shape (s m : str) :
  matchSentenceHere s = Some m ->
  exists c0 m' rest,
    s = m ++ rest /\ m = c0 :: m' /\ isBreak c0 = false /\
    ((exists m0 t, m = m0 ++ [t] /\ isBreak t = true) \/
     (forall c, hd_error rest = Some c -> isBreak c = true)).
Proof.
  unfold matchSentenceHere.
  pose proof (takeRun_app s) as Happ. pose proof (takeRun_shape s) as [Hrun Hrest].
  destruct (takeRun s) as [run rest]. simpl in *.
  destruct run as [|c0 run]; [discriminate|].
  inversion Hrun as [|? ? Hc0 _]; subst.
  destruct rest as [|t rest'].
  - intros [= <-]. exists c0, run, [].
    split; [now rewrite app_nil_r in *|]. split; [reflexivity|].
    split; [exact Hc0|]. right. discriminate.
  - destruct (isTerminal t) eqn:Et; intros [= <-].
    + exists c0, (run ++ [t]), rest'.
      split; [simpl; now rewrite <- app_assoc|]. split; [reflexivity|].
      split; [exact Hc0|].
      left. exists (c0 :: run), t. split; [reflexivity|].
      now apply isTerminal_isBreak.
    + exists c0, run, (t :: rest').
      split; [reflexivity|]. split; [reflexivity|].
      split; [exact Hc0|]. right. exact Hrest.
Qed.

Lemma matchSentenceHere_none (c : ascii) (r : str) :
  matchSentenceHere (c :: r) = None -> isBreak c = true.
Proof.
  unfold matchSentenceHere. simpl.
  destruct (isBreak c); [reflexivity|].
  destruct (takeRun r) as [run rest].
  destruct rest as [|t rest']; [discriminate|].
  destruct (isTerminal t); discriminate.
Qed.

Lemma execSentenceFrom_shape (s : str) (pos i : nat) (m : str) :
  execSentenceFrom s pos = Some (i, m) ->
  exists pre rest,
    s = pre ++ m ++ rest /\ i = (pos + length pre)%nat /\
    Forall (fun c => isBreak c = true) pre /\
    matchSentenceHere (m ++ rest) = Some m.
Proof.
  revert pos. induction s as [|c r IH]; intros pos; simpl.
  - unfold matchSentenceHere. simpl. discriminate.
  - destruct (matchSentenceHere (c :: r)) as [m0|] eqn:E.
    + intros [= <- <-].
      destruct (matchSentenceHere_prefix _ _ E) as [_ [rest Hr]].
      exists [], rest. simpl. repeat split; auto. now rewrite <- Hr.
    + intros H. apply IH in H.
      destruct H as [pre [rest [Hr [Hi [Hpre Hm]]]]].
      exists (c :: pre), rest. simpl.
      repeat split; [now rewrite Hr|lia| |exact Hm].
      constructor; [|exact Hpre]. now apply matchSentenceHere_none in E.
Qed.

Lemma last_is_break (pre : str) :
  pre <> [] -> Forall (fun c => isBreak c = true) pre ->
  exists pre' c, pre = pre' ++ [c] /\ isBreak c = true.
Proof.
  intros Hne Hall. destruct (exists_last Hne) as [pre' [c ->]].
  exists pre', c. split; [reflexivity|].
  apply Forall_app in Hall. destruct Hall as [_ Hc]. now inversion Hc.
Qed.

Lemma nth_error_at {A} (l pre : list A) (c : A) (post : list A) (k : nat) :
  l = pre ++ c :: post -> length pre = k -> nth_error l k = Some c.
Proof. intros -> <-. apply nth_error_middle. Qed.

(** One round of the loop on a decomposed text. *)
Lemma match_resumes (text before pre m rest : str) :
  text = before ++ pre ++ m ++ rest ->
  resumable text (length before) ->
  Forall (fun c => isBreak c = true) pre ->
  matchSentenceHere (m ++ rest) = Some m ->
  afterBreak text (length before + length pre) /\
  resumable text (length before + length pre + length m).
Proof.
  intros Ht Hres Hpre Hm.
  apply matchSentenceHere_shape in Hm.
  destruct Hm as [c0 [m' [rest' [Hmr [Hm [Hc0 Hend]]]]]].
  apply app_inv_head in Hmr. subst rest'.
  split.
  - destruct (list_eq_dec ascii_dec pre []) as [Hnil|Hne].
    + subst pre. simpl in *. rewrite Nat.add_0_r.
      destruct Hres as [Hres|Hres]; [exact Hres|].
      exfalso.
      assert (Hn : nth_error text (length before) = Some c0).
      { apply (nth_error_at _ before c0 (m' ++ rest)); [|reflexivity].
        now rewrite Ht, Hm. }
      rewrite (Hres _ Hn) in Hc0. discriminate.
    + destruct (last_is_break pre Hne Hpre) as [pre' [c [Hp Hc]]].
      right. exists c. split; [|exact Hc].
      apply (nth_error_at _ (before ++ pre') c (m ++ rest)).
      * rewrite Ht, Hp, <- !app_assoc. reflexivity.
      * rewrite Hp, !length_app. simpl. lia.
  - destruct Hend as [[m0 [t [Hm0 Hbt]]]|Hend].
    + left. right. exists t. split; [|exact Hbt].
      apply (nth_error_at _ (before ++ pre ++ m0) t rest).
      * rewrite Ht, Hm0, <- !app_assoc. reflexivity.
      * rewrite Hm0, !length_app. simpl. lia.
    + right. intros c Hc. apply Hend.
      destruct rest as [|r0 rest0].
      * exfalso.
        assert (Hl : (length text = length before + length pre + length m)%nat).
        { rewrite Ht, !length_app. simpl. lia. }
        assert (Hsome : nth_error text (length before + length pre + length m)
                        <> None) by congruence.
        apply nth_error_Some in Hsome. lia.
      * simpl. rewrite <- Hc. symmetry.
        apply (nth_error_at _ (before ++ pre ++ m) r0 rest0).
        -- rewrite Ht, <- !app_assoc. reflexivity.
        -- rewrite !length_app. lia.
Qed.

(** One round of the loop: a match found from a resumable offset begins
    after a break, and the loop resumes at a resumable offset. *)
Lemma execSentence_resumes (text : str) (lastIndex i : nat) (m : str) :
  resumable text lastIndex ->
  execSentence text lastIndex = Some (i, m) ->
  afterBreak text i /\ resumable text (i + length m).
Proof.
  unfold execSentence. intros Hres H.
  destruct (Nat.le_gt_cases lastIndex (length text)) as [Hle|Hgt].
  2:{ rewrite skipn_all2 in H by lia. simpl in H.
      unfold matchSentenceHere in H. simpl in H. discriminate. }
  apply execSentenceFrom_shape in H.
  destruct H as [pre [rest [Hs [Hi [Hpre Hm]]]]].
  assert (Hb : length (firstn lastIndex text) = lastIndex).
  { rewrite length_firstn. lia. }
  assert (Ht : text = firstn lastIndex text ++ pre ++ m ++ rest).
  { rewrite <- Hs. now rewrite firstn_skipn. }
  rewrite <- Hb in Hres.
  destruct (match_resumes _ _ _ _ _ Ht Hres Hpre Hm) as [H1 H2].
  rewrite Hb in H1, H2. subst i. split; assumption.
Qed.

Section SentenceRecords.

Variable terms : str -> list str.

Lemma splitLoop_sentences (fuel : nat) (text : str) :
  forall lastIndex acc,
    resumable text lastIndex ->
    Forall (sentenceIn text) acc ->
    Forall (sentenceIn text) (splitLoop terms fuel text lastIndex acc).
Proof.
  induction fuel as [|f IH]; intros lastIndex acc Hres Hacc; simpl;
    [exact Hacc|].
  destruct (execSentence text lastIndex) as [[i m]|] eqn:E; [|exact Hacc].
  destruct (execSentence_resumes _ _ _ _ Hres E) as [Hafter Hnext].
  apply execSentence_found in E.
  destruct E as [Hne [_ [pre [rest [Ht Hi]]]]].
  destruct (isEmpty (trim m)) eqn:Etrim; apply IH; try assumption.
  apply Forall_app. split; [exact Hacc|].
  constructor; [|constructor].
  split; [|split; [|split]].
  - rewrite <- Hi. now apply sentenceOf_span with (rest := rest).
  - reflexivity.
  - simpl. intros Hnil. rewrite Hnil in Etrim. discriminate.
  - simpl. now rewrite Nat2Z.id.
Qed.

(** Every sentence record of the segmenter is a sentence of the text. *)
Lemma splitSentences_sentences (text : str) :
  Forall (sentenceIn text) (splitSentences terms text).
Proof.
  apply splitLoop_sentences; [|constructor]. left. now left.
Qed.

End SentenceRecords.

(** ** Trimming *)

Lemma trimStart_head (s : str) (c : ascii) (r : str) :
  trimStart s = c :: r -> isSpace c = false.
Proof.
  induction s as [|a s IH]; simpl; [discriminate|].
  destruct (isSpace a) eqn:E; [exact IH|]. now intros [= <- _].
Qed.

Lemma trimStart_snoc (x : str) (a : ascii) :
  isSpace a = false -> exists v, trimStart (x ++ [a]) = v ++ [a].
Proof.
  intros Ha. induction x as [|b x IH]; simpl.
  - rewrite Ha. now exists [].
  - destruct (isSpace b); [exact IH|]. now exists (b :: x).
Qed.

Lemma trim_head (s : str) (c : ascii) (r : str) :
  trim s = c :: r -> isSpace c = false.
Proof.
  unfold trim, trimEnd. intros H.
  destruct (trimStart s) as [|a u] eqn:E; [discriminate|].
  pose proof (trimStart_head _ _ _ E) as Ha.
  simpl in H. destruct (trimStart_snoc (rev u) a Ha) as [v Hv].
  rewrite Hv, rev_app_distr in H. simpl in H. now injection H as <- _.
Qed.

Lemma trimStart_split_spaces (s : str) :
  exists lead, s = lead ++ trimStart s /\ Forall (fun c => isSpace c = true) lead.
Proof.
  induction s as [|c r [lead [IH Hl]]]; simpl; [now exists []|].
  destruct (isSpace c) eqn:E; [|now exists []].
  exists (c :: lead). simpl. split; [now rewrite <- IH|now constructor].
Qed.

Lemma trimEnd_split_spaces (s : str) :
  exists trail, s = trimEnd s ++ trail /\
                Forall (fun c => isSpace c = true) trail.
Proof.
  destruct (trimStart_split_spaces (rev s)) as [lead [Hs Hl]].
  exists (rev lead). unfold trimEnd. split.
  - rewrite <- rev_app_distr, <- Hs. now rewrite rev_involutive.
  - now apply Forall_rev.
Qed.

Lemma trimStart_spaces (lead s : str) :
  Forall (fun c => isSpace c = true) lead ->
  trimStart (lead ++ s) = trimStart s.
Proof.
  induction 1 as [|c lead Hc _ IH]; simpl; [reflexivity|].
  now rewrite Hc.
Qed.

Lemma trimEnd_spaces (s trail : str) :
  Forall (fun c => isSpace c = true) trail ->
  trimEnd (s ++ trail) = trimEnd s.
Proof.
  intros H. unfold trimEnd. rewrite rev_app_distr.
  rewrite trimStart_spaces; [reflexivity|now apply Forall_rev].
Qed.

Lemma trim_spaces (lead s trail : str) :
  Forall (fun c => isSpace c = true) lead ->
  Forall (fun c => isSpace c = true) trail ->
  trim (lead ++ s ++ trail) = trim s.
Proof.
  intros Hl Ht. unfold trim. rewrite trimStart_spaces by exact Hl.
  destruct (trimStart_split_spaces s) as [lead' [Hs Hl']].
  destruct (trimStart s) as [|c r] eqn:E.
  - rewrite app_nil_r in Hs. subst lead'.
    rewrite <- (app_nil_r (s ++ trail)).
    rewrite trimStart_spaces; [reflexivity|].
    apply Forall_app. split; [exact Hl'|exact Ht].
  - pose proof (trimStart_head _ _ _ E) as Hc.
    rewrite Hs at 1. rewrite <- app_assoc.
    rewrite trimStart_spaces by exact Hl'.
    simpl. rewrite Hc.
    change (c :: r ++ trail) with ((c :: r) ++ trail).
    now apply trimEnd_spaces.
Qed.

Lemma trimStart_idem (s : str) : trimStart (trimStart s) = trimStart s.
Proof.
  induction s as [|c r IH]; simpl; [reflexivity|].
  destruct (isSpace c) eqn:E; [exact IH|]. simpl. now rewrite E.
Qed.

Lemma trimStart_fix (s : str) :
  (forall c r, s = c :: r -> isSpace c = false) -> trimStart s = s.
Proof.
  destruct s as [|c r]; [reflexivity|]. intros H. simpl.
  now rewrite (H c r eq_refl).
Qed.

Lemma trim_idem (s : str) : trim (trim s) = trim s.
Proof.
  assert (H1 : trimStart (trim s) = trim s).
  { apply trimStart_fix. intros c r E. exact (trim_head _ _ _ E). }
  unfold trim at 1. rewrite H1. unfold trim, trimEnd.
  now rewrite rev_involutive, trimStart_idem.
Qed.

Lemma trim_nil_spaces (s : str) :
  trim s = [] -> Forall (fun c => isSpace c = true) s.
Proof.
  intros H. destruct (trimStart_split_spaces s) as [lead [Hs Hl]].
  destruct (trimStart s) as [|a u] eqn:E.
  - rewrite app_nil_r in Hs. now rewrite Hs.
  - exfalso. unfold trim, trimEnd in H. rewrite E in H. simpl in H.
    destruct (trimStart_snoc (rev u) a (trimStart_head _ _ _ E)) as [v Hv].
    rewrite Hv, rev_app_distr in H. discriminate.
Qed.

Lemma trim_last (s : str) (c : ascii) (r : str) :
  trim s = r ++ [c] -> isSpace c = false.
Proof.
  unfold trim, trimEnd. intros H.
  apply (f_equal (@rev ascii)) in H.
  rewrite rev_involutive, rev_app_distr in H. simpl in H.
  exact (trimStart_head _ _ _ H).
Qed.

Lemma isSpace_whiteSpace (c : ascii) : isSpace c = true <-> whiteSpace c.
Proof.
  unfold isSpace, inRange, whiteSpace.
  rewrite !orb_true_iff, andb_true_iff, !N.leb_le, !N.eqb_eq.
  simpl. lia.
Qed.

Lemma Forall_whiteSpace (l : str) :
  Forall whiteSpace l <-> Forall (fun c => isSpace c = true) l.
Proof.
  split; intros H; induction H; constructor; auto;
    now apply isSpace_whiteSpace.
Qed.

Lemma not_whiteSpace (c : ascii) : ~ whiteSpace c <-> isSpace c = false.
Proof.
  rewrite <- isSpace_whiteSpace. destruct (isSpace c); split; congruence.
Qed.

(** A text with no white space at either end is its own trimmed form. *)
Lemma trim_fixed (s : str) :
  (forall c r, s = c :: r -> isSpace c = false) ->
  (forall r c, s = r ++ [c] -> isSpace c = false) ->
  trim s = s.
Proof.
  intros Hhead Hlast. unfold trim. rewrite (trimStart_fix s Hhead).
  unfold trimEnd. rewrite trimStart_fix; [apply rev_involutive|].
  intros c r E. apply (Hlast (rev r) c).
  rewrite <- (rev_involutive s), E. reflexivity.
Qed.

(** [trim] returns the trimmed form, and nothing else is one. *)
Lemma trim_trimmedForm (s : str) : trimmedForm s (trim s).
Proof.
  destruct (trimStart_split_spaces s) as [lead [Hs Hl]].
  destruct (trimEnd_split_spaces (trimStart s)) as [trail [Ht Htr]].
  exists lead, trail. fold (trim s) in Ht.
  split; [now rewrite <- Ht|].
  split; [now apply Forall_whiteSpace|].
  split; [now apply Forall_whiteSpace|].
  split.
  - intros c r E. apply not_whiteSpace. exact (trim_head _ _ _ E).
  - intros r c E. apply not_whiteSpace. exact (trim_last _ _ _ E).
Qed.

Lemma trimmedForm_trim (s core : str) : trimmedForm s core -> core = trim s.
Proof.
  intros [lead [trail [-> [Hl [Ht [Hhead Hlast]]]]]].
  apply Forall_whiteSpace in Hl, Ht.
  rewrite (trim_spaces _ _ _ Hl Ht). symmetry. apply trim_fixed.
  - intros c r E. apply not_whiteSpace. exact (Hhead c r E).
  - intros r c E. apply not_whiteSpace. exact (Hlast r c E).
Qed.

(** ** Searching *)

Lemma str_eqb_eq (a b : str) : str_eqb a b = true <-> a = b.
Proof.
  unfold str_eqb. destruct (list_eq_dec ascii_dec a b); split; congruence.
Qed.

Lemma str_eqb_neq (a b : str) : str_eqb a b = false <-> a <> b.
Proof.
  unfold str_eqb. destruct (list_eq_dec ascii_dec a b); split; congruence.
Qed.

Lemma isPrefix_spec (p s : str) :
  isPrefix p s = true <-> exists post, s = p ++ post.
Proof.
  revert s. induction p as [|a p IH]; intros s; simpl.
  - split; [exists s; reflexivity|reflexivity].
  - destruct s as [|b s].
    + split; [discriminate|]. intros [post H]. discriminate.
    + rewrite andb_true_iff, Ascii.eqb_eq, IH. split.
      * intros [-> [post ->]]. now exists post.
      * intros [post [= -> ->]]. split; [reflexivity|now exists post].
Qed.

Lemma occursAt_0 (text sub : str) :
  occursAt text sub 0 <-> isPrefix sub text = true.
Proof.
  rewrite isPrefix_spec. split.
  - intros [pre [post [-> Hl]]]. destruct pre; [|discriminate]. now exists post.
  - intros [post ->]. now exists [], post.
Qed.

Lemma occursAt_S (c : ascii) (text sub : str) (i : nat) :
  occursAt (c :: text) sub (S i) <-> occursAt text sub i.
Proof.
  split.
  - intros [pre [post [H Hl]]]. destruct pre as [|a pre]; [discriminate|].
    injection H as -> ->. injection Hl as Hl. now exists pre, post.
  - intros [pre [post [-> Hl]]]. exists (c :: pre), post. simpl.
    split; [reflexivity|now rewrite Hl].
Qed.

Lemma occursAt_nil (sub : str) (i : nat) :
  occursAt [] sub i -> i = 0%nat.
Proof.
  intros [pre [post [H Hl]]]. symmetry in H.
  apply app_eq_nil in H. destruct H as [-> _]. now rewrite <- Hl.
Qed.

Lemma indexOfFrom_some (sub s : str) :
  forall pos i, indexOfFrom sub s pos = Some i ->
    exists k, i = (pos + k)%nat /\ firstOccurrence s sub k.
Proof.
  induction s as [|c r IH]; intros pos i; simpl.
  - destruct (isPrefix sub []) eqn:E; [|discriminate].
    intros [= <-]. exists 0%nat. split; [lia|]. split; [|lia].
    now apply occursAt_0.
  - destruct (isPrefix sub (c :: r)) eqn:E.
    + intros [= <-]. exists 0%nat. split; [lia|]. split; [|lia].
      now apply occursAt_0.
    + intros H. apply IH in H. destruct H as [k [-> [Hk Hmin]]].
      exists (S k). split; [lia|]. split; [now apply occursAt_S|].
      intros [|j] Hj.
      * rewrite occursAt_0. congruence.
      * rewrite occursAt_S. apply Hmin. lia.
Qed.

Lemma indexOfFrom_none (sub s : str) :
  forall pos, indexOfFrom sub s pos = None -> forall k, ~ occursAt s sub k.
Proof.
  induction s as [|c r IH]; intros pos; simpl.
  - destruct (isPrefix sub []) eqn:E; [discriminate|]. intros _ k Hk.
    pose proof (occursAt_nil _ _ Hk) as ->.
    apply occursAt_0 in Hk. congruence.
  - destruct (isPrefix sub (c :: r)) eqn:E; [discriminate|].
    intros H [|k].
    + rewrite occursAt_0. congruence.
    + rewrite occursAt_S. now apply (IH _ H).
Qed.

Lemma firstOccurrence_unique (text sub : str) (i j : nat) :
  firstOccurrence text sub i -> firstOccurrence text sub j -> i = j.
Proof.
  intros [Hi Hmi] [Hj Hmj].
  destruct (Nat.lt_trichotomy i j) as [H|[H|H]]; [|exact H|].
  - exfalso. exact (Hmj i H Hi).
  - exfalso. exact (Hmi j H Hj).
Qed.

(** [indexOf] returns the offset of the first occurrence, and -1 exactly
    when there is none. *)
Lemma indexOf_first (text sub : str) (i : nat) :
  firstOccurrence text sub i -> indexOf text sub = Z.of_nat i.
Proof.
  intros Hi. unfold indexOf.
  destruct (indexOfFrom sub text 0) as [k|] eqn:E.
  - apply indexOfFrom_some in E. destruct E as [k' [-> Hk]]. simpl.
    f_equal. exact (firstOccurrence_unique _ _ _ _ Hk Hi).
  - exfalso. destruct Hi as [Hi _].
    exact (indexOfFrom_none _ _ _ E i Hi).
Qed.

Lemma indexOf_absent (text sub : str) :
  (forall i, ~ occursAt text sub i) -> indexOf text sub = -1.
Proof.
  intros Hno. unfold indexOf.
  destruct (indexOfFrom sub text 0) as [k|] eqn:E; [|reflexivity].
  apply indexOfFrom_some in E. destruct E as [k' [_ [Hk _]]].
  exfalso. exact (Hno k' Hk).
Qed.

Lemma indexOf_range (text sub : str) :
  indexOf text sub = -1 \/
  exists i, indexOf text sub = Z.of_nat i /\ firstOccurrence text sub i.
Proof.
  unfold indexOf.
  destruct (indexOfFrom sub text 0) as [k|] eqn:E; [right|now left].
  apply indexOfFrom_some in E. destruct E as [k' [-> Hk]].
  now exists k'.
Qed.

(** ** Offset reconciliation *)

Lemma locate_Located (text : str) (sg : suggestion) (a b : Z) (o : str) :
  Located text sg a b o -> locate text sg = Some (a, b, o).
Proof.
  unfold locate. intros H.
  destruct H as [H|i Hne Hi|i compact Hne Hno Hform Hc Hi].
  - rewrite (proj2 (str_eqb_eq _ _) H). now rewrite H.
  - rewrite (proj2 (str_eqb_neq _ _) Hne).
    rewrite (indexOf_first _ _ _ Hi).
    destruct (Z.leb_spec 0 (Z.of_nat i)); [reflexivity|lia].
  - rewrite (proj2 (str_eqb_neq _ _) Hne).
    rewrite (indexOf_absent _ _ Hno). simpl.
    rewrite <- (trimmedForm_trim _ _ Hform).
    destruct compact as [|c r]; [congruence|]. simpl.
    rewrite (indexOf_first _ _ _ Hi).
    destruct (Z.ltb_spec (Z.of_nat i) 0); [lia|reflexivity].
Qed.

Lemma locate_Stale (text : str) (sg : suggestion) :
  Stale text sg -> locate text sg = None.
Proof.
  unfold locate. intros [Hne [Hno [compact [Hform Hc]]]].
  rewrite (proj2 (str_eqb_neq _ _) Hne).
  rewrite (indexOf_absent _ _ Hno). simpl.
  rewrite <- (trimmedForm_trim _ _ Hform).
  destruct Hc as [Hc|Hc].
  - now rewrite Hc.
  - destruct compact as [|c r]; [reflexivity|]. simpl.
    now rewrite (indexOf_absent _ _ Hc).
Qed.

(** The three attempts and their failure cover every case. *)
Lemma Located_or_Stale (text : str) (sg : suggestion) :
  Stale text sg \/ exists a b o, Located text sg a b o.
Proof.
  destruct (list_eq_dec ascii_dec (slice text (sg_start sg) (sg_end sg))
              (sg_original sg)) as [He|Hne].
  { right. eexists _, _, _. now apply at_recorded_span. }
  destruct (indexOfFrom (sg_original sg) text 0) as [k|] eqn:E.
  { apply indexOfFrom_some in E. destruct E as [k' [_ Hk]].
    right. eexists _, _, _. exact (at_first_occurrence _ _ _ Hne Hk). }
  pose proof (indexOfFrom_none _ _ _ E) as Hno.
  pose proof (trim_trimmedForm (sg_original sg)) as Hform.
  destruct (list_eq_dec ascii_dec (trim (sg_original sg)) []) as [Et|Et].
  { left. split; [exact Hne|]. split; [exact Hno|].
    exists (trim (sg_original sg)). split; [exact Hform|now left]. }
  destruct (indexOfFrom (trim (sg_original sg)) text 0) as [k|] eqn:E2.
  - apply indexOfFrom_some in E2. destruct E2 as [k' [_ Hk]].
    right. eexists _, _, _.
    exact (at_trimmed_occurrence _ _ _ _ Hne Hno Hform Et Hk).
  - pose proof (indexOfFrom_none _ _ _ E2) as Hno2.
    left. split; [exact Hne|]. split; [exact Hno|].
    exists (trim (sg_original sg)). split; [exact Hform|now right].
Qed.

Lemma applySuggestion_located (st : appState) (id : str) (sg : suggestion)
  (a b : Z) (o : str) :
  find (fun item => str_eqb (sg_id item) id) (st_suggestions st) = Some sg ->
  sg_status sg = pending ->
  locate (st_text st) sg = Some (a, b, o) ->
  applySuggestion st id =
  {| st_text := slice (st_text st) 0 a ++ sg_replacement sg
                ++ sliceFrom (st_text st) b;
     st_suggestions :=
       map (reconcile id a b (len (sg_replacement sg) - len o)
              (sg_replacement sg)) (st_suggestions st);
     st_error := st_error st |}.
Proof.
  intros Hfind Hst Hloc. unfold applySuggestion.
  now rewrite Hfind, Hst, Hloc.
Qed.

Lemma applySuggestion_stale (st : appState) (id : str) (sg : suggestion) :
  find (fun item => str_eqb (sg_id item) id) (st_suggestions st) = Some sg ->
  sg_status sg = pending ->
  locate (st_text st) sg = None ->
  applySuggestion st id =
  {| st_text := st_text st;
     st_suggestions := st_suggestions st;
     st_error := STALE |}.
Proof.
  intros Hfind Hst Hloc. unfold applySuggestion.
  now rewrite Hfind, Hst, Hloc.
Qed.

(** C2. When a pending suggestion is accepted and its replacement is [N]
    characters longer than the located original, every other suggestion
    that starts at or after the end of the located span has its start and
    its end moved by exactly [N], and every other suggestion whose span
    ends at or before that point (indeed every one that starts before it)
    keeps its coordinates. *)
Theorem accept_shifts_following_suggestions (st : appState) (id : str)
  (sg : suggestion) (a b : Z) (o : str) (N : Z) :
  find (fun item => str_eqb (sg_id item) id) (st_suggestions st) = Some sg ->
  sg_status sg = pending ->
  locate (st_text st) sg = Some (a, b, o) ->
  len (sg_replacement sg) = len o + N ->
  forall i item,
    nth_error (st_suggestions st) i = Some item ->
    sg_id item <> id ->
    exists item',
      nth_error (st_suggestions (applySuggestion st id)) i = Some item' /\
      (b <= sg_start item ->
       sg_start item' = sg_start item + N /\
       sg_end item' = sg_end item + N /\
       sg_status item' = sg_status item) /\
      (sg_start item < sg_end item -> sg_end item <= b ->
       sg_start item' = sg_start item /\ sg_end item' = sg_end item) /\
      (sg_start item < b -> item' = item).
Proof.
  intros Hfind Hst Hloc HN i item Hi Hid.
  rewrite (applySuggestion_located _ _ _ _ _ _ Hfind Hst Hloc). simpl.
  rewrite nth_error_map, Hi. simpl.
  eexists. split; [reflexivity|].
  unfold reconcile.
  rewrite (proj2 (str_eqb_neq _ _) Hid).
  replace (len (sg_replacement sg) - len o) with N by lia.
  destruct (Z.leb_spec b (sg_start item)) as [Hge|Hlt]; simpl.
  - repeat split; intros; try lia.
  - repeat split; intros; try lia.
Qed.

Lemma accept_shifts_following_suggestions_witness :
  exists item',
    nth_error (st_suggestions (applySuggestion demoState (lit "s-2"))) 2
    = Some item' /\
    (29 <= 43 -> sg_start item' = 43 + 5 /\ sg_end item' = 51 + 5 /\
                 sg_status item' = pending) /\
    (43 < 51 -> 51 <= 29 -> sg_start item' = 43 /\ sg_end item' = 51) /\
    (43 < 29 -> item' = demoSuggestion "s-3" 43 51 "Moreover" "On top of that").
Proof.
  apply (accept_shifts_following_suggestions demoState (lit "s-2")
           (demoSuggestion "s-2" 18 29 "in addition" "plus, as a bonus")
           18 29 (lit "in addition") 5
           eq_refl eq_refl eq_refl eq_refl 2%nat
           (demoSuggestion "s-3" 43 51 "Moreover" "On top of that") eq_refl).
  discriminate.
Defined.

(** The offset that [indexOf] returns is that of the first occurrence. *)
Lemma indexOf_firstOccurrence (text sub : str) (i : nat) :
  indexOf text sub = Z.of_nat i -> firstOccurrence text sub i.
Proof.
  intros H. destruct (indexOf_range text sub) as [Hno|[k [Hk Hfirst]]].
  - lia.
  - assert (k = i) by lia. now subst k.
Qed.

(** C3. Accepting a pending suggestion locates its recorded original at
    the recorded span, else at the first occurrence of the original in the
    document, else at the first occurrence of the original without the
    white space at its two ends, and splices the replacement there,
    raising no error; when all three fail the operation sets the message
    of the stale suggestion and leaves the text and every suggestion as
    they were. *)
Theorem accept_locates_or_reports_stale (st : appState) (id : str)
  (sg : suggestion) :
  find (fun item => str_eqb (sg_id item) id) (st_suggestions st) = Some sg ->
  sg_status sg = pending ->
  (forall a b o, Located (st_text st) sg a b o ->
     st_text (applySuggestion st id)
     = slice (st_text st) 0 a ++ sg_replacement sg
       ++ sliceFrom (st_text st) b /\
     st_error (applySuggestion st id) = st_error st) /\
  (Stale (st_text st) sg ->
     applySuggestion st id
     = {| st_text := st_text st;
          st_suggestions := st_suggestions st;
          st_error := "This suggestion no longer lines up with the current text. Run Analyze again." |}) /\
  (Stale (st_text st) sg \/ exists a b o, Located (st_text st) sg a b o).
Proof.
  intros Hfind Hst. split; [|split].
  - intros a b o HL. apply locate_Located in HL.
    now rewrite (applySuggestion_located _ _ _ _ _ _ Hfind Hst HL).
  - intros HS. apply locate_Stale in HS.
    exact (applySuggestion_stale _ _ _ Hfind Hst HS).
  - apply Located_or_Stale.
Qed.

(** The four outcomes, one after the other: the original at its recorded
    span; the original found elsewhere, the recorded span being out of
    date; the original found only without the white space around it (a
    no-break space and a space in front, a space after); the original
    found nowhere. *)
Lemma accept_locates_or_reports_stale_witness :
  st_text (applySuggestion demoState (lit "s-2"))
  = lit "Overall it works. plus, as a bonus, it is fast. Moreover it is small."
  /\
  st_text (applySuggestion editedState (lit "s-2"))
  = lit "Overall it works. plus, it is fast." /\
  (st_text (applySuggestion driftedState (lit "s-1"))
   = lit "It works.What is more, it is small." /\
   st_error (applySuggestion driftedState (lit "s-1")) = ""%string) /\
  applySuggestion editedState (lit "s-3")
  = {| st_text := lit "Overall it works. in addition, it is fast.";
       st_suggestions :=
         [ demoSuggestion "s-2" 30 41 "in addition" "plus";
           demoSuggestion "s-3" 43 51 "Moreover" "On top of that" ];
       st_error := "This suggestion no longer lines up with the current text. Run Analyze again." |}.
Proof.
  split; [|split; [|split]].
  - destruct (accept_locates_or_reports_stale demoState (lit "s-2")
                (demoSuggestion "s-2" 18 29 "in addition" "plus, as a bonus")
                eq_refl eq_refl) as [HL _].
    exact (proj1 (HL 18 29 (lit "in addition")
                    (at_recorded_span (st_text demoState)
                       (demoSuggestion "s-2" 18 29 "in addition"
                          "plus, as a bonus") eq_refl))).
  - destruct (accept_locates_or_reports_stale editedState (lit "s-2")
                (demoSuggestion "s-2" 30 41 "in addition" "plus")
                eq_refl eq_refl) as [HL _].
    refine (proj1 (HL 18 29 (lit "in addition")
                     (at_first_occurrence (st_text editedState)
                        (demoSuggestion "s-2" 30 41 "in addition" "plus")
                        18%nat _ _))).
    + vm_compute. discriminate.
    + apply indexOf_firstOccurrence. reflexivity.
  - destruct (accept_locates_or_reports_stale driftedState (lit "s-1")
                (nth 0 (st_suggestions driftedState)
                   (demoSuggestion "" 0 0 "" ""))
                eq_refl eq_refl) as [HL _].
    refine (HL 9 17 (lit "Moreover")
              (at_trimmed_occurrence (st_text driftedState) _ 9%nat
                 (lit "Moreover") _ _ _ _ _)).
    + vm_compute. discriminate.
    + apply (indexOfFrom_none _ _ 0%nat). reflexivity.
    + exists [nbsp; " "%char], [" "%char].
      split; [reflexivity|].
      split; [repeat constructor; vm_compute; tauto|].
      split; [repeat constructor; vm_compute; tauto|].
      split.
      * intros c r E. injection E as <- _. vm_compute.
        intros H. repeat (destruct H as [H|H]; [discriminate|]). exact H.
      * intros r c E.
        assert (Hc : c = "r"%char).
        { apply (f_equal (@rev ascii)) in E. rewrite rev_app_distr in E.
          simpl in E. now injection E as <- _. }
        subst c. vm_compute.
        intros H. repeat (destruct H as [H|H]; [discriminate|]). exact H.
    + discriminate.
    + apply indexOf_firstOccurrence. reflexivity.
  - destruct (accept_locates_or_reports_stale editedState (lit "s-3")
                (demoSuggestion "s-3" 43 51 "Moreover" "On top of that")
                eq_refl eq_refl) as [_ [HS _]].
    apply HS. split; [vm_compute; discriminate|].
    assert (Hno : forall j, ~ occursAt (st_text editedState) (lit "Moreover") j).
    { apply (indexOfFrom_none _ _ 0%nat). reflexivity. }
    split; [exact Hno|].
    exists (lit "Moreover"). split; [|right; exact Hno].
    exists [], []. split; [reflexivity|].
    split; [constructor|]. split; [constructor|].
    split.
    + intros c r E. injection E as <- _. vm_compute.
      intros H. repeat (destruct H as [H|H]; [discriminate|]). exact H.
    + intros r c E.
      assert (Hc : c = "r"%char).
      { apply (f_equal (@rev ascii)) in E. rewrite rev_app_distr in E.
        simpl in E. now injection E as <- _. }
      subst c. vm_compute.
      intros H. repeat (destruct H as [H|H]; [discriminate|]). exact H.
Defined.

(** ** Risk scorer *)

Lemma clamp_range (x : Q) : (0 <= clamp x /\ clamp x <= 100)%Q.
Proof.
  unfold clamp. split.
  - apply Q.le_max_l.
  - apply Q.max_lub; [discriminate|apply Q.le_min_l].
Qed.

Lemma round_range (q : Q) :
  (0 <= q)%Q -> (q <= 100)%Q -> 0 <= Qfloor (q + (1 # 2)) <= 100.
Proof.
  intros H0 H100. split.
  - change 0 with (Qfloor 0). apply Qfloor_resp_le.
    apply Qle_trans with (1 := H0).
    rewrite <- (Qplus_0_r q) at 1. apply Qplus_le_r. discriminate.
  - change 100 with (Qfloor (100 + (1 # 2))). apply Qfloor_resp_le.
    now apply Qplus_le_l.
Qed.

Lemma Qlt_bool_iff (x y : Q) : Qlt_bool x y = true <-> (x < y)%Q.
Proof.
  unfold Qlt_bool. rewrite negb_true_iff. split.
  - intros H. apply Qnot_le_lt. intros Hle.
    apply Qle_bool_iff in Hle. congruence.
  - intros H. destruct (Qle_bool y x) eqn:E; [|reflexivity].
    apply Qle_bool_iff in E. exfalso. exact (Qlt_not_le _ _ H E).
Qed.

Lemma Qlt_bool_false (x y : Q) : Qlt_bool x y = false <-> (y <= x)%Q.
Proof.
  unfold Qlt_bool. rewrite negb_false_iff. apply Qle_bool_iff.
Qed.

(** A clamped score, its rounding and its band. *)
Lemma scored_clamp (x : Q) :
  scored (clamp x) (round (Num (clamp x))) (getRiskColor (Num (clamp x))).
Proof.
  destruct (clamp_range x) as [H0 H100]. unfold scored. simpl.
  generalize dependent (clamp x). intros c H0 H100.
  split; [|split; [|split]].
  - eexists. split; [reflexivity|]. split; [reflexivity|].
    now apply round_range.
  - intros H. apply Qlt_bool_iff in H. now rewrite H.
  - intros H35 H65. apply Qlt_bool_false in H35. apply Qlt_bool_iff in H65.
    now rewrite H35, H65.
  - intros H65.
    assert (H35 : (35 <= c)%Q) by lra.
    apply Qlt_bool_false in H35, H65. now rewrite H35, H65.
Qed.

Section ScorerProperties.

Variable terms : str -> list str.
Variable fp : arithmetic.

Lemma splitSentences_nil : splitSentences terms [] = [].
Proof. reflexivity. Qed.

End ScorerProperties.

(** C4. A document with fewer than 20 words or fewer than 2 sentences gets
    every metric equal to 50, every band [moderate], and no suggestion. *)
Theorem below_floor_is_neutral (terms : str -> list str) (fp : arithmetic)
  (text styleSample : str) :
  (length (tokenizeWords terms (trim text)) < 20)%nat \/
  (length (splitSentences terms (trim text)) < 2)%nat ->
  let result := analyzeText terms fp text styleSample in
  metrics result = mkMetrics (Some 50) (Some 50) (Some 50) (Some 50) (Some 50)
  /\ riskBands_ result = mkBands moderate moderate moderate moderate moderate
  /\ suggestions result = [].
Proof.
  intros H. unfold analyzeText.
  assert (Hc : (isEmpty (trim text)
                || (length (tokenizeWords terms (trim text)) <? 20)%nat
                || (length (splitSentences terms (trim text)) <? 2)%nat)%bool
               = true).
  { destruct H as [H|H]; apply Nat.ltb_lt in H; rewrite H.
    - now rewrite orb_true_r.
    - now rewrite orb_true_r. }
  rewrite Hc. simpl. auto.
Qed.

Lemma below_floor_is_neutral_witness :
  let result :=
    analyzeText spaceTerms binary64
      (lit "It may work. It might fail.") [] in
  metrics result = mkMetrics (Some 50) (Some 50) (Some 50) (Some 50) (Some 50)
  /\ riskBands_ result = mkBands moderate moderate moderate moderate moderate
  /\ suggestions result = [].
Proof.
  apply (below_floor_is_neutral spaceTerms binary64
           (lit "It may work. It might fail.") []).
  left. vm_compute. lia.
Defined.

(** Above the floor, [analyzeText] returns the roundings and the bands of
    the five scores, and the suggestions of [buildSuggestions]. *)
Lemma analyzeText_above_floor (terms : str -> list str) (fp : arithmetic)
  (text styleSample : str) :
  (20 <= length (tokenizeWords terms (trim text)))%nat ->
  (2 <= length (splitSentences terms (trim text)))%nat ->
  let trimmed := trim text in
  let sentences := splitSentences terms trimmed in
  let words := tokenizeWords terms trimmed in
  let style := computeStyleProfile terms fp styleSample in
  let perplexity := perplexityRisk fp words in
  let burstiness := burstinessRisk fp sentences style in
  let pattern := sentencePatternRisk fp sentences in
  let vocabulary := vocabularyPredictabilityRisk fp trimmed words sentences in
  let overall := overallRiskOf fp perplexity burstiness pattern vocabulary in
  analyzeText terms fp text styleSample
  = {| metrics :=
         {| m_perplexity := round (Num perplexity);
            m_burstiness := round (Num burstiness);
            m_sentencePatternDiversity := round pattern;
            m_vocabularyPredictability := round (Num vocabulary);
            m_overallRisk := round overall |};
       riskBands_ :=
         {| b_perplexity := getRiskColor (Num perplexity);
            b_burstiness := getRiskColor (Num burstiness);
            b_sentencePatternDiversity := getRiskColor pattern;
            b_vocabularyPredictability := getRiskColor (Num vocabulary);
            b_overallRisk := getRiskColor overall |};
       insights_ := {| i_wordCount := length words;
                       i_sentenceCount := length sentences;
                       i_note := None |};
       suggestions :=
         buildSuggestions fp trimmed sentences
           (average fp (nonzeroLengths sentences))
           (stdDev fp (nonzeroLengths sentences))
           (hedgeDensityOf fp trimmed sentences) style;
       styleProfile_ := style |}.
Proof.
  intros Hw Hs. unfold analyzeText.
  assert (Hc : (isEmpty (trim text)
                || (length (tokenizeWords terms (trim text)) <? 20)%nat
                || (length (splitSentences terms (trim text)) <? 2)%nat)%bool
               = false).
  { apply orb_false_iff. split; [apply orb_false_iff; split|].
    - destruct (trim text); [|reflexivity].
      rewrite splitSentences_nil in Hs. simpl in Hs. lia.
    - apply Nat.ltb_ge. exact Hw.
    - apply Nat.ltb_ge. exact Hs. }
  rewrite Hc. reflexivity.
Qed.

Section ScoreRanges.

Variable fp : arithmetic.

(** Each score is the result of [clamp]. *)
Lemma perplexityRisk_clamped (words : list str) :
  exists x, perplexityRisk fp words = clamp x.
Proof. unfold perplexityRisk. eexists. reflexivity. Qed.

Lemma burstinessRisk_clamped (sentences : list sentence)
  (style : option styleProfile) :
  exists x, burstinessRisk fp sentences style = clamp x.
Proof.
  unfold burstinessRisk.
  destruct style as [p|]; [destruct (Qlt_bool 0 (sentenceVariance p))|];
    eexists; reflexivity.
Qed.

Lemma vocabularyPredictabilityRisk_clamped (trimmed : str)
  (words : list str) (sentences : list sentence) :
  exists x, vocabularyPredictabilityRisk fp trimmed words sentences = clamp x.
Proof. unfold vocabularyPredictabilityRisk. eexists. reflexivity. Qed.

(** The pattern score is a number exactly when some sentence has an
    opener. *)
Lemma sentencePatternRisk_clamped (sentences : list sentence) :
  (openersOf sentences <> [] ->
   exists x, sentencePatternRisk fp sentences = Num (clamp x)) /\
  (openersOf sentences = [] -> sentencePatternRisk fp sentences = NaN).
Proof.
  unfold sentencePatternRisk.
  destruct (openersOf sentences); split; intros H;
    try congruence; eexists; reflexivity.
Qed.

End ScoreRanges.

(** C5. Above the floor, each metric is the score that [analyzeText]
    computes for it, rounded, an integer of [0, 100], and its band is [low]
    when that score, before rounding, is below 35, [moderate] when it is
    below 65 and [high] otherwise, whatever the arithmetic.  For the
    pattern score and the overall score this holds when the tokenizer
    finds a word in at least one sentence; when it finds none in any, the
    two scores are [NaN], the two metrics are no numbers and the two bands
    are [high]. *)
Theorem metrics_bounded_and_banded (terms : str -> list str)
  (fp : arithmetic) (text styleSample : str) :
  (20 <= length (tokenizeWords terms (trim text)))%nat ->
  (2 <= length (splitSentences terms (trim text)))%nat ->
  let trimmed := trim text in
  let sentences := splitSentences terms trimmed in
  let words := tokenizeWords terms trimmed in
  let style := computeStyleProfile terms fp styleSample in
  let perplexity := perplexityRisk fp words in
  let burstiness := burstinessRisk fp sentences style in
  let vocabulary := vocabularyPredictabilityRisk fp trimmed words sentences in
  let result := analyzeText terms fp text styleSample in
  scored perplexity (m_perplexity (metrics result))
    (b_perplexity (riskBands_ result)) /\
  scored burstiness (m_burstiness (metrics result))
    (b_burstiness (riskBands_ result)) /\
  scored vocabulary (m_vocabularyPredictability (metrics result))
    (b_vocabularyPredictability (riskBands_ result)) /\
  (openersOf sentences <> [] ->
   exists pattern overall,
     sentencePatternRisk fp sentences = Num pattern /\
     overallRiskOf fp perplexity burstiness (Num pattern) vocabulary
     = Num overall /\
     scored pattern (m_sentencePatternDiversity (metrics result))
       (b_sentencePatternDiversity (riskBands_ result)) /\
     scored overall (m_overallRisk (metrics result))
       (b_overallRisk (riskBands_ result))) /\
  (openersOf sentences = [] ->
   m_sentencePatternDiversity (metrics result) = None /\
   m_overallRisk (metrics result) = None /\
   b_sentencePatternDiversity (riskBands_ result) = high /\
   b_overallRisk (riskBands_ result) = high).
Proof.
  intros Hw Hs trimmed sentences words style perplexity burstiness
    vocabulary result.
  unfold result.
  rewrite (analyzeText_above_floor terms fp text styleSample Hw Hs).
  cbv zeta.
  cbn [metrics riskBands_ m_perplexity m_burstiness m_sentencePatternDiversity
       m_vocabularyPredictability m_overallRisk b_perplexity b_burstiness
       b_sentencePatternDiversity b_vocabularyPredictability b_overallRisk].
  fold trimmed. fold sentences. fold words. fold style.
  fold perplexity. fold burstiness. fold vocabulary.
  destruct (perplexityRisk_clamped fp words) as [xp Hp].
  destruct (burstinessRisk_clamped fp sentences style) as [xb Hb].
  destruct (vocabularyPredictabilityRisk_clamped fp trimmed words sentences)
    as [xv Hv].
  fold perplexity in Hp. fold burstiness in Hb. fold vocabulary in Hv.
  destruct (sentencePatternRisk_clamped fp sentences) as [Hnum Hnan].
  split; [rewrite Hp; apply scored_clamp|].
  split; [rewrite Hb; apply scored_clamp|].
  split; [rewrite Hv; apply scored_clamp|].
  split.
  - intros Ho. destruct (Hnum Ho) as [xs Hpat]. rewrite Hpat.
    unfold overallRiskOf.
    do 2 eexists. split; [reflexivity|]. split; [reflexivity|].
    split; apply scored_clamp.
  - intros Ho. rewrite (Hnan Ho). repeat split.
Qed.


(** C5 at a draft of sixteen sentences whose pattern score is 34.6875:
    the metric is 35 and the band is [low], that of the score before
    rounding. *)
Lemma metrics_bounded_and_banded_witness :
  let text := sixteenOpeners in
  let trimmed := trim text in
  let sentences := splitSentences spaceTerms trimmed in
  let words := tokenizeWords spaceTerms trimmed in
  let style := computeStyleProfile spaceTerms binary64 [] in
  let perplexity := perplexityRisk binary64 words in
  let burstiness := burstinessRisk binary64 sentences style in
  let vocabulary :=
    vocabularyPredictabilityRisk binary64 trimmed words sentences in
  let result := analyzeText spaceTerms binary64 text [] in
  (sentencePatternRisk binary64 sentences = Num (555 # 16) /\
   metrics result
   = mkMetrics (Some 13) (Some 92) (Some 35) (Some 78) (Some 53) /\
   riskBands_ result = mkBands low high low high moderate) /\
  scored perplexity (m_perplexity (metrics result))
    (b_perplexity (riskBands_ result)) /\
  scored burstiness (m_burstiness (metrics result))
    (b_burstiness (riskBands_ result)) /\
  scored vocabulary (m_vocabularyPredictability (metrics result))
    (b_vocabularyPredictability (riskBands_ result)) /\
  (openersOf sentences <> [] ->
   exists pattern overall,
     sentencePatternRisk binary64 sentences = Num pattern /\
     overallRiskOf binary64 perplexity burstiness (Num pattern) vocabulary
     = Num overall /\
     scored pattern (m_sentencePatternDiversity (metrics result))
       (b_sentencePatternDiversity (riskBands_ result)) /\
     scored overall (m_overallRisk (metrics result))
       (b_overallRisk (riskBands_ result))) /\
  (openersOf sentences = [] ->
   m_sentencePatternDiversity (metrics result) = None /\
   m_overallRisk (metrics result) = None /\
   b_sentencePatternDiversity (riskBands_ result) = high /\
   b_overallRisk (riskBands_ result) = high).
Proof.
  intros text trimmed sentences words style perplexity burstiness vocabulary
    result.
  split; [vm_compute; repeat split|].
  apply (metrics_bounded_and_banded spaceTerms binary64 sixteenOpeners []).
  - vm_compute. lia.
  - vm_compute. lia.
Defined.

(** The arithmetic of the doubles shows in the metrics: at a draft of ten
    sentences with eight distinct openers, the most frequent one three
    times, the pattern score is 30.5 without rounding, which [Math.round]
    takes to 31, and just below 30.5 in doubles, which it takes to 30. *)
Example pattern_metric_of_doubles :
  m_sentencePatternDiversity
    (metrics (analyzeText spaceTerms exactArithmetic tenOpeners []))
  = Some 31 /\
  m_sentencePatternDiversity
    (metrics (analyzeText spaceTerms binary64 tenOpeners []))
  = Some 30.
Proof. vm_compute. split; reflexivity. Qed.

(** ** The loops over the matches of a regular expression *)

Lemma matchLiteralCI_prefix (pat s m rest : str) :
  matchLiteralCI pat s = Some (m, rest) -> s = m ++ rest.
Proof.
  revert s m rest. induction pat as [|p pat IH]; intros s m rest; simpl.
  - now intros [= <- <-].
  - destruct s as [|c s]; [discriminate|].
    destruct (Ascii.eqb _ _); [|discriminate].
    destruct (matchLiteralCI pat s) as [[m' rest']|] eqn:E; [|discriminate].
    intros [= <- <-]. simpl. f_equal. now apply IH.
Qed.

Lemma matchAlts_prefix (prev : option ascii) (alts : list str) (s m : str) :
  matchAlts prev alts s = Some m -> exists rest, s = m ++ rest.
Proof.
  induction alts as [|alt more IH]; simpl; [discriminate|].
  destruct (matchLiteralCI alt s) as [[m' rest]|] eqn:E; [|exact IH].
  destruct (wordBoundary _ _); [|exact IH].
  intros [= <-]. exists rest. exact (matchLiteralCI_prefix _ _ _ _ E).
Qed.

Lemma execWordFrom_found (alts : list str) (s : str) :
  forall prev pos i m,
    execWordFrom alts prev s pos = Some (i, m) ->
    exists pre rest, s = pre ++ m ++ rest /\ i = (pos + length pre)%nat.
Proof.
  induction s as [|c r IH]; intros prev pos i m; simpl.
  - destruct (matchWordHere prev alts []) as [m0|] eqn:E; [|discriminate].
    intros [= <- <-]. unfold matchWordHere in E.
    destruct (wordBoundary _ _); [|discriminate].
    apply matchAlts_prefix in E. destruct E as [rest Hr].
    exists [], rest. split; [exact Hr|simpl; lia].
  - destruct (matchWordHere prev alts (c :: r)) as [m0|] eqn:E.
    + intros [= <- <-]. unfold matchWordHere in E.
      destruct (wordBoundary _ _); [|discriminate].
      apply matchAlts_prefix in E. destruct E as [rest Hr].
      exists [], rest. split; [exact Hr|simpl; lia].
    + intros H. apply IH in H. destruct H as [pre [rest [Hr Hi]]].
      exists (c :: pre), rest. simpl. split; [now rewrite Hr|lia].
Qed.

(** A non-empty match of [exec] is the piece of the text at its index. *)
Lemma execWord_found (alts : list str) (text : str) (lastIndex i : nat)
  (m : str) :
  execWord alts text lastIndex = Some (i, m) -> m <> [] ->
  exists pre rest, text = pre ++ m ++ rest /\ length pre = i.
Proof.
  unfold execWord. intros H Hne.
  apply execWordFrom_found in H. destruct H as [pre [rest [Hs Hi]]].
  destruct (Nat.le_gt_cases lastIndex (length text)) as [Hle|Hgt].
  - exists (firstn lastIndex text ++ pre), rest. split.
    + rewrite <- app_assoc, <- Hs. now rewrite firstn_skipn.
    + rewrite length_app, length_firstn. lia.
  - rewrite skipn_all2 in Hs by lia.
    symmetry in Hs. apply app_eq_nil in Hs. destruct Hs as [_ Hs].
    apply app_eq_nil in Hs. destruct Hs as [Hm _]. contradiction.
Qed.

Lemma matchLiteralCI_length (pat s m rest : str) :
  matchLiteralCI pat s = Some (m, rest) -> length m = length pat.
Proof.
  revert s m rest. induction pat as [|p pat IH]; intros s m rest; simpl.
  - now intros [= <- _].
  - destruct s as [|c s]; [discriminate|].
    destruct (Ascii.eqb _ _); [|discriminate].
    destruct (matchLiteralCI pat s) as [[m' rest']|] eqn:E; [|discriminate].
    intros [= <- _]. simpl. f_equal. exact (IH _ _ _ E).
Qed.

Lemma matchAlts_nonempty (prev : option ascii) (alts : list str) (s m : str) :
  Forall (fun alt => alt <> []) alts ->
  matchAlts prev alts s = Some m -> m <> [].
Proof.
  induction alts as [|alt more IH]; intros Hall; simpl; [discriminate|].
  inversion Hall as [|? ? Halt Hmore]; subst.
  destruct (matchLiteralCI alt s) as [[m' rest]|] eqn:E; [|now apply IH].
  destruct (wordBoundary _ _); [|now apply IH].
  intros [= <-]. apply matchLiteralCI_length in E.
  destruct m'; [|discriminate]. destruct alt; [congruence|discriminate].
Qed.

Lemma execWordFrom_nonempty (alts : list str) (s : str) :
  Forall (fun alt => alt <> []) alts ->
  forall prev pos i m,
    execWordFrom alts prev s pos = Some (i, m) -> m <> [].
Proof.
  intros Hall. induction s as [|c r IH]; intros prev pos i m; simpl.
  - destruct (matchWordHere prev alts []) as [m0|] eqn:E; [|discriminate].
    intros [= _ <-]. unfold matchWordHere in E.
    destruct (wordBoundary _ _); [|discriminate].
    exact (matchAlts_nonempty _ _ _ _ Hall E).
  - destruct (matchWordHere prev alts (c :: r)) as [m0|] eqn:E.
    + intros [= _ <-]. unfold matchWordHere in E.
      destruct (wordBoundary _ _); [|discriminate].
      exact (matchAlts_nonempty _ _ _ _ Hall E).
    + apply IH.
Qed.

(** One [exec] of a pattern without empty alternative: a non-empty piece
    of the text at or after [lastIndex]. *)
Lemma execWord_bounds (alts : list str) (text : str) (lastIndex i : nat)
  (m : str) :
  Forall (fun alt => alt <> []) alts ->
  execWord alts text lastIndex = Some (i, m) ->
  (0 < length m)%nat /\ (lastIndex <= i)%nat /\
  exists pre rest, text = pre ++ m ++ rest /\ length pre = i.
Proof.
  intros Hall H.
  assert (Hne : m <> []) by exact (execWordFrom_nonempty _ _ Hall _ _ _ _ H).
  split; [destruct m; [congruence|simpl; lia]|].
  split; [|exact (execWord_found _ _ _ _ _ H Hne)].
  apply execWordFrom_found in H. destruct H as [pre [rest [_ Hi]]]. lia.
Qed.

(** With one round of fuel per character left, [matchAllFrom] has found
    every match: more fuel changes nothing. *)
Lemma matchAllFrom_enough (alts : list str) (text : str) (fuel : nat) :
  Forall (fun alt => alt <> []) alts ->
  forall lastIndex fuel',
    (length text - lastIndex < fuel)%nat -> (fuel <= fuel')%nat ->
    matchAllFrom fuel' alts text lastIndex
    = matchAllFrom fuel alts text lastIndex.
Proof.
  intros Hall. induction fuel as [|f IH]; intros lastIndex fuel' Hlt Hle;
    [lia|].
  destruct fuel' as [|f']; [lia|]. simpl.
  destruct (execWord alts text lastIndex) as [[i m]|] eqn:E; [|reflexivity].
  destruct (execWord_bounds _ _ _ _ _ Hall E) as [Hm [Hi [pre [rest [Ht Hp]]]]].
  assert (length text = i + length m + length rest)%nat
    by (rewrite Ht, !length_app; lia).
  f_equal. apply IH; lia.
Qed.

Lemma phraseLoop_enough (phrase replacement text : str) (fuel : nat) :
  phrase <> [] ->
  forall lastIndex acc fuel',
    (length text - lastIndex < fuel)%nat -> (fuel <= fuel')%nat ->
    phraseLoop fuel' phrase replacement text lastIndex acc
    = phraseLoop fuel phrase replacement text lastIndex acc.
Proof.
  intros Hne.
  assert (Hall : Forall (fun alt : str => alt <> []) [phrase])
    by (constructor; [exact Hne|constructor]).
  induction fuel as [|f IH]; intros lastIndex acc fuel' Hlt Hle; [lia|].
  destruct fuel' as [|f']; [lia|]. cbn [phraseLoop].
  destruct (execWord [phrase] text lastIndex) as [[i m]|] eqn:E;
    [|reflexivity].
  destruct (execWord_bounds _ _ _ _ _ Hall E) as [Hm [Hi [pre [rest [Ht Hp]]]]].
  assert (length text = i + length m + length rest)%nat
    by (rewrite Ht, !length_app; lia).
  match goal with |- context [Nat.leb ?a ?b] => destruct (Nat.leb a b) end;
    [reflexivity|].
  apply IH; lia.
Qed.

(** A replacer that returns every match unchanged rebuilds the text. *)
Lemma replaceMatches_keep (alts : list str) (text : str)
  (cb : str -> jsval -> str) (fuel : nat) :
  Forall (fun alt => alt <> []) alts ->
  (forall m, cb m (VStr m) = m) ->
  forall pos,
    replaceMatches text pos (matchAllFrom fuel alts text pos) cb
    = skipn pos text.
Proof.
  intros Hall Hcb. induction fuel as [|f IH]; intros pos; simpl;
    [reflexivity|].
  destruct (execWord alts text pos) as [[i m]|] eqn:E; [|reflexivity].
  destruct (execWord_bounds _ _ _ _ _ Hall E) as [Hm [Hi [pre [rest [Ht Hp]]]]].
  simpl. rewrite IH, Hcb.
  assert (Hskip : skipn pos text = skipn pos pre ++ m ++ rest).
  { rewrite Ht at 1. rewrite skipn_app.
    replace (pos - length pre)%nat with 0%nat by lia. reflexivity. }
  assert (Hrest : skipn (i + length m) text = rest).
  { rewrite Ht at 1. rewrite app_assoc, skipn_app.
    rewrite skipn_all2 by (rewrite length_app; lia).
    rewrite length_app, Hp, Nat.sub_diag. reflexivity. }
  rewrite Hskip, Hrest. f_equal.
  rewrite firstn_app.
  rewrite firstn_all2 by (rewrite length_skipn; lia).
  rewrite length_skipn.
  replace (i - pos - (length pre - pos))%nat with 0%nat by lia.
  simpl. apply app_nil_r.
Qed.

Lemma HEDGE_REGEX_nonempty : Forall (fun alt : str => alt <> []) HEDGE_REGEX.
Proof. repeat constructor; discriminate. Qed.

Lemma collapseSpaces_enough (fuel : nat) :
  forall (s : str) fuel',
    (length s <= fuel)%nat -> (fuel <= fuel')%nat ->
    collapseSpaces fuel' s = collapseSpaces fuel s.
Proof.
  induction fuel as [|f IH]; intros s fuel' Hlen Hle.
  - destruct s; [|simpl in Hlen; lia]. now destruct fuel'.
  - destruct fuel' as [|f']; [lia|]. cbn [collapseSpaces].
    destruct s as [|c r]; [reflexivity|]. cbv zeta.
    destruct (Nat.leb_spec 2 (takeSpaces (c :: r))) as [E|E].
    + f_equal. apply IH; [|lia].
      rewrite length_skipn. simpl in Hlen. simpl length. lia.
    + f_equal. apply IH; simpl in *; lia.
Qed.

(** The replacer of the hedge detector returns the hedge word whatever the
    captured text is: a string is never strictly equal to a number. *)
Lemma hedgeReplacer_keeps (t hedge p1 : str) :
  hedgeReplacer t hedge (VStr p1) = hedge.
Proof. reflexivity. Qed.

(** The hedge detector never removes a hedge word: its replacement is the
    sentence text with its runs of white space collapsed. *)
Lemma hedgeReplacement_keeps_hedges (t : str) :
  hedgeReplacement t = trim (collapse t).
Proof.
  unfold hedgeReplacement, replaceAll, matchAll.
  rewrite (replaceMatches_keep HEDGE_REGEX t (hedgeReplacer t)
             (S (length t)) HEDGE_REGEX_nonempty
             (fun m => hedgeReplacer_keeps t m m) 0%nat).
  reflexivity.
Qed.

(** ** Suggestion engine on given documents *)

(** C6, as the design states it: on this document the detector would
    propose the capitalized form of "note that".  It does not. *)
Lemma important_to_note_not_note_that :
  ~ exists sg,
      In sg (swapPredictablePhrasing
               (lit "It is important to note that this works.") []) /\
      sg_start sg = 0 /\
      sg_original sg = lit "It is important to note that" /\
      sg_replacement sg = capitalizeFirst (lit "note that").
Proof.
  intros [sg [Hin [_ [_ Hr]]]]. vm_compute in Hin.
  destruct Hin as [<-|[]]. vm_compute in Hr. discriminate.
Qed.

(** C6, amended. On the document "It is important to note that this
    works." the swap-predictable-phrasing detector yields one suggestion,
    on the span from 0 to 28, whose original is "It is important to note
    that" and whose replacement is the capitalized form of the catalog
    entry of that phrase, "worth noting:". *)
Theorem important_to_note_swapped :
  exists sg,
    swapPredictablePhrasing (lit "It is important to note that this works.") []
    = [sg] /\
    sg_type sg = swap_predictable_phrasing /\
    sg_start sg = 0 /\ sg_end sg = 28 /\
    sg_original sg = lit "It is important to note that" /\
    sg_replacement sg = capitalizeFirst (lit "worth noting:") /\
    sg_replacement sg = lit "Worth noting:".
Proof.
  eexists. split; [vm_compute; reflexivity|].
  repeat split.
Qed.

Lemma pushSuggestion_length (acc : list suggestion) (c : candidate) :
  (length acc <= length (pushSuggestion acc c))%nat.
Proof.
  unfold pushSuggestion. destruct (_ || _)%bool; [lia|].
  rewrite length_app. simpl. lia.
Qed.

Lemma phraseLoop_grows (phrase replacement text : str) (fuel : nat) :
  forall lastIndex acc,
    (length acc
     <= length (phraseLoop fuel phrase replacement text lastIndex acc))%nat.
Proof.
  induction fuel as [|f IH]; intros lastIndex acc; cbn [phraseLoop]; [lia|].
  destruct (execWord [phrase] text lastIndex) as [[index original]|]; [|lia].
  match goal with |- context [pushSuggestion acc ?c] =>
    pose proof (pushSuggestion_length acc c) as Hpush;
    specialize (IH (index + length original)%nat (pushSuggestion acc c))
  end.
  match goal with |- context [Nat.leb ?a ?b] => destruct (Nat.leb a b) end;
    lia.
Qed.

(** The guard on 40 candidates is read after a candidate has been pushed:
    the loop of a phrase that occurs in the text appends its first match
    to any list, however long. *)
Lemma phraseLoop_appends_first_match (phrase replacement text : str)
  (fuel : nat) (acc : list suggestion) :
  phrase <> [] ->
  execWord [phrase] text 0 <> None ->
  (length acc
   < length (phraseLoop (S fuel) phrase replacement text 0 acc))%nat.
Proof.
  intros Hne Hexec. cbn [phraseLoop].
  destruct (execWord [phrase] text 0) as [[index original]|] eqn:E;
    [|congruence].
  assert (Hall : Forall (fun alt : str => alt <> []) [phrase])
    by (constructor; [exact Hne|constructor]).
  destruct (execWord_bounds _ _ _ _ _ Hall E) as [Hm _].
  match goal with |- context [pushSuggestion acc ?c] =>
    assert (Hpush : length (pushSuggestion acc c) = S (length acc));
    [|pose proof (phraseLoop_grows phrase replacement text fuel
                    (index + length original)%nat (pushSuggestion acc c))]
  end.
  { unfold pushSuggestion, phraseCandidate, len. simpl.
    destruct (Z.ltb_spec (Z.of_nat index) 0); [lia|].
    destruct (Z.leb_spec (Z.of_nat index + Z.of_nat (length original))
                (Z.of_nat index)); [lia|].
    simpl. rewrite length_app. simpl. lia. }
  match goal with |- context [Nat.leb ?a ?b] => destruct (Nat.leb a b) end;
    lia.
Qed.

(** C8 at a document of forty-one sentences, forty "In conclusion." and
    one "Furthermore.": no candidate precedes those of the detector, the
    first catalog phrase brings the list to 40 candidates, and the seventh
    still appends its match ([phraseLoop_appends_first_match] has the
    general statement). *)
Theorem forty_candidates_do_not_stop_the_detector :
  let sentences := splitSentences spaceTerms fortyConclusions in
  length sentences = 41%nat /\
  length (tokenizeWords spaceTerms fortyConclusions) = 81%nat /\
  varySentenceLength binary64 sentences [] = [] /\
  length (phraseLoop (S (length fortyConclusions)) (lit "in conclusion")
            (lit "to wrap up") fortyConclusions 0 []) = 40%nat /\
  length (swapPredictablePhrasing fortyConclusions []) = 41%nat /\
  map sg_original (skipn 40 (swapPredictablePhrasing fortyConclusions []))
  = [lit "Furthermore"].
Proof.
  vm_compute. repeat split.
Qed.

(** Below a hedge density of 0.5 the detector adds nothing. *)
Lemma reduceHedging_gate (hedgeDensity : Q) (sentences : list sentence)
  (acc : list suggestion) :
  (hedgeDensity < 5 # 10)%Q -> reduceHedging hedgeDensity sentences acc = acc.
Proof.
  intros H. unfold reduceHedging.
  destruct (Qle_bool (5 # 10) hedgeDensity) eqn:E; [|reflexivity].
  apply Qle_bool_iff in E. exfalso. exact (Qlt_not_le _ _ H E).
Qed.

(** C7 at a document of two sentences with one hedge word each (hedge
    density 1): the detector proposes nothing, each sentence being left as
    it is, where the design removes "may" and "might".  On every sentence
    text the replacement is the text with its white space collapsed. *)
Theorem hedges_are_never_removed :
  let sentences := splitSentences spaceTerms hedgedDocument in
  (forall t, hedgeReplacement t = trim (collapse t)) /\
  hedgeDensityOf binary64 hedgedDocument sentences == 1 /\
  reduceHedging 1 sentences [] = [] /\
  map (fun s => hedgeReplacement (s_text s)) sentences
  = map s_text sentences /\
  map (fun s => removeFirstHedge (s_text s)) sentences
  = [ lit "The plan work well for the whole team this year.";
      lit "Our plan fail badly for the whole team next year." ] /\
  suggestions (analyzeText spaceTerms binary64 hedgedDocument []) = [].
Proof.
  split; [exact hedgeReplacement_keeps_hedges|].
  vm_compute. repeat split.
Qed.

(** ** Where the suggestions of the list come from *)

Lemma In_firstn {A} (n : nat) (l : list A) (x : A) :
  In x (firstn n l) -> In x l.
Proof.
  intros H. rewrite <- (firstn_skipn n l). apply in_or_app. now left.
Qed.

Lemma In_skipn {A} (n : nat) (l : list A) (x : A) :
  In x (skipn n l) -> In x l.
Proof.
  intros H. rewrite <- (firstn_skipn n l). apply in_or_app. now right.
Qed.

Section Provenance.

Variable text : str.
Variable sentences : list sentence.

Let Sound (l : list suggestion) : Prop := Forall (Pushed text sentences) l.

Lemma pushSuggestion_sound (acc : list suggestion) (c : candidate) :
  Sound acc -> Proposed text sentences c -> Sound (pushSuggestion acc c).
Proof.
  intros Hacc Hc. unfold pushSuggestion.
  destruct (Z.ltb_spec (c_start c) 0) as [H0|H0]; simpl; [exact Hacc|].
  destruct (Z.leb_spec (c_end c) (c_start c)) as [H1|H1]; [exact Hacc|].
  apply Forall_app. split; [exact Hacc|].
  constructor; [|constructor].
  exists c, (length acc + 1)%nat. repeat split; try assumption; lia.
Qed.

Lemma varySentenceLength_sound (fp : arithmetic) (l : list sentence) :
  (forall s, In s l -> In s sentences) ->
  forall acc, Sound acc -> Sound (varySentenceLength fp l acc).
Proof.
  induction l as [|first rest IH]; intros Hsub acc Hacc; simpl; [exact Hacc|].
  destruct rest as [|target [|third more]]; try exact Hacc.
  apply IH; [intros s Hs; apply Hsub; now right|].
  destruct (Qle_bool _ _); [|exact Hacc].
  destruct (_ && _)%bool; [|exact Hacc].
  destruct (commaSplit (s_text target)) as [left right].
  destruct (_ && _)%bool; [|exact Hacc].
  apply pushSuggestion_sound; [exact Hacc|].
  apply proposed_vary. apply Hsub. right. now left.
Qed.

Lemma phraseLoop_sound (entry : str * str) (fuel : nat) :
  In entry PREDICTABLE_PHRASES ->
  forall lastIndex acc, Sound acc ->
    Sound (phraseLoop fuel (fst entry) (snd entry) text lastIndex acc).
Proof.
  intros Hentry.
  induction fuel as [|f IH]; intros lastIndex acc Hacc; cbn [phraseLoop];
    [exact Hacc|].
  destruct (execWord [fst entry] text lastIndex) as [[index original]|] eqn:E;
    [|exact Hacc].
  assert (Hpush : Sound (pushSuggestion acc
            (phraseCandidate index original
               (if startsUpper original then capitalizeFirst (snd entry)
                else snd entry)))).
  { apply pushSuggestion_sound; [exact Hacc|].
    apply (proposed_phrase _ _ entry lastIndex); [exact Hentry|exact E|].
    destruct (startsUpper original); [now right|now left]. }
  match goal with |- context [Nat.leb ?a ?b] => destruct (Nat.leb a b) end;
    [exact Hpush|]. now apply IH.
Qed.

Lemma fold_left_sound {A} (f : list suggestion -> A -> list suggestion)
  (l : list A) (dom : A -> Prop) :
  (forall x, In x l -> dom x) ->
  (forall acc x, dom x -> Sound acc -> Sound (f acc x)) ->
  forall acc, Sound acc -> Sound (fold_left f l acc).
Proof.
  intros Hdom Hf. induction l as [|x l IH]; intros acc Hacc; simpl;
    [exact Hacc|].
  apply IH; [intros y Hy; apply Hdom; now right|].
  apply Hf; [apply Hdom; now left|exact Hacc].
Qed.

Lemma swapPredictablePhrasing_sound (acc : list suggestion) :
  Sound acc -> Sound (swapPredictablePhrasing text acc).
Proof.
  unfold swapPredictablePhrasing.
  apply (fold_left_sound _ _ (fun e => In e PREDICTABLE_PHRASES));
    [auto|].
  intros a e He Ha. now apply phraseLoop_sound.
Qed.

Lemma addStylisticTexture_sound (style : option styleProfile)
  (acc : list suggestion) :
  Sound acc -> Sound (addStylisticTexture text sentences style acc).
Proof.
  intros Hacc. unfold addStylisticTexture.
  destruct (_ || _)%bool; [|exact Hacc].
  destruct (find _ sentences) as [target|] eqn:E; [|exact Hacc].
  apply find_some in E. destruct E as [Hin _].
  apply pushSuggestion_sound; [exact Hacc|]. now apply proposed_texture.
Qed.

Lemma diversifyOpeners_sound (acc : list suggestion) :
  Sound acc -> Sound (diversifyOpeners sentences acc).
Proof.
  unfold diversifyOpeners.
  apply (fold_left_sound _ _ (fun _ => True)); [auto|].
  intros a word _ Ha.
  apply (fold_left_sound _ _ (fun s => In s sentences)); [|auto|exact Ha].
  - intros s Hs. apply In_firstn, In_skipn in Hs.
    apply filter_In in Hs. tauto.
  - intros a' s Hs Ha'. apply pushSuggestion_sound; [exact Ha'|].
    now apply proposed_opener.
Qed.

Lemma reduceHedging_sound (hedgeDensity : Q) (acc : list suggestion) :
  Sound acc -> Sound (reduceHedging hedgeDensity sentences acc).
Proof.
  unfold reduceHedging. intros Hacc.
  destruct (Qle_bool _ _); [|exact Hacc].
  apply (fold_left_sound _ _ (fun s => In s sentences)); [auto| |exact Hacc].
  intros a s Hs Ha.
  destruct (matchAll HEDGE_REGEX (s_text s)); [exact Ha|].
  destruct (isEmpty (hedgeReplacement (s_text s))) eqn:E; simpl; [exact Ha|].
  destruct (negb _); [|exact Ha].
  apply pushSuggestion_sound; [exact Ha|].
  apply proposed_hedge; [exact Hs|].
  intros Hnil. rewrite Hnil in E. discriminate.
Qed.

Lemma matchRhythm_sound (fp : arithmetic) (mean std : Q)
  (style : option styleProfile) (acc : list suggestion) :
  Sound acc -> Sound (matchRhythm fp sentences mean std style acc).
Proof.
  intros Hacc. unfold matchRhythm.
  destruct style as [p|]; [|exact Hacc].
  destruct (Qlt_bool _ _); [|exact Hacc].
  destruct (find _ sentences) as [s|] eqn:E; [|exact Hacc].
  apply find_some in E. destruct E as [Hin _].
  destruct (includes _ _); [|exact Hacc].
  apply pushSuggestion_sound; [exact Hacc|]. now apply proposed_rhythm.
Qed.

(** Every suggestion of [buildSuggestions] is a candidate of one of the
    detectors. *)
Lemma buildSuggestions_sound (fp : arithmetic) (mean std hedgeDensity : Q)
  (style : option styleProfile) :
  Sound (buildSuggestions fp text sentences mean std hedgeDensity style).
Proof.
  unfold buildSuggestions, candidates.
  assert (H : forall l : list suggestion, Sound l -> Sound (firstn 20 l)).
  { intros l Hl. unfold Sound in *. rewrite Forall_forall in *.
    intros x Hx. apply Hl. exact (In_firstn _ _ _ Hx). }
  apply H.
  apply matchRhythm_sound, reduceHedging_sound, diversifyOpeners_sound,
    addStylisticTexture_sound, swapPredictablePhrasing_sound,
    varySentenceLength_sound; [auto|constructor].
Qed.

End Provenance.

(** ** Replacements begin with no white space *)











(** ** Sentence-level suggestions *)








(** On the draft of two lines the suggestion is on the second line: its
    span begins right after the line break, and the line break stays in
    front of the replacement. *)
Example accept_after_line_break :
  let sgs := suggestions (analyzeText spaceTerms binary64 twoLineDraft []) in
  map (fun sg => (sg_type sg, sg_start sg, sg_end sg)) sgs
  = [(add_stylistic_texture, 18, 114)] /\
  st_text (applySuggestion (mkState twoLineDraft sgs "") (lit "s-1"))
  = lit "We met on Monday." ++ [ascii_of_nat 10]
    ++ lit "The committee agreed to postpone the (for context), vote until every report had been read twice by all members.".
Proof. vm_compute. split; reflexivity. Qed.

(** Accepting that suggestion on the sample draft: the space after
    "ways." is gone. *)
Example accept_joins_sentences :
  let sgs := buildSuggestions binary64 SAMPLE_TEXT
               (splitSentences spaceTerms SAMPLE_TEXT) 0 0 0 None in
  slice
    (st_text (applySuggestion (mkState SAMPLE_TEXT sgs "") (lit "s-4")))
    0 109
  = lit "The results show that the project met its objectives in multiple ways.From another angle, the report explains".
Proof. vm_compute. reflexivity. Qed.

(** ** Offsets of the suggestions *)

(** Every suggestion of [buildSuggestions] carries the offsets of its
    original in the text that was passed to [buildSuggestions]. *)
Lemma buildSuggestions_offsets (fp : arithmetic) (text : str)
  (sentences : list sentence) (mean std hedgeDensity : Q)
  (style : option styleProfile) (sg : suggestion) :
  Forall (sentenceIn text) sentences ->
  In sg (buildSuggestions fp text sentences mean std hedgeDensity style) ->
  slice text (sg_start sg) (sg_end sg) = sg_original sg.
Proof.
  intros Hall Hin. rewrite Forall_forall in Hall.
  pose proof (buildSuggestions_sound text sentences fp mean std
                hedgeDensity style) as Hsound.
  rewrite Forall_forall in Hsound. specialize (Hsound sg Hin).
  destruct Hsound as [c [n [Hc [-> Hspan]]]].
  destruct Hc as [s Hs|entry li index original next _ Hexec _|s Hs|word s Hs
                 |s Hs Hne|s Hs];
    try (destruct (Hall s Hs) as [[_ [_ Hraw]] _]; simpl; now symmetry).
  simpl in *. unfold len in Hspan.
  assert (Hne : original <> []) by (destruct original; [simpl in Hspan; lia|easy]).
  destruct (execWord_found _ _ _ _ _ Hexec Hne) as [pre [rest [-> <-]]].
  apply slice_middle.
Qed.

(** The offsets of every suggestion of an analysis index the trimmed
    text. *)
Lemma analysis_offsets_index_trimmed_text (terms : str -> list str)
  (fp : arithmetic) (text styleSample : str) (sg : suggestion) :
  In sg (suggestions (analyzeText terms fp text styleSample)) ->
  slice (trim text) (sg_start sg) (sg_end sg) = sg_original sg.
Proof.
  unfold analyzeText.
  destruct (_ || _)%bool; simpl; [contradiction|].
  apply buildSuggestions_offsets. apply splitSentences_sentences.
Qed.

(** The text around its trimmed form. *)
Lemma trimStart_split (s : str) :
  exists lead, s = lead ++ trimStart s.
Proof.
  induction s as [|c r [lead IH]]; simpl; [now exists []|].
  destruct (isSpace c); [|now exists []].
  exists (c :: lead). simpl. now rewrite <- IH.
Qed.

Lemma trim_split (s : str) :
  exists lead trail, s = lead ++ trim s ++ trail.
Proof.
  destruct (trimStart_split s) as [lead Hl].
  destruct (trimStart_split (rev (trimStart s))) as [tr Ht].
  exists lead, (rev tr). unfold trim, trimEnd.
  rewrite <- rev_app_distr, <- Ht, rev_involutive. exact Hl.
Qed.

Lemma slice_shift (lead t trail : str) (a b : Z) :
  0 <= a <= b -> b <= len t ->
  slice (lead ++ t ++ trail) (a + len lead) (b + len lead) = slice t a b.
Proof.
  intros Ha Hb. pose proof (len_nonneg lead). pose proof (len_nonneg trail).
  rewrite !slice_inside; try lia; [|rewrite !len_app; lia].
  replace (b + len lead - (a + len lead)) with (b - a) by lia.
  replace (Z.to_nat (a + len lead)) with (length lead + Z.to_nat a)%nat
    by (unfold len; lia).
  rewrite skipn_app, skipn_all2 by lia.
  replace (length lead + Z.to_nat a - length lead)%nat with (Z.to_nat a)
    by lia.
  simpl. rewrite skipn_app, firstn_app.
  unfold len in Hb.
  replace (Z.to_nat a - length t)%nat with 0%nat by lia. simpl.
  replace (Z.to_nat (b - a) - length (skipn (Z.to_nat a) t))%nat with 0%nat
    by (rewrite length_skipn; lia).
  simpl. apply app_nil_r.
Qed.

(** Every suggestion of [buildSuggestions] lies inside the text. *)
Lemma buildSuggestions_bounds (fp : arithmetic) (text : str)
  (sentences : list sentence) (mean std hedgeDensity : Q)
  (style : option styleProfile) (sg : suggestion) :
  Forall (sentenceIn text) sentences ->
  In sg (buildSuggestions fp text sentences mean std hedgeDensity style) ->
  0 <= sg_start sg < sg_end sg /\ sg_end sg <= len text.
Proof.
  intros Hall Hin. rewrite Forall_forall in Hall.
  pose proof (buildSuggestions_sound text sentences fp mean std
                hedgeDensity style) as Hsound.
  rewrite Forall_forall in Hsound. specialize (Hsound sg Hin).
  destruct Hsound as [c [n [Hc [-> Hspan]]]].
  split; [exact Hspan|].
  destruct Hc as [s Hs|entry li index original next _ Hexec _|s Hs|word s Hs
                 |s Hs Hne|s Hs];
    try (destruct (Hall s Hs) as [[_ [Hend _]] _]; exact Hend).
  simpl in *. unfold len in Hspan.
  assert (Hne : original <> [])
    by (destruct original; [simpl in Hspan; lia|easy]).
  destruct (execWord_found _ _ _ _ _ Hexec Hne) as [pre [rest [-> <-]]].
  rewrite !len_app. pose proof (len_nonneg rest). unfold len. lia.
Qed.

(** In the text that was passed to [analyzeText], the original of every
    suggestion lies at its offsets moved by the length of the white space
    that [trim] removed in front. *)
Lemma analysis_offsets_shifted (terms : str -> list str)
  (fp : arithmetic) (text styleSample : str) :
  exists lead trail,
    text = lead ++ trim text ++ trail /\
    forall sg,
      In sg (suggestions (analyzeText terms fp text styleSample)) ->
      slice text (sg_start sg + len lead) (sg_end sg + len lead)
      = sg_original sg.
Proof.
  destruct (trim_split text) as [lead [trail Ht]].
  exists lead, trail. split; [exact Ht|].
  intros sg Hin.
  pose proof (analysis_offsets_index_trimmed_text _ _ _ _ _ Hin) as Ho.
  unfold analyzeText in Hin.
  destruct (_ || _)%bool; simpl in Hin; [contradiction|].
  apply buildSuggestions_bounds in Hin; [|apply splitSentences_sentences].
  rewrite Ht at 1. rewrite slice_shift; [exact Ho|lia|lia].
Qed.

(** C1 at the sample draft with one space in front: the first suggestion
    carries the offsets of the phrase in the trimmed text, one character
    off in the text that was passed ([analysis_offsets_shifted] has the
    general statement). *)
Theorem offsets_index_the_trimmed_text :
  let text := " "%char :: SAMPLE_TEXT in
  exists sg rest,
    suggestions (analyzeText spaceTerms binary64 text []) = sg :: rest /\
    sg_start sg = 208 /\ sg_end sg = 236 /\
    sg_original sg = lit "It is important to note that" /\
    slice text 208 236 = lit " It is important to note tha" /\
    slice (trim text) 208 236 = sg_original sg.
Proof.
  do 2 eexists. split; [vm_compute; reflexivity|].
  vm_compute. repeat split.
Qed.

(** * Further properties *)

(** ** Slices *)

Lemma slice_drop_prefix (pre s : str) (x y : Z) :
  0 <= x -> 0 <= y ->
  slice (pre ++ s) (x + len pre) (y + len pre) = slice s x y.
Proof.
  intros Hx Hy. pose proof (len_nonneg pre). pose proof (len_nonneg s).
  unfold slice, relIndex. rewrite len_app.
  destruct (Z.ltb_spec (x + len pre) 0); [lia|].
  destruct (Z.ltb_spec (y + len pre) 0); [lia|].
  destruct (Z.ltb_spec x 0); [lia|].
  destruct (Z.ltb_spec y 0); [lia|].
  replace (Z.min (x + len pre) (len pre + len s))
    with (len pre + Z.min x (len s)) by lia.
  replace (Z.min (y + len pre) (len pre + len s))
    with (len pre + Z.min y (len s)) by lia.
  replace (len pre + Z.min y (len s) - (len pre + Z.min x (len s)))
    with (Z.min y (len s) - Z.min x (len s)) by lia.
  replace (Z.to_nat (len pre + Z.min x (len s)))
    with (length pre + Z.to_nat (Z.min x (len s)))%nat by (unfold len; lia).
  rewrite skipn_app, skipn_all2 by lia.
  replace (length pre + Z.to_nat (Z.min x (len s)) - length pre)%nat
    with (Z.to_nat (Z.min x (len s))) by lia.
  reflexivity.
Qed.

Lemma slice_in_prefix (pre s : str) (x y : Z) :
  0 <= x -> 0 <= y <= len pre ->
  slice (pre ++ s) x y = slice pre x y.
Proof.
  intros Hx Hy. pose proof (len_nonneg s).
  unfold slice, relIndex. rewrite len_app.
  destruct (Z.ltb_spec x 0); [lia|].
  destruct (Z.ltb_spec y 0); [lia|].
  destruct (Z.le_gt_cases x (len pre)) as [Hxp|Hxp].
  - rewrite !Z.min_l by lia. rewrite skipn_app, firstn_app.
    unfold len in *.
    replace (Z.to_nat x - length pre)%nat with 0%nat by lia.
    replace (Z.to_nat (y - x) - length (skipn (Z.to_nat x) pre))%nat
      with 0%nat by (rewrite length_skipn; lia).
    simpl. apply app_nil_r.
  - replace (Z.to_nat (Z.min y (len pre + len s) - Z.min x (len pre + len s)))
      with 0%nat by lia.
    replace (Z.to_nat (Z.min y (len pre) - Z.min x (len pre)))
      with 0%nat by lia.
    reflexivity.
Qed.

(** A text cut at two offsets. *)
Lemma slice_three (text : str) (a b : Z) :
  0 <= a <= b -> b <= len text ->
  text = slice text 0 a ++ slice text a b ++ sliceFrom text b /\
  len (slice text 0 a) = a /\ len (slice text a b) = b - a.
Proof.
  intros Ha Hb. unfold sliceFrom.
  rewrite !slice_inside by lia. unfold len in *.
  rewrite !Z.sub_0_r. simpl skipn.
  replace (Z.to_nat (Z.of_nat (length text) - b))
    with (length text - Z.to_nat b)%nat by lia.
  split; [|split].
  - rewrite <- (firstn_skipn (Z.to_nat a) text) at 1. f_equal.
    rewrite <- (firstn_skipn (Z.to_nat (b - a)) (skipn (Z.to_nat a) text)) at 1.
    f_equal. rewrite skipn_skipn.
    replace (Z.to_nat (b - a) + Z.to_nat a)%nat with (Z.to_nat b) by lia.
    symmetry. apply firstn_all2. rewrite length_skipn. lia.
  - rewrite length_firstn. lia.
  - rewrite length_firstn, length_skipn. lia.
Qed.

(** ** Accepting a suggestion: what the new state holds *)

Lemma find_map_same_test {A} (p : A -> bool) (f : A -> A) (l : list A) :
  (forall x, p (f x) = p x) ->
  find p (map f l) = option_map f (find p l).
Proof.
  intros Hp. induction l as [|x l IH]; simpl; [reflexivity|].
  rewrite Hp. destruct (p x); [reflexivity|exact IH].
Qed.

Lemma reconcile_id (id : str) (a b delta : Z) (replacement : str)
  (item : suggestion) :
  sg_id (reconcile id a b delta replacement item) = sg_id item.
Proof.
  unfold reconcile.
  destruct (str_eqb (sg_id item) id); [reflexivity|].
  destruct (b <=? sg_start item); reflexivity.
Qed.

(** Accepting the same suggestion a second time changes nothing: the
    first call has either left the state as it was, or set the stale
    message, or marked the target as accepted. *)
Theorem applySuggestion_idempotent (st : appState) (id : str) :
  applySuggestion (applySuggestion st id) id = applySuggestion st id.
Proof.
  destruct (find (fun item => str_eqb (sg_id item) id) (st_suggestions st))
    as [sg|] eqn:Hfind.
  2:{ assert (H : applySuggestion st id = st)
        by (unfold applySuggestion; now rewrite Hfind).
      now rewrite !H. }
  destruct (sg_status sg) eqn:Hp.
  2,3: assert (H : applySuggestion st id = st)
         by (unfold applySuggestion; now rewrite Hfind, Hp);
       now rewrite !H.
  destruct (locate (st_text st) sg) as [[[a b] o]|] eqn:Hloc.
  - rewrite (applySuggestion_located _ _ _ _ _ _ Hfind Hp Hloc).
    unfold applySuggestion. simpl.
    rewrite find_map_same_test
      by (intros x; now rewrite reconcile_id).
    rewrite Hfind. simpl.
    apply find_some in Hfind. destruct Hfind as [_ Hid].
    unfold reconcile at 1. rewrite Hid. reflexivity.
  - rewrite (applySuggestion_stale _ _ _ Hfind Hp Hloc).
    exact (applySuggestion_stale
             {| st_text := st_text st;
                st_suggestions := st_suggestions st;
                st_error := STALE |} id sg Hfind Hp Hloc).
Qed.

(** Accepting a suggestion keeps the list as it is but for statuses and
    coordinates: the same number of suggestions, each with its id, type,
    texts and impact; and no suggestion becomes pending. *)
Theorem applySuggestion_keeps_suggestions (st : appState) (id : str)
  (i : nat) (item : suggestion) :
  nth_error (st_suggestions st) i = Some item ->
  length (st_suggestions (applySuggestion st id)) = length (st_suggestions st)
  /\ exists item',
      nth_error (st_suggestions (applySuggestion st id)) i = Some item' /\
      sg_id item' = sg_id item /\ sg_type item' = sg_type item /\
      sg_title item' = sg_title item /\
      sg_description item' = sg_description item /\
      sg_original item' = sg_original item /\
      sg_replacement item' = sg_replacement item /\
      sg_riskImpact item' = sg_riskImpact item /\
      (sg_status item' = pending -> sg_status item = pending).
Proof.
  intros Hi. unfold applySuggestion.
  destruct (find _ (st_suggestions st)) as [sg|];
    [|split; [reflexivity|exists item; repeat split; auto]].
  destruct (negb (isPending (sg_status sg)));
    [split; [reflexivity|exists item; repeat split; auto]|].
  destruct (locate (st_text st) sg) as [[[a b] o]|]; simpl;
    [|split; [reflexivity|exists item; repeat split; auto]].
  split; [apply length_map|].
  rewrite nth_error_map, Hi. simpl. eexists. split; [reflexivity|].
  unfold reconcile.
  destruct (str_eqb (sg_id item) id); [simpl; repeat split; discriminate|].
  destruct (b <=? sg_start item); simpl; repeat split; auto.
Qed.

Lemma applySuggestion_keeps_suggestions_witness :
  length (st_suggestions (applySuggestion demoState (lit "s-2"))) = 3%nat /\
  exists item',
    nth_error (st_suggestions (applySuggestion demoState (lit "s-2"))) 1
    = Some item' /\
    sg_id item' = lit "s-2" /\ sg_type item' = swap_predictable_phrasing /\
    sg_title item' = "Use less templated phrasing"%string /\
    sg_description item' = [] /\
    sg_original item' = lit "in addition" /\
    sg_replacement item' = lit "plus, as a bonus" /\
    sg_riskImpact item' = 6 /\
    (sg_status item' = pending -> pending = pending).
Proof.
  exact (applySuggestion_keeps_suggestions demoState (lit "s-2") 1
           (demoSuggestion "s-2" 18 29 "in addition" "plus, as a bonus")
           eq_refl).
Defined.

(** The length of what [locate] found is the length of the located span,
    when that span lies in the text. *)
Lemma locate_length (text : str) (sg : suggestion) (a b : Z) (o : str) :
  locate text sg = Some (a, b, o) ->
  0 <= a <= b -> b <= len text ->
  o = slice text a b /\ len o = b - a.
Proof.
  unfold locate. intros H Ha Hb.
  assert (Hgen : forall i sub,
             firstOccurrence text sub i ->
             sub = slice text (Z.of_nat i) (Z.of_nat i + len sub)).
  { intros i sub [[pre [post [Ht Hl]]] _]. rewrite Ht at 1.
    rewrite <- Hl. fold (len pre). symmetry. apply slice_middle. }
  destruct (str_eqb (slice text (sg_start sg) (sg_end sg)) (sg_original sg)).
  - injection H as <- <- <-. split; [reflexivity|].
    now destruct (slice_three text _ _ Ha Hb) as [_ [_ Hl]].
  - destruct (indexOf_range text (sg_original sg)) as [Hm|[i [Hi Hf]]].
    + rewrite Hm in H. simpl in H.
      destruct (isEmpty (trim (sg_original sg))); [discriminate|].
      destruct (indexOf_range text (trim (sg_original sg)))
        as [Hm2|[j [Hj Hf2]]].
      * rewrite Hm2 in H. discriminate.
      * rewrite Hj in H.
        destruct (Z.ltb_spec (Z.of_nat j) 0); [lia|].
        injection H as <- <- <-. split; [now apply Hgen|lia].
    + rewrite Hi in H.
      destruct (Z.leb_spec 0 (Z.of_nat i)); [|lia].
      injection H as <- <- <-. split; [now apply Hgen|lia].
Qed.

(** After a suggestion has been accepted at a span inside the text, the
    span recorded for it holds its replacement in the new text, and its
    status is [accepted]. *)
Theorem accepted_span_holds_replacement (st : appState) (id : str)
  (sg : suggestion) (a b : Z) (o : str) (item' : suggestion) :
  find (fun item => str_eqb (sg_id item) id) (st_suggestions st) = Some sg ->
  sg_status sg = pending ->
  locate (st_text st) sg = Some (a, b, o) ->
  0 <= a <= b -> b <= len (st_text st) ->
  In item' (st_suggestions (applySuggestion st id)) ->
  sg_id item' = id ->
  sg_status item' = accepted /\
  slice (st_text (applySuggestion st id)) (sg_start item') (sg_end item')
  = sg_replacement sg /\
  len (st_text (applySuggestion st id))
  = len (st_text st) + (len (sg_replacement sg) - (b - a)).
Proof.
  intros Hfind Hst Hloc Ha Hb Hin Hid.
  rewrite (applySuggestion_located _ _ _ _ _ _ Hfind Hst Hloc) in *.
  simpl in *. apply in_map_iff in Hin. destruct Hin as [item [<- _]].
  rewrite reconcile_id in Hid. unfold reconcile.
  rewrite (proj2 (str_eqb_eq _ _) Hid). simpl.
  destruct (slice_three (st_text st) a b Ha Hb) as [Ht [Hl1 Hl2]].
  split; [reflexivity|]. split.
  - rewrite <- Hl1 at 2 3. apply slice_middle.
  - assert (Hlt : len (st_text st)
                  = a + (b - a) + len (sliceFrom (st_text st) b)).
    { rewrite Ht at 1. rewrite !len_app. lia. }
    rewrite !len_app. lia.
Qed.

Lemma accepted_span_holds_replacement_witness :
  let st' := applySuggestion demoState (lit "s-2") in
  let item' := nth 1 (st_suggestions st') (demoSuggestion "" 0 0 "" "") in
  sg_status item' = accepted /\
  slice (st_text st') (sg_start item') (sg_end item')
  = lit "plus, as a bonus" /\
  len (st_text st') = len (st_text demoState) + (16 - (29 - 18)).
Proof.
  intros st' item'.
  apply (accepted_span_holds_replacement demoState (lit "s-2")
           (demoSuggestion "s-2" 18 29 "in addition" "plus, as a bonus")
           18 29 (lit "in addition") item' eq_refl eq_refl eq_refl).
  - lia.
  - vm_compute. discriminate.
  - vm_compute. right. left. reflexivity.
  - reflexivity.
Defined.

(** A suggestion that lies after the located span still points, with its
    shifted coordinates, at the text it pointed at. *)
Theorem shifted_suggestion_keeps_its_text (st : appState) (id : str)
  (sg : suggestion) (a b : Z) (o : str) (i : nat) (item : suggestion) :
  find (fun x => str_eqb (sg_id x) id) (st_suggestions st) = Some sg ->
  sg_status sg = pending ->
  locate (st_text st) sg = Some (a, b, o) ->
  0 <= a <= b -> b <= len (st_text st) ->
  nth_error (st_suggestions st) i = Some item ->
  sg_id item <> id ->
  b <= sg_start item <= sg_end item ->
  exists item',
    nth_error (st_suggestions (applySuggestion st id)) i = Some item' /\
    slice (st_text (applySuggestion st id)) (sg_start item') (sg_end item')
    = slice (st_text st) (sg_start item) (sg_end item).
Proof.
  intros Hfind Hst Hloc Ha Hb Hi Hid Hspan.
  destruct (locate_length _ _ _ _ _ Hloc Ha Hb) as [_ Hlen].
  rewrite (applySuggestion_located _ _ _ _ _ _ Hfind Hst Hloc). simpl.
  rewrite nth_error_map, Hi. simpl. eexists. split; [reflexivity|].
  unfold reconcile. rewrite (proj2 (str_eqb_neq _ _) Hid).
  destruct (Z.leb_spec b (sg_start item)); [|lia]. simpl.
  destruct (slice_three (st_text st) a b Ha Hb) as [Ht [Hl1 Hl2]].
  remember (slice (st_text st) 0 a) as P eqn:HP.
  remember (slice (st_text st) a b) as O eqn:HO.
  remember (sliceFrom (st_text st) b) as R eqn:HR.
  remember (sg_replacement sg) as repl eqn:Hrepl.
  clear HP HO HR Hrepl. rewrite Ht.
  replace (sg_start item + (len repl - len o))
    with ((sg_start item - b) + len (P ++ repl))
    by (rewrite len_app; lia).
  replace (sg_end item + (len repl - len o))
    with ((sg_end item - b) + len (P ++ repl))
    by (rewrite len_app; lia).
  replace (sg_start item) with ((sg_start item - b) + len (P ++ O)) at 2
    by (rewrite len_app; lia).
  replace (sg_end item) with ((sg_end item - b) + len (P ++ O)) at 2
    by (rewrite len_app; lia).
  rewrite (app_assoc P repl R), (app_assoc P O R).
  rewrite !slice_drop_prefix by lia. reflexivity.
Qed.

Lemma shifted_suggestion_keeps_its_text_witness :
  exists item',
    nth_error (st_suggestions (applySuggestion demoState (lit "s-2"))) 2
    = Some item' /\
    slice (st_text (applySuggestion demoState (lit "s-2")))
      (sg_start item') (sg_end item')
    = slice (st_text demoState) 43 51.
Proof.
  apply (shifted_suggestion_keeps_its_text demoState (lit "s-2")
           (demoSuggestion "s-2" 18 29 "in addition" "plus, as a bonus")
           18 29 (lit "in addition") 2
           (demoSuggestion "s-3" 43 51 "Moreover" "On top of that")
           eq_refl eq_refl eq_refl).
  - lia.
  - vm_compute. discriminate.
  - reflexivity.
  - discriminate.
  - simpl. lia.
Defined.

(** A suggestion whose span ends before the located span keeps its
    coordinates, and they still point at the same text. *)
Theorem earlier_suggestion_keeps_its_text (st : appState) (id : str)
  (sg : suggestion) (a b : Z) (o : str) (i : nat) (item : suggestion) :
  find (fun x => str_eqb (sg_id x) id) (st_suggestions st) = Some sg ->
  sg_status sg = pending ->
  locate (st_text st) sg = Some (a, b, o) ->
  0 <= a <= b -> b <= len (st_text st) ->
  nth_error (st_suggestions st) i = Some item ->
  sg_id item <> id ->
  0 <= sg_start item < sg_end item -> sg_end item <= a ->
  nth_error (st_suggestions (applySuggestion st id)) i = Some item /\
  slice (st_text (applySuggestion st id)) (sg_start item) (sg_end item)
  = slice (st_text st) (sg_start item) (sg_end item).
Proof.
  intros Hfind Hst Hloc Ha Hb Hi Hid Hspan Hend.
  rewrite (applySuggestion_located _ _ _ _ _ _ Hfind Hst Hloc). simpl.
  rewrite nth_error_map, Hi. simpl.
  unfold reconcile. rewrite (proj2 (str_eqb_neq _ _) Hid).
  destruct (Z.leb_spec b (sg_start item)); [lia|].
  split; [reflexivity|].
  destruct (slice_three (st_text st) a b Ha Hb) as [Ht [Hl1 Hl2]].
  remember (slice (st_text st) 0 a) as P eqn:HP.
  remember (slice (st_text st) a b) as O eqn:HO.
  remember (sliceFrom (st_text st) b) as R eqn:HR.
  clear HP HO HR. rewrite Ht.
  rewrite !slice_in_prefix by lia. reflexivity.
Qed.

Lemma earlier_suggestion_keeps_its_text_witness :
  nth_error (st_suggestions (applySuggestion demoState (lit "s-2"))) 0
  = Some (demoSuggestion "s-1" 0 7 "Overall" "All in all") /\
  slice (st_text (applySuggestion demoState (lit "s-2"))) 0 7
  = slice (st_text demoState) 0 7.
Proof.
  apply (earlier_suggestion_keeps_its_text demoState (lit "s-2")
           (demoSuggestion "s-2" 18 29 "in addition" "plus, as a bonus")
           18 29 (lit "in addition") 0
           (demoSuggestion "s-1" 0 7 "Overall" "All in all")
           eq_refl eq_refl eq_refl).
  - lia.
  - vm_compute. discriminate.
  - reflexivity.
  - discriminate.
  - simpl. lia.
  - simpl. lia.
Defined.

(** ** Rejecting a suggestion *)

Lemma find_split {A} (p : A -> bool) (l : list A) (x : A) :
  find p l = Some x ->
  exists before after,
    l = before ++ x :: after /\ p x = true /\
    forall y, In y before -> p y = false.
Proof.
  induction l as [|a l IH]; simpl; [discriminate|].
  destruct (p a) eqn:E.
  - intros [= <-]. exists [], l. split; [reflexivity|].
    split; [exact E|]. intros y [].
  - intros H. destruct (IH H) as [before [after [-> [Hx Hb]]]].
    exists (a :: before), after. split; [reflexivity|].
    split; [exact Hx|]. intros y [<-|Hy]; auto.
Qed.

Lemma find_map {A B} (p : B -> bool) (f : A -> B) (l : list A) :
  find p (map f l) = option_map f (find (fun x => p (f x)) l).
Proof.
  induction l as [|a l IH]; simpl; [reflexivity|].
  destruct (p (f a)); [reflexivity|exact IH].
Qed.

(** After a rejection the active suggestion is never the rejected one.
    When it was another one (or none), it is left as it was.  When it was
    the rejected one, it moves to the first suggestion of the list that is
    still pending and has another id, or to none when there is no such
    suggestion, or when the id of that suggestion is the empty string. *)
Theorem rejectSuggestion_active_not_rejected (suggestions : list suggestion)
  (activeSuggestionId : option str) (id : str) :
  let active := snd (rejectSuggestion suggestions activeSuggestionId id) in
  active <> Some id /\
  (activeSuggestionId <> Some id -> active = activeSuggestionId) /\
  (activeSuggestionId = Some id ->
   ((forall item, In item suggestions -> sg_status item = pending ->
                  sg_id item = id) /\
    active = None) \/
   exists before item after,
     suggestions = before ++ item :: after /\
     sg_status item = pending /\ sg_id item <> id /\
     (forall x, In x before -> sg_status x <> pending \/ sg_id x = id) /\
     (sg_id item <> [] -> active = Some (sg_id item)) /\
     (sg_id item = [] -> active = None)).
Proof.
  intros active. subst active. unfold rejectSuggestion.
  set (mark := fun suggestion : suggestion =>
                 if str_eqb (sg_id suggestion) id
                 then withStatus suggestion rejected else suggestion).
  assert (Hmark : forall x,
             isPending (sg_status (mark x)) = true <->
             sg_status x = pending /\ sg_id x <> id).
  { intros x. unfold mark.
    destruct (str_eqb (sg_id x) id) eqn:E.
    - apply str_eqb_eq in E. simpl. split; [discriminate|tauto].
    - apply str_eqb_neq in E.
      destruct (sg_status x); simpl; split; try tauto; try discriminate;
        intros [H _]; discriminate. }
  assert (Hsame : forall x, sg_id x <> id -> mark x = x).
  { intros x Hx. unfold mark. now rewrite (proj2 (str_eqb_neq _ _) Hx). }
  destruct (optStr_eqb activeSuggestionId id) eqn:E; cbn [snd].
  - assert (Hact : activeSuggestionId = Some id).
    { destruct activeSuggestionId as [a|]; [|discriminate].
      simpl in E. apply str_eqb_eq in E. now subst a. }
    rewrite find_map.
    destruct (find (fun x => isPending (sg_status (mark x))) suggestions)
      as [item|] eqn:Hf; cbn [option_map idOrNull].
    + destruct (find_split _ _ _ Hf) as [before [after [Hl [Hp Hb]]]].
      apply Hmark in Hp. destruct Hp as [Hpend Hid].
      rewrite (Hsame item Hid).
      assert (Hnot : (if isEmpty (sg_id item) then None
                      else Some (sg_id item)) <> Some id).
      { destruct (isEmpty (sg_id item)); [discriminate|].
        intros [= H]. contradiction. }
      split; [exact Hnot|]. split; [intros H; contradiction|].
      intros _. right. exists before, item, after.
      split; [exact Hl|]. split; [exact Hpend|]. split; [exact Hid|].
      split.
      * intros x Hx. specialize (Hb x Hx).
        destruct (sg_status x) eqn:Es; try (left; discriminate).
        destruct (list_eq_dec ascii_dec (sg_id x) id) as [Ex|Ex];
          [now right|].
        exfalso. assert (Ht : isPending (sg_status (mark x)) = true)
          by (apply Hmark; split; assumption).
        congruence.
      * split.
        -- intros Hne. destruct (sg_id item); [contradiction|reflexivity].
        -- intros He. now rewrite He.
    + split; [discriminate|]. split; [intros H; contradiction|].
      intros _. left. split; [|reflexivity].
      intros item Hin Hpend.
      destruct (list_eq_dec ascii_dec (sg_id item) id) as [Ex|Ex];
        [exact Ex|].
      exfalso. pose proof (find_none _ _ Hf item Hin) as Hn.
      assert (Ht : isPending (sg_status (mark item)) = true)
        by (apply Hmark; split; assumption).
      simpl in Hn. congruence.
  - assert (Hact : activeSuggestionId <> Some id).
    { intros H. rewrite H in E. simpl in E.
      rewrite (proj2 (str_eqb_eq id id) eq_refl) in E. discriminate. }
    split; [exact Hact|]. split; [reflexivity|].
    intros H. contradiction.
Qed.

(** The active suggestion after the first of three pending suggestions,
    the active one, is rejected; and after one that is not active is. *)
Example rejectSuggestion_moves_active :
  snd (rejectSuggestion (st_suggestions demoState) (Some (lit "s-1"))
         (lit "s-1"))
  = Some (lit "s-2") /\
  snd (rejectSuggestion (st_suggestions demoState) (Some (lit "s-1"))
         (lit "s-3"))
  = Some (lit "s-1") /\
  map sg_status
    (fst (rejectSuggestion (st_suggestions demoState) (Some (lit "s-1"))
            (lit "s-1")))
  = [rejected; pending; pending].
Proof. vm_compute. repeat split. Qed.

(** A rejection changes statuses only: every suggestion keeps its place,
    its coordinates and its texts, the ones with the given id are
    rejected, the others are as they were. *)
Theorem rejectSuggestion_marks_only (suggestions : list suggestion)
  (activeSuggestionId : option str) (id : str) (i : nat)
  (item : suggestion) :
  nth_error suggestions i = Some item ->
  exists item',
    nth_error (fst (rejectSuggestion suggestions activeSuggestionId id)) i
    = Some item' /\
    sg_start item' = sg_start item /\ sg_end item' = sg_end item /\
    sg_id item' = sg_id item /\ sg_original item' = sg_original item /\
    sg_replacement item' = sg_replacement item /\
    (sg_id item = id -> sg_status item' = rejected) /\
    (sg_id item <> id -> item' = item).
Proof.
  intros Hi.
  assert (Hfst : fst (rejectSuggestion suggestions activeSuggestionId id)
                 = map (fun suggestion =>
                          if str_eqb (sg_id suggestion) id
                          then withStatus suggestion rejected else suggestion)
                     suggestions).
  { unfold rejectSuggestion. now destruct (optStr_eqb _ _). }
  rewrite Hfst, nth_error_map, Hi. simpl. eexists. split; [reflexivity|].
  destruct (str_eqb (sg_id item) id) eqn:E.
  - apply str_eqb_eq in E. simpl. repeat split; auto. congruence.
  - apply str_eqb_neq in E. repeat split; auto. congruence.
Qed.

Lemma rejectSuggestion_marks_only_witness :
  exists item',
    nth_error
      (fst (rejectSuggestion (st_suggestions demoState) None (lit "s-2"))) 1
    = Some item' /\
    sg_start item' = 18 /\ sg_end item' = 29 /\
    sg_id item' = lit "s-2" /\ sg_original item' = lit "in addition" /\
    sg_replacement item' = lit "plus, as a bonus" /\
    (lit "s-2" = lit "s-2" -> sg_status item' = rejected) /\
    (lit "s-2" <> lit "s-2" ->
     item' = demoSuggestion "s-2" 18 29 "in addition" "plus, as a bonus").
Proof.
  exact (rejectSuggestion_marks_only (st_suggestions demoState) None
           (lit "s-2") 1
           (demoSuggestion "s-2" 18 29 "in addition" "plus, as a bonus")
           eq_refl).
Defined.

(** ** The highlighted preview *)

Lemma slice_cat (s : str) (a b c : Z) :
  0 <= a <= b -> b <= c <= len s ->
  slice s a b ++ slice s b c = slice s a c.
Proof.
  intros Ha Hc. rewrite !slice_inside by lia.
  replace (Z.to_nat b) with (Z.to_nat (b - a) + Z.to_nat a)%nat by lia.
  rewrite <- skipn_skipn.
  replace (Z.to_nat (c - a)) with (Z.to_nat (b - a) + Z.to_nat (c - b))%nat
    by lia.
  generalize (skipn (Z.to_nat a) s) (Z.to_nat (b - a)) (Z.to_nat (c - b)).
  intros u n m. rewrite firstn_skipn_comm.
  rewrite <- (firstn_skipn n (firstn (n + m) u)) at 2.
  f_equal. rewrite firstn_firstn. f_equal. lia.
Qed.

Lemma slice_empty (s : str) (a : Z) : 0 <= a <= len s -> slice s a a = [].
Proof.
  intros Ha. rewrite slice_inside by lia. now rewrite Z.sub_diag.
Qed.

Lemma slice_whole (s : str) : slice s 0 (len s) = s.
Proof.
  pose proof (len_nonneg s).
  rewrite slice_inside by lia. rewrite Z.sub_0_r. unfold len.
  rewrite Nat2Z.id. apply firstn_all.
Qed.

Lemma insertByStart_In (x y : suggestion) (l : list suggestion) :
  In y (insertByStart x l) <-> y = x \/ In y l.
Proof.
  induction l as [|z l IH]; simpl.
  - split; intros [H|H]; auto.
  - destruct (sg_start x <=? sg_start z); simpl; [|rewrite IH];
      split; intros H; intuition auto.
Qed.

Lemma sortByStart_In (y : suggestion) (l : list suggestion) :
  In y (sortByStart l) <-> In y l.
Proof.
  induction l as [|x l IH]; simpl; [tauto|].
  rewrite insertByStart_In, IH. split; intros [H|H]; auto.
Qed.

(** The invariant of the loop of [HighlightedPreview]: the segments so far
    spell the text up to the cursor. *)
Lemma previewStep_spells (text : str) (l : list suggestion) :
  Forall (fun s => sg_start s <= sg_end s) l ->
  forall segments cursor segments' cursor',
    0 <= cursor <= len text ->
    concat (map segmentContent segments) = slice text 0 cursor ->
    fold_left (previewStep text) l (segments, cursor) = (segments', cursor') ->
    0 <= cursor' <= len text /\
    concat (map segmentContent segments') = slice text 0 cursor'.
Proof.
  induction 1 as [|s l Hs Hl IH]; intros segments cursor segments' cursor'
    Hc Hspell Hfold; simpl in Hfold.
  - injection Hfold as <- <-. now split.
  - destruct (Z.ltb_spec (sg_start s) cursor) as [H1|H1]; simpl in Hfold.
    { exact (IH _ _ _ _ Hc Hspell Hfold). }
    destruct (Z.ltb_spec (len text) (sg_end s)) as [H2|H2]; simpl in Hfold.
    { exact (IH _ _ _ _ Hc Hspell Hfold). }
    refine (IH _ _ _ _ _ _ Hfold); [lia|].
    rewrite map_app, concat_app. simpl. rewrite app_nil_r.
    destruct (Z.ltb_spec cursor (sg_start s)) as [H3|H3].
    + rewrite map_app, concat_app. simpl. rewrite app_nil_r, Hspell.
      rewrite !slice_cat by lia. reflexivity.
    + assert (sg_start s = cursor) by lia. subst cursor.
      rewrite Hspell. rewrite slice_cat by lia. reflexivity.
Qed.

(** When every pending suggestion has its start at or before its end, the
    segments of the preview, read one after the other, are the text: no
    character is lost or shown twice, whatever spans are skipped. *)
Theorem preview_spells_the_text (text : str) (suggestions : list suggestion)
  (segments : list segment) :
  (forall s, In s suggestions -> sg_status s = pending ->
             sg_start s <= sg_end s) ->
  previewSegments text suggestions = Some segments ->
  concat (map segmentContent segments) = text.
Proof.
  intros Hvalid. unfold previewSegments.
  set (pend := sortByStart
                    (filter (fun s => isPending (sg_status s)) suggestions)).
  assert (Hall : Forall (fun s => sg_start s <= sg_end s) pend).
  { apply Forall_forall. intros s Hs. unfold pend in Hs.
    apply (proj1 (sortByStart_In _ _)) in Hs.
    apply filter_In in Hs. destruct Hs as [Hin Hp].
    apply Hvalid; [exact Hin|]. now destruct (sg_status s). }
  destruct pend as [|p0 rest] eqn:E; [discriminate|]. rewrite <- E in *.
  destruct (fold_left (previewStep text) pend ([], 0))
    as [segs cursor] eqn:Hfold.
  pose proof (len_nonneg text).
  destruct (previewStep_spells text pend Hall [] 0 segs cursor)
    as [Hc Hspell]; [lia|symmetry; apply slice_empty; lia|exact Hfold|].
  intros [= <-].
  destruct (Z.ltb_spec cursor (len text)).
  - rewrite map_app, concat_app. simpl. rewrite app_nil_r, Hspell.
    unfold sliceFrom. rewrite slice_cat by lia. apply slice_whole.
  - assert (cursor = len text) by lia. subst cursor.
    rewrite Hspell. apply slice_whole.
Qed.

Lemma preview_spells_the_text_witness :
  exists segments,
    previewSegments (st_text demoState) (st_suggestions demoState)
    = Some segments /\
    length segments = 6%nat /\
    concat (map segmentContent segments) = st_text demoState.
Proof.
  eexists. split; [vm_compute; reflexivity|]. split; [reflexivity|].
  apply (preview_spells_the_text (st_text demoState)
           (st_suggestions demoState)).
  - intros s [<-|[<-|[<-|[]]]] _; simpl; lia.
  - vm_compute. reflexivity.
Defined.

(** The preview shows nothing exactly when no suggestion is pending. *)
Theorem preview_absent_iff_none_pending (text : str)
  (suggestions : list suggestion) :
  previewSegments text suggestions = None <-> pendingCount suggestions = 0%nat.
Proof.
  unfold previewSegments, pendingCount.
  set (p := filter (fun s => isPending (sg_status s)) suggestions).
  destruct p as [|x p']; simpl.
  - tauto.
  - destruct (insertByStart x (sortByStart p')) as [|y r] eqn:E.
    + exfalso. assert (In x []) by (rewrite <- E; apply insertByStart_In; auto).
      contradiction.
    + destruct (fold_left _ _ _). split; discriminate.
Qed.

(** ** The tone of a metric and the band of its score *)

(** The client colours the rounded metric with the thresholds that the
    server applies to the score before rounding: the tone is the one of
    the band, or the next one up when the score lies within half a point
    below a threshold; it is never a lower one. *)
Theorem tone_follows_band (q : Q) :
  let z := Qfloor (q + (1 # 2)) in
  (toneRank (toneOf (getRiskColor (Num q))) <= toneRank (getRiskTone z))%nat
  /\ (getRiskTone z = toneOf (getRiskColor (Num q))
      \/ (69 # 2 <= q /\ q < 35)%Q \/ (129 # 2 <= q /\ q < 65)%Q).
Proof.
  intros z.
  pose proof (Qfloor_le (q + (1 # 2))) as Hlo.
  pose proof (Qlt_floor (q + (1 # 2))) as Hhi.
  fold z in Hlo, Hhi.
  assert (Hz : forall n : Z,
             (z < n -> (inject_Z z + 1 <= inject_Z n)%Q)
             /\ (n <= z -> (inject_Z n <= inject_Z z)%Q)).
  { intros n. split; intros H.
    - change 1%Q with (inject_Z 1).
      rewrite <- inject_Z_plus, <- Zle_Qle. lia.
    - now rewrite <- Zle_Qle. }
  rewrite inject_Z_plus in Hhi. change (inject_Z 1) with 1%Q in Hhi.
  pose proof (Hz 35) as [L35 G35]. pose proof (Hz 65) as [L65 G65].
  clear Hz. clearbody z.
  change (inject_Z 35) with 35%Q in *. change (inject_Z 65) with 65%Q in *.
  remember (inject_Z z) as r eqn:Hr. clear Hr.
  unfold getRiskTone, getRiskColor.
  destruct (Z.ltb_spec z 35) as [Z35|Z35];
    [pose proof (L35 Z35)|pose proof (G35 Z35)];
    (destruct (Z.ltb_spec z 65) as [Z65|Z65];
     [pose proof (L65 Z65)|pose proof (G65 Z65)]);
    clear L35 G35 L65 G65;
    destruct (Qlt_bool q 35) eqn:Q35;
    try apply Qlt_bool_iff in Q35; try apply Qlt_bool_false in Q35;
    destruct (Qlt_bool q 65) eqn:Q65;
    try apply Qlt_bool_iff in Q65; try apply Qlt_bool_false in Q65;
    simpl; try (exfalso; lra);
    (split; [lia|]); try (left; reflexivity);
    try (right; left; split; lra);
    try (right; right; split; lra).
Qed.

(** ** Counting words *)

Lemma nonSpaceRuns_leading (s : str) :
  nonSpaceRuns (trimStart s) [] = nonSpaceRuns s [].
Proof.
  induction s as [|c r IH]; simpl; [reflexivity|].
  destruct (isSpace c) eqn:E; simpl; [exact IH|now rewrite E].
Qed.



Lemma nonSpaceRuns_trailing (s trail : str) :
  Forall (fun c => isSpace c = true) trail ->
  forall cur, nonSpaceRuns (s ++ trail) cur = nonSpaceRuns s cur.
Proof.
  intros Ht. induction s as [|c r IH]; intros cur; simpl.
  - revert cur. induction Ht as [|t trail Hsp _ IHt]; intros cur; simpl;
      [reflexivity|].
    rewrite Hsp. destruct (isEmpty cur) eqn:E.
    + rewrite IHt. reflexivity.
    + rewrite IHt. reflexivity.
  - destruct (isSpace c); [destruct (isEmpty cur)|]; now rewrite ?IH.
Qed.

Lemma nonSpaceRuns_trim (s : str) :
  nonSpaceRuns (trim s) [] = nonSpaceRuns s [].
Proof.
  unfold trim.
  destruct (trimEnd_split_spaces (trimStart s)) as [trail [Hs Ht]].
  rewrite <- (nonSpaceRuns_leading s). rewrite Hs at 2.
  now rewrite nonSpaceRuns_trailing.
Qed.

Lemma nonSpaceRuns_length_cur (s cur cur' : str) :
  cur <> [] -> cur' <> [] ->
  length (nonSpaceRuns s cur) = length (nonSpaceRuns s cur').
Proof.
  revert cur cur'. induction s as [|c r IH]; intros cur cur' H H'; simpl.
  - destruct cur; [congruence|]. destruct cur'; [congruence|]. reflexivity.
  - destruct (isSpace c).
    + destruct cur; [congruence|]. destruct cur'; [congruence|]. reflexivity.
    + apply IH; intros E; apply app_eq_nil in E; destruct E; discriminate.
Qed.

Lemma nonSpaceRuns_split (a b : str) (c : ascii) :
  isSpace c = true ->
  forall cur,
    length (nonSpaceRuns (a ++ c :: b) cur)
    = (length (nonSpaceRuns a cur) + length (nonSpaceRuns b []))%nat.
Proof.
  intros Hc. induction a as [|x a IH]; intros cur; simpl.
  - rewrite Hc. destruct (isEmpty cur); reflexivity.
  - destruct (isSpace x); [destruct (isEmpty cur)|]; simpl; now rewrite IH.
Qed.

(** The word count of the client ignores the white space around the text,
    and the count of two texts joined by a white-space character is the
    sum of their counts. *)
Theorem countWords_additive (a b : str) (c : ascii) :
  isSpace c = true ->
  countWords (a ++ c :: b) = (countWords a + countWords b)%nat /\
  countWords (c :: a) = countWords a /\
  countWords (a ++ [c]) = countWords a.
Proof.
  intros Hc. unfold countWords. rewrite !nonSpaceRuns_trim.
  split; [|split].
  - apply nonSpaceRuns_split. exact Hc.
  - simpl. now rewrite Hc.
  - rewrite (nonSpaceRuns_split a [] c Hc). simpl. lia.
Qed.

Lemma countWords_additive_witness :
  countWords (lit "Paste your" ++ " "%char :: lit "draft first")
  = (countWords (lit "Paste your") + countWords (lit "draft first"))%nat /\
  countWords (" "%char :: lit "Paste your") = countWords (lit "Paste your") /\
  countWords (lit "Paste your" ++ [" "%char]) = countWords (lit "Paste your").
Proof.
  apply (countWords_additive (lit "Paste your") (lit "draft first") " "%char).
  reflexivity.
Defined.

(** ** Tokenizer *)

Lemma tokenizeWords_nonempty (terms : str -> list str) (text w : str) :
  In w (tokenizeWords terms text) -> w <> [].
Proof.
  unfold tokenizeWords. intros H. apply filter_In in H.
  destruct H as [_ Hne]. intros ->. discriminate.
Qed.

(** Whatever the tokenizer of the library returns, a word is never empty
    and holds lower-case letters and apostrophes only. *)
Theorem tokenizeWords_words (terms : str -> list str) (text w : str) :
  In w (tokenizeWords terms text) ->
  w <> [] /\ Forall (fun c => isLower c = true \/ c = "'"%char) w.
Proof.
  unfold tokenizeWords. intros H. apply filter_In in H.
  destruct H as [Hin Hne]. split.
  - intros ->. discriminate.
  - apply in_map_iff in Hin. destruct Hin as [term [<- _]].
    apply Forall_forall. intros c Hc. apply filter_In in Hc.
    destruct Hc as [_ Hc]. unfold isTokenChar in Hc.
    apply orb_true_iff in Hc. destruct Hc as [Hc|Hc]; [now left|].
    right. apply Ascii.eqb_eq in Hc. now symmetry.
Qed.

Lemma tokenizeWords_words_witness :
  lit "don't" <> [] /\
  Forall (fun c => isLower c = true \/ c = "'"%char) (lit "don't").
Proof.
  apply (tokenizeWords_words spaceTerms (lit "We DON'T know, 42 times!")
           (lit "don't")).
  vm_compute. right. left. reflexivity.
Defined.

(** ** Segmenter: the loop as a whole *)

Section SplitLoopInvariant.

Variable terms : str -> list str.
Variable text : str.

(** An invariant of the offset at which the loop resumes and of the
    sentences so far. *)
Variable Inv : nat -> list sentence -> Prop.

Hypothesis Inv_skip :
  forall lastIndex acc i m,
    Inv lastIndex acc -> execSentence text lastIndex = Some (i, m) ->
    isEmpty (trim m) = true -> Inv (i + length m) acc.

Hypothesis Inv_push :
  forall lastIndex acc i m,
    Inv lastIndex acc -> execSentence text lastIndex = Some (i, m) ->
    isEmpty (trim m) = false ->
    Inv (i + length m) (acc ++ [sentenceOf terms acc i m]).

(** With enough fuel the loop ends on a failed [exec], and the invariant
    holds there. *)
Lemma splitLoop_invariant (fuel : nat) :
  forall lastIndex acc,
    (length text - lastIndex < fuel)%nat ->
    Inv lastIndex acc ->
    exists last,
      Inv last (splitLoop terms fuel text lastIndex acc) /\
      execSentence text last = None.
Proof.
  induction fuel as [|f IH]; intros lastIndex acc Hfuel Hinv; [lia|].
  simpl. destruct (execSentence text lastIndex) as [[i m]|] eqn:E.
  - destruct (execSentence_found _ _ _ _ E) as [Hne [Hli [pre [rest [Ht Hi]]]]].
    assert (length text = i + length m + length rest)%nat
      by (rewrite Ht, !length_app; lia).
    assert (0 < length m)%nat by (destruct m; [easy|simpl; lia]).
    destruct (isEmpty (trim m)) eqn:Et.
    + apply IH; [lia|]. exact (Inv_skip _ _ _ _ Hinv E Et).
    + apply IH; [lia|]. exact (Inv_push _ _ _ _ Hinv E Et).
  - exists lastIndex. now split.
Qed.

Lemma splitSentences_invariant :
  Inv 0 [] ->
  exists last,
    Inv last (splitSentences terms text) /\ execSentence text last = None.
Proof. intros H. apply splitLoop_invariant; [lia|exact H]. Qed.

End SplitLoopInvariant.

Lemma ordered_snoc (l : list sentence) (bound : Z) (s : sentence) :
  ordered bound l ->
  (forall x, In x l -> s_end x <= s_start s) ->
  bound <= s_start s -> s_start s < s_end s ->
  ordered bound (l ++ [s]).
Proof.
  revert bound. induction l as [|x l IH]; intros bound Ho Hall Hb Hs; simpl.
  - auto.
  - destruct Ho as [H1 [H2 H3]]. split; [exact H1|]. split; [exact H2|].
    apply IH; auto.
    + intros y Hy. apply Hall. now right.
    + apply Hall. now left.
Qed.

Lemma ordered_bound (l : list sentence) :
  forall bound j sj,
    ordered bound l -> nth_error l j = Some sj -> bound <= s_start sj.
Proof.
  induction l as [|x l IH]; intros bound j sj Ho Hj;
    [destruct j; discriminate|].
  destruct Ho as [H1 [H2 H3]]. destruct j as [|j]; simpl in Hj.
  - now injection Hj as <-.
  - specialize (IH _ _ _ H3 Hj). lia.
Qed.

Lemma ordered_nth (l : list sentence) :
  forall bound i j si sj,
    ordered bound l ->
    nth_error l i = Some si -> nth_error l j = Some sj -> (i < j)%nat ->
    s_end si <= s_start sj.
Proof.
  induction l as [|x l IH]; intros bound i j si sj Ho Hi Hj Hlt.
  - destruct i; discriminate.
  - destruct Ho as [H1 [H2 H3]]. destruct j as [|j]; [lia|].
    destruct i as [|i]; simpl in *.
    + injection Hi as <-. exact (ordered_bound _ _ _ _ H3 Hj).
    + apply (IH (s_end x) i j si sj H3 Hi Hj). lia.
Qed.

(** The sentence records come in the order of the text and do not
    overlap: an earlier sentence ends at or before the start of a later
    one; and the index of a record is its place in the list. *)
Theorem sentences_in_order (terms : str -> list str) (text : str)
  (i j : nat) (si sj : sentence) :
  nth_error (splitSentences terms text) i = Some si ->
  nth_error (splitSentences terms text) j = Some sj ->
  (i < j)%nat ->
  s_end si <= s_start sj /\ s_index si = i /\ s_index sj = j.
Proof.
  intros Hi Hj Hlt.
  destruct (splitSentences_invariant terms text
              (fun last acc =>
                 ordered 0 acc /\
                 (forall x, In x acc -> s_end x <= Z.of_nat last) /\
                 (forall k x, nth_error acc k = Some x -> s_index x = k)))
    as [last [[Hord [_ Hidx]] _]].
  - intros li acc k m Hinv E _. destruct Hinv as [H1 [H2 H3]].
    destruct (execSentence_found _ _ _ _ E) as [_ [Hli _]].
    split; [exact H1|]. split; [|exact H3].
    intros x Hx. specialize (H2 x Hx). lia.
  - intros li acc k m Hinv E _. destruct Hinv as [H1 [H2 H3]].
    destruct (execSentence_found _ _ _ _ E) as [Hne [Hli _]].
    assert (0 < len m) by (unfold len; destruct m; [easy|simpl; lia]).
    split; [|split].
    + apply ordered_snoc; simpl; try lia; [exact H1|].
      intros x Hx. specialize (H2 x Hx). lia.
    + intros x Hx. apply in_app_or in Hx. destruct Hx as [Hx|[<-|[]]].
      * specialize (H2 x Hx). lia.
      * simpl. unfold len. lia.
    + intros n x Hn.
      destruct (Nat.lt_ge_cases n (length acc)) as [Hlt'|Hge].
      * rewrite nth_error_app1 in Hn by exact Hlt'. now apply H3.
      * rewrite nth_error_app2 in Hn by exact Hge.
        destruct (n - length acc)%nat as [|d] eqn:Ed; simpl in Hn.
        -- injection Hn as <-. simpl. lia.
        -- destruct d; discriminate.
  - split; [exact I|]. split; [intros x []|].
    intros k x Hk. destruct k; discriminate.
  - split; [|split; [exact (Hidx _ _ Hi)|exact (Hidx _ _ Hj)]].
    exact (ordered_nth _ _ _ _ _ _ Hord Hi Hj Hlt).
Qed.

Lemma sentences_in_order_witness :
  let l := splitSentences spaceTerms (lit "A b.  C d! E f") in
  let d := mkSentence 0 [] [] 0 0 0 [] [] in
  s_end (nth 0 l d) <= s_start (nth 2 l d) /\
  s_index (nth 0 l d) = 0%nat /\ s_index (nth 2 l d) = 2%nat.
Proof.
  intros l d.
  apply (sentences_in_order spaceTerms (lit "A b.  C d! E f") 0 2);
    [reflexivity|reflexivity|lia].
Defined.

(** A property of every record that the loop builds holds of every
    sentence. *)
Lemma splitSentences_Forall (terms : str -> list str) (text : str)
  (P : sentence -> Prop) :
  (forall lastIndex acc i m,
      execSentence text lastIndex = Some (i, m) ->
      isEmpty (trim m) = false -> P (sentenceOf terms acc i m)) ->
  Forall P (splitSentences terms text).
Proof.
  intros HP.
  destruct (splitSentences_invariant terms text (fun _ acc => Forall P acc))
    as [last [H _]]; auto.
  - intros li acc i m Hacc E Et. apply Forall_app. split; [exact Hacc|].
    constructor; [|constructor]. exact (HP _ _ _ _ E Et).
Qed.

Lemma matchSentenceHere_run (s m : str) :
  matchSentenceHere s = Some m -> rawShape m.
Proof.
  unfold matchSentenceHere, rawShape.
  pose proof (takeRun_shape s) as [Hrun _].
  destruct (takeRun s) as [run rest]. simpl in Hrun.
  destruct run as [|c0 run]; [discriminate|].
  destruct rest as [|t rest'].
  - intros [= <-]. exists (c0 :: run). split; [discriminate|]. now split; [|left].
  - destruct (isTerminal t) eqn:Et; intros [= <-];
      exists (c0 :: run); (split; [discriminate|]); (split; [exact Hrun|]).
    + right. now exists t.
    + now left.
Qed.

Lemma execSentence_shape (text : str) (lastIndex i : nat) (m : str) :
  execSentence text lastIndex = Some (i, m) ->
  exists pre rest,
    skipn lastIndex text = pre ++ m ++ rest /\
    i = (lastIndex + length pre)%nat /\
    Forall (fun c => isBreak c = true) pre /\
    matchSentenceHere (m ++ rest) = Some m.
Proof. unfold execSentence. apply execSentenceFrom_shape. Qed.

(** The raw text of a sentence holds no line break, and a terminator only
    as its last character. *)
Theorem sentence_raw_shape (terms : str -> list str) (text : str)
  (s : sentence) :
  In s (splitSentences terms text) ->
  exists run,
    run <> [] /\ Forall (fun c => isBreak c = false) run /\
    (s_raw s = run \/ exists t, isTerminal t = true /\ s_raw s = run ++ [t]).
Proof.
  intros Hin.
  pose proof (splitSentences_Forall terms text (fun s => rawShape (s_raw s)))
    as H.
  rewrite Forall_forall in H. apply H; [|exact Hin].
  intros li acc i m E _. simpl.
  destruct (execSentence_shape _ _ _ _ E) as [pre [rest [_ [_ [_ Hm]]]]].
  exact (matchSentenceHere_run _ _ Hm).
Qed.

Lemma sentence_raw_shape_witness :
  let s := nth 1 (splitSentences spaceTerms (lit "A b.  C d! E f"))
             (mkSentence 0 [] [] 0 0 0 [] []) in
  s_raw s = lit "  C d!" /\
  exists run,
    run <> [] /\ Forall (fun c => isBreak c = false) run /\
    (s_raw s = run \/ exists t, isTerminal t = true /\ s_raw s = run ++ [t]).
Proof.
  intros s. split; [reflexivity|].
  apply (sentence_raw_shape spaceTerms (lit "A b.  C d! E f") s).
  vm_compute. right. left. reflexivity.
Defined.

(** ** Segmenter: the text of a sentence and its words *)






Lemma join_nil (sep : str) (l : list str) :
  Forall (fun w => w <> []) l -> join sep l = [] -> l = [].
Proof.
  intros Hl. destruct l as [|x l]; [reflexivity|].
  inversion Hl as [|? ? Hx _]; subst. simpl.
  destruct l; intros H; [congruence|].
  apply app_eq_nil in H. destruct H. congruence.
Qed.

(** The text of a sentence is its raw text trimmed; it is not empty and
    has no white space at either end.  Its word count, opener and first
    word are those of the tokenizer on that text, so that the opener is
    empty exactly when the sentence has no word, and then the first word
    is empty as well: the first word never stands in for an opener. *)
Theorem sentence_text_and_words (terms : str -> list str) (text : str)
  (s : sentence) :
  In s (splitSentences terms text) ->
  s_text s = trim (s_raw s) /\
  (exists c r c' r',
      s_text s = c :: r /\ isSpace c = false /\
      s_text s = r' ++ [c'] /\ isSpace c' = false) /\
  s_wordCount s = length (tokenizeWords terms (s_text s)) /\
  s_firstWord s = hd [] (tokenizeWords terms (s_text s)) /\
  (s_opener s = [] <-> s_wordCount s = 0%nat) /\
  (s_opener s = [] -> s_firstWord s = []).
Proof.
  intros Hin.
  assert (H : Forall
                (fun s =>
                   s_text s = trim (s_raw s) /\ s_text s <> [] /\
                   s_wordCount s = length (tokenizeWords terms (s_text s)) /\
                   s_firstWord s = hd [] (tokenizeWords terms (s_text s)) /\
                   s_opener s
                   = join (lit " ")
                       (firstn 2 (tokenizeWords terms (s_text s))))
                (splitSentences terms text)).
  { apply splitSentences_Forall. intros li acc i m _ Et. simpl.
    repeat split. intros E. rewrite E in Et. discriminate. }
  rewrite Forall_forall in H.
  destruct (H s Hin) as [Ht [Hne [Hw [Hf Ho]]]]. clear H.
  assert (Hwords : Forall (fun w : str => w <> [])
                     (tokenizeWords terms (s_text s))).
  { apply Forall_forall. intros w Hw'.
    exact (tokenizeWords_nonempty _ _ _ Hw'). }
  split; [exact Ht|]. split.
  - assert (Hc : exists c r, s_text s = c :: r)
      by (destruct (s_text s) as [|c r]; [congruence|now exists c, r]).
    destruct Hc as [c [r E]].
    destruct (exists_last Hne) as [r' [c' E']].
    exists c, r, c', r'.
    split; [exact E|]. split; [apply (trim_head (s_raw s) c r); congruence|].
    split; [exact E'|]. apply (trim_last (s_raw s) c' r'). congruence.
  - split; [exact Hw|]. split; [exact Hf|].
    rewrite Ho, Hw, Hf.
    destruct (tokenizeWords terms (s_text s)) as [|w ws] eqn:E.
    + simpl. split; [tauto|reflexivity].
    + split.
      * split; [|discriminate]. intros Hj. exfalso.
        apply join_nil in Hj; [destruct ws; discriminate|].
        inversion Hwords as [|? ? Hw1 Hws]; subst.
        destruct ws; repeat constructor; auto.
        now inversion Hws.
      * intros Hj. exfalso.
        apply join_nil in Hj; [destruct ws; discriminate|].
        inversion Hwords as [|? ? Hw1 Hws]; subst.
        destruct ws; repeat constructor; auto.
        now inversion Hws.
Qed.

Lemma sentence_text_and_words_witness :
  let s := nth 1 (splitSentences spaceTerms (lit "A b.  C d! E f"))
             (mkSentence 0 [] [] 0 0 0 [] []) in
  s_text s = trim (s_raw s) /\
  (exists c r c' r',
      s_text s = c :: r /\ isSpace c = false /\
      s_text s = r' ++ [c'] /\ isSpace c' = false) /\
  s_wordCount s = length (tokenizeWords spaceTerms (s_text s)) /\
  s_firstWord s = hd [] (tokenizeWords spaceTerms (s_text s)) /\
  (s_opener s = [] <-> s_wordCount s = 0%nat) /\
  (s_opener s = [] -> s_firstWord s = []).
Proof.
  intros s.
  apply (sentence_text_and_words spaceTerms (lit "A b.  C d! E f") s).
  vm_compute. right. left. reflexivity.
Defined.

(** ** Segmenter: nothing but breaks and white space is left out *)

Lemma execSentenceFrom_none (s : str) :
  forall pos, execSentenceFrom s pos = None ->
              Forall (fun c => isBreak c = true) s.
Proof.
  induction s as [|c r IH]; intros pos; simpl; [constructor|].
  destruct (matchSentenceHere (c :: r)) eqn:E; [discriminate|].
  intros H. constructor; [exact (matchSentenceHere_none _ _ E)|].
  exact (IH _ H).
Qed.

Lemma nth_error_skipn {A} (l : list A) (n k : nat) :
  nth_error (skipn n l) k = nth_error l (n + k).
Proof.
  revert l. induction n as [|n IH]; intros l; simpl; [reflexivity|].
  destruct l; [now destruct k|]. apply IH.
Qed.

Lemma Forall_nth_error {A} (P : A -> Prop) (l : list A) (k : nat) (x : A) :
  Forall P l -> nth_error l k = Some x -> P x.
Proof.
  intros H Hk. rewrite Forall_forall in H. apply H.
  exact (nth_error_In _ _ Hk).
Qed.

(** Every character of the text that is neither white space nor a
    terminator lies in the span of a sentence: the segmenter drops
    nothing else. *)
Theorem sentences_cover_the_text (terms : str -> list str) (text : str)
  (k : nat) (c : ascii) :
  nth_error text k = Some c ->
  isBreak c = false -> isSpace c = false ->
  exists s,
    In s (splitSentences terms text) /\ s_start s <= Z.of_nat k < s_end s.
Proof.
  intros Hk Hb Hs.
  destruct (splitSentences_invariant terms text
              (fun last acc =>
                 forall k c, (k < last)%nat -> nth_error text k = Some c ->
                             isBreak c = false -> isSpace c = false ->
                             covered acc k))
    as [last [Hcov Hend]].
  - (* a match of white space only *)
    intros li acc i m Hinv E Et k' c' Hlt Hk' Hb' Hs'.
    destruct (execSentence_shape _ _ _ _ E) as [pre [rest [Hsk [Hi [Hpre _]]]]].
    destruct (Nat.lt_ge_cases k' li) as [H1|H1]; [now apply (Hinv k' c')|].
    exfalso.
    assert (Hn : nth_error (pre ++ m ++ rest) (k' - li) = Some c').
    { rewrite <- Hsk, nth_error_skipn.
      now replace (li + (k' - li))%nat with k' by lia. }
    destruct (Nat.lt_ge_cases (k' - li) (length pre)) as [H2|H2].
    + rewrite nth_error_app1 in Hn by exact H2.
      pose proof (Forall_nth_error _ _ _ _ Hpre Hn) as Hc. simpl in Hc.
      congruence.
    + rewrite nth_error_app2 in Hn by exact H2.
      rewrite nth_error_app1 in Hn by lia.
      assert (Hsp : Forall (fun c => isSpace c = true) m).
      { apply trim_nil_spaces. now destruct (trim m). }
      pose proof (Forall_nth_error _ _ _ _ Hsp Hn) as Hc. simpl in Hc.
      congruence.
  - (* a sentence *)
    intros li acc i m Hinv E Et k' c' Hlt Hk' Hb' Hs'.
    destruct (execSentence_shape _ _ _ _ E) as [pre [rest [Hsk [Hi [Hpre _]]]]].
    destruct (Nat.lt_ge_cases k' li) as [H1|H1].
    { destruct (Hinv k' c' H1 Hk' Hb' Hs') as [s [Hin Hr]].
      exists s. split; [apply in_or_app; now left|exact Hr]. }
    assert (Hn : nth_error (pre ++ m ++ rest) (k' - li) = Some c').
    { rewrite <- Hsk, nth_error_skipn.
      now replace (li + (k' - li))%nat with k' by lia. }
    destruct (Nat.lt_ge_cases (k' - li) (length pre)) as [H2|H2].
    + exfalso. rewrite nth_error_app1 in Hn by exact H2.
      pose proof (Forall_nth_error _ _ _ _ Hpre Hn) as Hc. simpl in Hc.
      congruence.
    + exists (sentenceOf terms acc i m).
      split; [apply in_or_app; right; now left|]. simpl. unfold len. lia.
  - intros k' c' Hlt. lia.
  - destruct (Nat.lt_ge_cases k last) as [H1|H1];
      [exact (Hcov k c H1 Hk Hb Hs)|].
    exfalso. unfold execSentence in Hend.
    apply execSentenceFrom_none in Hend.
    assert (Hn : nth_error (skipn last text) (k - last) = Some c).
    { rewrite nth_error_skipn.
      now replace (last + (k - last))%nat with k by lia. }
    pose proof (Forall_nth_error _ _ _ _ Hend Hn) as Hc. simpl in Hc.
    congruence.
Qed.

Lemma sentences_cover_the_text_witness :
  exists s,
    In s (splitSentences spaceTerms (lit "A b.  C d! E f")) /\
    s_start s <= Z.of_nat 6 < s_end s.
Proof.
  apply (sentences_cover_the_text spaceTerms (lit "A b.  C d! E f") 6
           "C"%char); reflexivity.
Defined.

(** ** The frequency table *)

Lemma str_eqb_refl (a : str) : str_eqb a a = true.
Proof. now apply str_eqb_eq. Qed.

Lemma str_eqb_sym (a b : str) : str_eqb a b = str_eqb b a.
Proof.
  destruct (str_eqb b a) eqn:E.
  - apply str_eqb_eq in E. subst. apply str_eqb_refl.
  - apply str_eqb_neq. apply str_eqb_neq in E. congruence.
Qed.

Lemma mapIncr_keys (key : str) (m : list (str * nat)) :
  map fst (mapIncr key m)
  = if existsb (fun k => str_eqb k key) (map fst m) then map fst m
    else map fst m ++ [key].
Proof.
  induction m as [|[k v] m IH]; simpl; [reflexivity|].
  destruct (str_eqb k key); simpl; [reflexivity|].
  rewrite IH. now destruct (existsb _ _).
Qed.

Lemma mapIncr_getCount (key : str) (m : list (str * nat)) (k : str) :
  getCount (mapIncr key m) k
  = (getCount m k + if str_eqb key k then 1 else 0)%nat.
Proof.
  unfold getCount. induction m as [|[k0 v] m IH]; simpl.
  - destruct (str_eqb key k); reflexivity.
  - destruct (str_eqb k0 key) eqn:E0; simpl.
    + apply str_eqb_eq in E0. subst k0.
      destruct (str_eqb key k); simpl; lia.
    + destruct (str_eqb k0 k) eqn:E1; simpl; [|exact IH].
      apply str_eqb_eq in E1. subst k0. rewrite str_eqb_sym, E0. lia.
Qed.

Lemma mapIncr_NoDup (key : str) (m : list (str * nat)) :
  NoDup (map fst m) -> NoDup (map fst (mapIncr key m)).
Proof.
  intros H. rewrite mapIncr_keys.
  destruct (existsb _ _) eqn:E; [exact H|].
  apply NoDup_app; [exact H|constructor; [intros []|constructor]|].
  intros x Hx [Hk|[]]. subst x.
  assert (existsb (fun k => str_eqb k key) (map fst m) = true).
  { apply existsb_exists. exists key. split; [exact Hx|apply str_eqb_refl]. }
  congruence.
Qed.

Lemma countAll_fold (keys : list str) :
  forall m k,
    NoDup (map fst m) ->
    NoDup (map fst (fold_left (fun m k => mapIncr k m) keys m)) /\
    getCount (fold_left (fun m k => mapIncr k m) keys m) k
    = (getCount m k + occurrences keys k)%nat.
Proof.
  induction keys as [|key keys IH]; intros m k Hm; simpl.
  - split; [exact Hm|]. unfold occurrences. simpl. lia.
  - destruct (IH (mapIncr key m) k (mapIncr_NoDup key m Hm)) as [H1 H2].
    split; [exact H1|]. rewrite H2, mapIncr_getCount.
    unfold occurrences. simpl. destruct (str_eqb key k); simpl; lia.
Qed.

Lemma getCount_In (m : list (str * nat)) (k : str) (n : nat) :
  NoDup (map fst m) -> In (k, n) m -> getCount m k = n.
Proof.
  unfold getCount. induction m as [|[k0 v] m IH]; intros Hnd Hin;
    [contradiction|].
  simpl in *. inversion Hnd as [|? ? Hnot Hnd']; subst.
  destruct Hin as [[= -> ->]|Hin].
  - now rewrite str_eqb_refl.
  - destruct (str_eqb k0 k) eqn:E; [|now apply IH].
    apply str_eqb_eq in E. subst k0. exfalso. apply Hnot.
    apply in_map_iff. now exists (k, n).
Qed.

Lemma getCount_pos_In (m : list (str * nat)) (k : str) :
  (0 < getCount m k)%nat -> In (k, getCount m k) m.
Proof.
  unfold getCount. intros H.
  destruct (find (fun e => str_eqb (fst e) k) m) as [[k0 v]|] eqn:E;
    [|simpl in H; lia].
  apply find_some in E. destruct E as [Hin Hk]. simpl in *.
  apply str_eqb_eq in Hk. now subst k0.
Qed.

Lemma countAll_table (keys : list str) :
  NoDup (map fst (countAll keys)) /\
  (forall k n, In (k, n) (countAll keys) <->
               n = occurrences keys k /\ (0 < n)%nat).
Proof.
  unfold countAll.
  assert (H : forall k,
             NoDup (map fst (fold_left (fun m k => mapIncr k m) keys [])) /\
             getCount (fold_left (fun m k => mapIncr k m) keys []) k
             = occurrences keys k).
  { intros k. destruct (countAll_fold keys [] k (NoDup_nil _)) as [H1 H2].
    split; [exact H1|]. rewrite H2. reflexivity. }
  split; [exact (proj1 (H []))|].
  intros k n. destruct (H k) as [Hnd Hget]. split.
  - intros Hin. pose proof (getCount_In _ _ _ Hnd Hin) as Hn.
    split; [congruence|].
    (* an entry of the table has been incremented at least once *)
    assert (Hpos : forall m,
               (forall e, In e m -> (0 < snd e)%nat) ->
               forall e, In e (fold_left (fun m k => mapIncr k m) keys m) ->
                         (0 < snd e)%nat).
    { clear. induction keys as [|key keys IH]; intros m Hm e He; simpl in He;
        [now apply Hm|].
      apply (IH (mapIncr key m)); [|exact He].
      clear -Hm. intros e He. induction m as [|[k v] m IHm]; simpl in He.
      - destruct He as [<-|[]]. simpl. lia.
      - destruct (str_eqb k key); destruct He as [<-|He]; simpl; try lia.
        + apply (Hm e). now right.
        + apply (Hm (k, v)). now left.
        + apply IHm; [|exact He]. intros x Hx. apply Hm. now right. }
    exact (Hpos [] (fun e (F : In e []) => match F with end) _ Hin).
  - intros [-> Hp]. rewrite <- Hget in *. now apply getCount_pos_In.
Qed.

(** The table built by counting a list of words holds every distinct word
    once, with the number of its occurrences; a word of the list is in
    the table, and nothing else is. *)
Theorem countAll_counts (keys : list str) :
  NoDup (map fst (countAll keys)) /\
  (forall k n, In (k, n) (countAll keys) <->
               n = occurrences keys k /\ (0 < n)%nat).
Proof. exact (countAll_table keys). Qed.

(** ** The detectors, one after the other *)

Section Stages.

Variable fp : arithmetic.
Variable text : str.
Variable sentences : list sentence.
Variable mean std hedgeDensity : Q.
Variable style : option styleProfile.

(** An invariant of the list of suggestions that every push of a detector
    keeps, given what the detector has checked before the push. *)
Variable Inv : list suggestion -> Prop.

Hypothesis vary_ok :
  forall acc s,
    Inv acc -> In s sentences -> (20 < s_wordCount s)%nat ->
    includes (s_text s) ","%char = true ->
    fst (commaSplit (s_text s)) <> [] ->
    snd (commaSplit (s_text s)) <> [] ->
    Inv (pushSuggestion acc (varyCandidate s)).

Hypothesis phrase_ok :
  forall acc entry lastIndex index original,
    Inv acc -> In entry PREDICTABLE_PHRASES ->
    execWord [fst entry] text lastIndex = Some (index, original) ->
    Inv (pushSuggestion acc
           (phraseCandidate index original
              (if startsUpper original then capitalizeFirst (snd entry)
               else snd entry))).

Hypothesis texture_ok :
  forall acc s,
    Inv acc -> In s sentences -> (14 <= s_wordCount s)%nat ->
    includes (s_text s) "("%char = false ->
    Inv (pushSuggestion acc (textureCandidate s)).

Hypothesis opener_ok :
  forall acc word s,
    Inv acc ->
    In word
      (map fst
         (filter (fun e => (3 <=? snd e)%nat)
            (countAll (filter (fun k => negb (isEmpty k))
                         (map s_firstWord sentences))))) ->
    In s (firstn 2 (skipn 1
            (filter (fun s => str_eqb (s_firstWord s) word) sentences))) ->
    Inv (pushSuggestion acc (openerCandidate word s)).

Hypothesis hedge_ok :
  forall acc s,
    Inv acc -> (5 # 10 <= hedgeDensity)%Q -> In s sentences ->
    matchAll HEDGE_REGEX (s_text s) <> [] ->
    hedgeReplacement (s_text s) <> [] ->
    hedgeReplacement (s_text s) <> s_text s ->
    Inv (pushSuggestion acc (hedgeCandidate s (hedgeReplacement (s_text s)))).

Hypothesis rhythm_ok :
  forall acc s p,
    Inv acc -> style = Some p -> In s sentences ->
    includes (s_text s) ","%char = true ->
    Inv (pushSuggestion acc (rhythmCandidate s)).

Lemma varySentenceLength_inv (l : list sentence) :
  (forall s, In s l -> In s sentences) ->
  forall acc, Inv acc -> Inv (varySentenceLength fp l acc).
Proof.
  induction l as [|first rest IH]; intros Hsub acc Hacc;
    cbn [varySentenceLength]; [exact Hacc|].
  destruct rest as [|target [|third more]]; try exact Hacc.
  apply IH; [intros s Hs; apply Hsub; now right|].
  destruct (Qle_bool _ _); [|exact Hacc].
  destruct (20 <? s_wordCount target)%nat eqn:Hw; cbn [andb]; [|exact Hacc].
  destruct (includes (s_text target) ","%char) eqn:Hc; [|exact Hacc].
  destruct (commaSplit (s_text target)) as [left right] eqn:Es.
  destruct left as [|l0 left]; [exact Hacc|].
  destruct right as [|r0 right]; [exact Hacc|]. cbn [isEmpty negb andb].
  apply vary_ok; auto.
  - apply Hsub. right. now left.
  - now apply Nat.ltb_lt.
  - rewrite Es. discriminate.
  - rewrite Es. discriminate.
Qed.

Lemma phraseLoop_inv (entry : str * str) (fuel : nat) :
  In entry PREDICTABLE_PHRASES ->
  forall lastIndex acc, Inv acc ->
    Inv (phraseLoop fuel (fst entry) (snd entry) text lastIndex acc).
Proof.
  intros Hentry.
  induction fuel as [|f IH]; intros lastIndex acc Hacc; cbn [phraseLoop];
    [exact Hacc|].
  destruct (execWord [fst entry] text lastIndex) as [[index original]|] eqn:E;
    [|exact Hacc].
  pose proof (phrase_ok _ _ _ _ _ Hacc Hentry E) as Hpush.
  match goal with |- context [Nat.leb ?a ?b] => destruct (Nat.leb a b) end;
    [exact Hpush|]. now apply IH.
Qed.

Lemma fold_left_inv {A} (f : list suggestion -> A -> list suggestion)
  (l : list A) (dom : A -> Prop) :
  (forall x, In x l -> dom x) ->
  (forall acc x, dom x -> Inv acc -> Inv (f acc x)) ->
  forall acc, Inv acc -> Inv (fold_left f l acc).
Proof.
  intros Hdom Hf. induction l as [|x l IH]; intros acc Hacc; simpl;
    [exact Hacc|].
  apply IH; [intros y Hy; apply Hdom; now right|].
  apply Hf; [apply Hdom; now left|exact Hacc].
Qed.

(** Every push of the six stages keeps the invariant. *)
Lemma candidates_inv :
  Inv [] ->
  Inv (candidates fp text sentences mean std hedgeDensity style).
Proof.
  intros H0. unfold candidates.
  (* rhythm *)
  unfold matchRhythm.
  assert (H5 : Inv (reduceHedging hedgeDensity sentences
                      (diversifyOpeners sentences
                         (addStylisticTexture text sentences style
                            (swapPredictablePhrasing text
                               (varySentenceLength fp sentences [])))))).
  { unfold reduceHedging.
    assert (H4 : Inv (diversifyOpeners sentences
                        (addStylisticTexture text sentences style
                           (swapPredictablePhrasing text
                              (varySentenceLength fp sentences []))))).
    { unfold diversifyOpeners.
      assert (H3 : Inv (addStylisticTexture text sentences style
                          (swapPredictablePhrasing text
                             (varySentenceLength fp sentences [])))).
      { unfold addStylisticTexture.
        assert (H2 : Inv (swapPredictablePhrasing text
                            (varySentenceLength fp sentences []))).
        { unfold swapPredictablePhrasing.
          apply (fold_left_inv _ _ (fun e => In e PREDICTABLE_PHRASES));
            [auto| |].
          - intros a e He Ha. now apply phraseLoop_inv.
          - apply varySentenceLength_inv; auto. }
        destruct (_ || _)%bool; [|exact H2].
        destruct (find _ sentences) as [target|] eqn:E; [|exact H2].
        apply find_some in E. destruct E as [Hin Hg].
        apply andb_true_iff in Hg. destruct Hg as [Hw Hp].
        apply texture_ok; auto.
        - now apply Nat.leb_le.
        - now apply negb_true_iff. }
      match goal with
      | |- Inv (fold_left _ ?l _) =>
          apply (fold_left_inv _ _ (fun word => In word l));
            [auto| |exact H3]
      end.
      intros a word Hword Ha.
      match goal with
      | |- Inv (fold_left _ ?l _) =>
          apply (fold_left_inv _ _ (fun s => In s l)); [auto| |exact Ha]
      end.
      intros a' s Hs Ha'. now apply opener_ok. }
    destruct (Qle_bool (5 # 10) hedgeDensity) eqn:Hd; [|exact H4].
    apply Qle_bool_iff in Hd.
    apply (fold_left_inv _ _ (fun s => In s sentences)); [auto| |exact H4].
    intros a s Hs Ha.
    destruct (matchAll HEDGE_REGEX (s_text s)) eqn:Hm; [exact Ha|].
    destruct (isEmpty (hedgeReplacement (s_text s))) eqn:E; simpl; [exact Ha|].
    destruct (str_eqb (hedgeReplacement (s_text s)) (s_text s)) eqn:E2;
      simpl; [exact Ha|].
    apply hedge_ok; auto.
    - rewrite Hm. discriminate.
    - intros Hnil. rewrite Hnil in E. discriminate.
    - now apply str_eqb_neq. }
  destruct style as [p|] eqn:Es; [|exact H5].
  destruct (Qlt_bool _ _); [|exact H5].
  destruct (find _ sentences) as [s|] eqn:E; [|exact H5].
  apply find_some in E. destruct E as [Hin _].
  destruct (includes (s_text s) ","%char) eqn:Hc; [|exact H5].
  now apply (rhythm_ok _ _ p).
Qed.

End Stages.

(** ** Ids of the suggestions *)

Lemma pushSuggestion_numbered (acc : list suggestion) (c : candidate) :
  numbered acc -> numbered (pushSuggestion acc c).
Proof.
  intros H. unfold pushSuggestion. destruct (_ || _)%bool; [exact H|].
  intros i sg Hi.
  destruct (Nat.lt_ge_cases i (length acc)) as [Hlt|Hge].
  - rewrite nth_error_app1 in Hi by exact Hlt. now apply H.
  - rewrite nth_error_app2 in Hi by exact Hge.
    destruct (i - length acc)%nat as [|k] eqn:E; simpl in Hi.
    + injection Hi as <-. cbn [withId sg_id sg_status].
      replace (length acc + 1)%nat with (S i) by lia. split; reflexivity.
    + destruct k; discriminate.
Qed.

Lemma candidates_numbered (fp : arithmetic) (text : str)
  (sentences : list sentence) (mean std hedgeDensity : Q)
  (style : option styleProfile) :
  numbered (candidates fp text sentences mean std hedgeDensity style).
Proof.
  apply candidates_inv; intros; try now apply pushSuggestion_numbered.
  intros i sg Hi. destruct i; discriminate.
Qed.

Lemma buildSuggestions_numbered (fp : arithmetic) (text : str)
  (sentences : list sentence) (mean std hedgeDensity : Q)
  (style : option styleProfile) :
  numbered (buildSuggestions fp text sentences mean std hedgeDensity style).
Proof.
  intros i sg Hi. unfold buildSuggestions in Hi.
  rewrite nth_error_firstn in Hi.
  destruct (i <? 20)%nat; [|discriminate].
  now apply (candidates_numbered fp text sentences mean std hedgeDensity
               style).
Qed.

(** The suggestion at position [i] of the list that [buildSuggestions]
    returns has the id [s-(i+1)] and the status [pending], and there are at
    most twenty of them. *)
Theorem suggestions_numbered (fp : arithmetic) (text : str)
  (sentences : list sentence) (mean std hedgeDensity : Q)
  (style : option styleProfile) (i : nat) (sg : suggestion) :
  nth_error (buildSuggestions fp text sentences mean std hedgeDensity style)
    i = Some sg ->
  (i < 20)%nat /\ sg_id sg = idOf (S i) /\ sg_status sg = pending.
Proof.
  intros Hi. split.
  - unfold buildSuggestions in Hi. rewrite nth_error_firstn in Hi.
    destruct (Nat.ltb_spec i 20); [assumption|discriminate].
  - now apply (buildSuggestions_numbered fp text sentences mean std
                 hedgeDensity style).
Qed.

Lemma suggestions_numbered_witness :
  let sgs := buildSuggestions binary64 SAMPLE_TEXT
               (splitSentences spaceTerms SAMPLE_TEXT) 0 0 0 None in
  let sg := nth 3 sgs (demoSuggestion "" 0 0 "" "") in
  nth_error sgs 3 = Some sg /\
  (3 < 20)%nat /\ sg_id sg = lit "s-4" /\ sg_status sg = pending.
Proof.
  intros sgs sg. split; [vm_compute; reflexivity|].
  apply (suggestions_numbered binary64 SAMPLE_TEXT
           (splitSentences spaceTerms SAMPLE_TEXT) 0 0 0 None 3 sg).
  vm_compute. reflexivity.
Defined.

Lemma lit_inj (a b : string) : lit a = lit b -> a = b.
Proof.
  intros H. unfold lit in H.
  rewrite <- (string_of_list_ascii_of_string a),
          <- (string_of_list_ascii_of_string b).
  now rewrite H.
Qed.

Lemma idOf_inj (n m : nat) : idOf n = idOf m -> n = m.
Proof.
  unfold idOf. intros H. apply app_inv_head in H. apply lit_inj in H.
  apply DecimalNat.Unsigned.to_uint_inj.
  pose proof (NilEmpty.usu (Nat.to_uint n)) as Hn.
  pose proof (NilEmpty.usu (Nat.to_uint m)) as Hm.
  rewrite H in Hn. rewrite Hn in Hm. now injection Hm.
Qed.

Lemma numbered_NoDup (l : list suggestion) :
  numbered l -> NoDup (map sg_id l).
Proof.
  intros H. apply NoDup_nth_error. intros i j Hi E.
  rewrite length_map in Hi.
  destruct (nth_error l i) as [x|] eqn:Ex;
    [|apply nth_error_None in Ex; lia].
  rewrite !nth_error_map, Ex in E. simpl in E.
  destruct (nth_error l j) as [y|] eqn:Ey; [|discriminate].
  simpl in E. injection E as E.
  destruct (H _ _ Ex) as [Hx _]. destruct (H _ _ Ey) as [Hy _].
  rewrite Hx, Hy in E. apply idOf_inj in E. lia.
Qed.

(** [find] by id returns the suggestion itself when ids are distinct. *)
Lemma find_by_id (l : list suggestion) (sg : suggestion) :
  NoDup (map sg_id l) -> In sg l ->
  find (fun item => str_eqb (sg_id item) (sg_id sg)) l = Some sg.
Proof.
  induction l as [|x r IH]; intros Hnd Hin; [contradiction|].
  simpl in Hnd. inversion Hnd as [|? ? Hx Hr]; subst.
  simpl. destruct (str_eqb (sg_id x) (sg_id sg)) eqn:E.
  - destruct Hin as [->|Hin]; [reflexivity|].
    apply str_eqb_eq in E. exfalso. apply Hx. rewrite E.
    now apply in_map.
  - destruct Hin as [->|Hin]; [now rewrite str_eqb_refl in E|].
    now apply IH.
Qed.

(** No two suggestions of [buildSuggestions] share an id, so that the
    lookup by id of the client finds the suggestion that was meant. *)
Theorem suggestion_ids_distinct (fp : arithmetic) (text : str)
  (sentences : list sentence) (mean std hedgeDensity : Q)
  (style : option styleProfile) :
  let sgs :=
    buildSuggestions fp text sentences mean std hedgeDensity style in
  NoDup (map sg_id sgs) /\
  forall sg, In sg sgs <->
             find (fun item => str_eqb (sg_id item) (sg_id sg)) sgs = Some sg.
Proof.
  intros sgs.
  assert (Hnd : NoDup (map sg_id sgs))
    by apply numbered_NoDup, buildSuggestions_numbered.
  split; [exact Hnd|].
  intros sg. split; [now apply find_by_id|].
  intros H. apply find_some in H. tauto.
Qed.

(** ** Accepting a suggestion of a fresh analysis *)

Lemma analysis_numbered (terms : str -> list str) (fp : arithmetic)
  (text styleSample : str) :
  numbered (suggestions (analyzeText terms fp text styleSample)).
Proof.
  unfold analyzeText. destruct (_ || _)%bool; simpl.
  - intros i sg Hi. destruct i; discriminate.
  - apply buildSuggestions_numbered.
Qed.

Lemma analysis_bounds (terms : str -> list str) (fp : arithmetic)
  (text styleSample : str) (sg : suggestion) :
  In sg (suggestions (analyzeText terms fp text styleSample)) ->
  0 <= sg_start sg < sg_end sg /\ sg_end sg <= len (trim text).
Proof.
  unfold analyzeText. destruct (_ || _)%bool; simpl; [contradiction|].
  apply buildSuggestions_bounds. apply splitSentences_sentences.
Qed.

(** Marking the suggestions of a response as pending changes nothing:
    they are pending already. *)
Lemma resetSuggestions_same (data : analysis) :
  numbered (suggestions data) ->
  fst (resetSuggestions data) = suggestions data.
Proof.
  intros H. unfold resetSuggestions. simpl.
  transitivity (map (fun s : suggestion => s) (suggestions data));
    [|apply map_id].
  apply map_ext_in. intros s Hs.
  apply In_nth_error in Hs. destruct Hs as [n Hn].
  destruct (H _ _ Hn) as [_ Hp].
  destruct s; simpl in *; subst; reflexivity.
Qed.

Lemma trim_split_no_lead (s : str) :
  trimStart s = s -> exists trail, s = trim s ++ trail.
Proof.
  intros H. unfold trim, trimEnd. rewrite H.
  destruct (trimStart_split (rev s)) as [tr Ht].
  exists (rev tr). rewrite <- rev_app_distr, <- Ht. symmetry.
  apply rev_involutive.
Qed.

(** Right after an analysis, accepting any of its suggestions finds the
    original in the text: the stale error is not raised, and one
    occurrence of the original is replaced by the replacement.  When the
    text has no white space in front, that occurrence is the one at the
    recorded offset. *)
Theorem fresh_suggestion_applies (terms : str -> list str)
  (fp : arithmetic) (text styleSample : str) (st : appState)
  (sg : suggestion) :
  let data := analyzeText terms fp text styleSample in
  st_text st = text ->
  st_suggestions st = fst (resetSuggestions data) ->
  In sg (suggestions data) ->
  exists pre post,
    text = pre ++ sg_original sg ++ post /\
    st_text (applySuggestion st (sg_id sg))
    = pre ++ sg_replacement sg ++ post /\
    st_error (applySuggestion st (sg_id sg)) = st_error st /\
    (trimStart text = text -> len pre = sg_start sg).
Proof.
  intros data Ht Hs Hin.
  pose proof (analysis_numbered terms fp text styleSample) as Hnum.
  fold data in Hnum.
  rewrite (resetSuggestions_same data Hnum) in Hs.
  assert (Hfind : find (fun item => str_eqb (sg_id item) (sg_id sg))
                    (st_suggestions st) = Some sg).
  { rewrite Hs. apply find_by_id; [now apply numbered_NoDup|exact Hin]. }
  assert (Hp : sg_status sg = pending).
  { destruct (In_nth_error _ _ Hin) as [n Hn]. now destruct (Hnum _ _ Hn). }
  pose proof (analysis_offsets_index_trimmed_text _ _ _ _ _ Hin) as Ho.
  pose proof (analysis_bounds _ _ _ _ _ Hin) as Hb.
  destruct (trim_split text) as [lead [trail Hsplit]].
  destruct (slice_three (trim text) (sg_start sg) (sg_end sg))
    as [H3 [Hl1 Hl2]]; [lia|lia|].
  rewrite Ho in H3, Hl2.
  remember (slice (trim text) 0 (sg_start sg)) as P eqn:EP.
  remember (sliceFrom (trim text) (sg_end sg)) as S eqn:ES.
  assert (Hocc : occursAt text (sg_original sg) (length (lead ++ P))).
  { exists (lead ++ P), (S ++ trail). split; [|reflexivity].
    rewrite Hsplit at 1. rewrite H3. now rewrite <- !app_assoc. }
  assert (Hlen : len (trim text) <= len text).
  { rewrite Hsplit at 2. rewrite !len_app.
    pose proof (len_nonneg lead). pose proof (len_nonneg trail). lia. }
  destruct (Located_or_Stale text sg) as [Hst|[a [b [o Hloc]]]].
  { destruct Hst as [_ [Hno _]]. exfalso. exact (Hno _ Hocc). }
  pose proof (locate_Located _ _ _ _ _ Hloc) as Hlocate.
  rewrite <- Ht in Hlocate.
  rewrite (applySuggestion_located st (sg_id sg) sg a b o Hfind Hp Hlocate).
  cbn [st_text st_error]. rewrite Ht.
  destruct Hloc as [Hrec|i Hne Hfirst|i compact Hne Hno Hform Htrim Hfirst].
  - destruct (slice_three text (sg_start sg) (sg_end sg))
      as [H3' [Hl1' _]]; [lia|lia|].
    rewrite Hrec in H3'.
    exists (slice text 0 (sg_start sg)), (sliceFrom text (sg_end sg)).
    split; [exact H3'|]. split; [reflexivity|]. split; [reflexivity|].
    intros _. exact Hl1'.
  - destruct Hfirst as [[pre [post [Hx Hi]]] _].
    exists pre, post. split; [exact Hx|].
    assert (Hi' : Z.of_nat i = len pre) by (unfold len; lia).
    rewrite Hi'. split; [|split; [reflexivity|]].
    + f_equal; [|f_equal].
      * rewrite Hx. apply slice_prefix.
      * rewrite Hx, app_assoc, <- len_app. apply sliceFrom_suffix.
    + intros Htrim. exfalso. apply Hne.
      destruct (trim_split_no_lead _ Htrim) as [trail' Ht'].
      pose proof (slice_shift [] (trim text) trail' (sg_start sg) (sg_end sg))
        as Hshift.
      simpl in Hshift. rewrite <- Ht', !Z.add_0_r in Hshift.
      rewrite Hshift by lia. exact Ho.
  - exfalso. exact (Hno _ Hocc).
Qed.

Lemma fresh_suggestion_applies_witness :
  let text := SAMPLE_TEXT in
  let data := analyzeText spaceTerms binary64 text [] in
  let st := mkState text (fst (resetSuggestions data)) "" in
  let sg := nth 1 (suggestions data) (demoSuggestion "" 0 0 "" "") in
  sg_original sg = lit "Furthermore" /\
  exists pre post,
    text = pre ++ sg_original sg ++ post /\
    st_text (applySuggestion st (sg_id sg))
    = pre ++ sg_replacement sg ++ post /\
    st_error (applySuggestion st (sg_id sg)) = st_error st /\
    (trimStart text = text -> len pre = sg_start sg).
Proof.
  intros text data st sg. split; [vm_compute; reflexivity|].
  apply (fresh_suggestion_applies spaceTerms binary64 text [] st sg).
  - reflexivity.
  - reflexivity.
  - vm_compute. right. left. reflexivity.
Defined.

(** ** What the detectors have tested *)

Lemma pushSuggestion_Detected (text : str) (sentences : list sentence)
  (hedgeDensity : Q) (style : option styleProfile)
  (acc : list suggestion) (c : candidate) :
  Forall (Detected text sentences hedgeDensity style) acc ->
  Checked text sentences hedgeDensity style c ->
  Forall (Detected text sentences hedgeDensity style) (pushSuggestion acc c).
Proof.
  intros Hacc Hc. unfold pushSuggestion.
  destruct (_ || _)%bool; [exact Hacc|].
  apply Forall_app. split; [exact Hacc|].
  constructor; [|constructor]. now exists c, (length acc + 1)%nat.
Qed.

Lemma buildSuggestions_Detected (fp : arithmetic) (text : str)
  (sentences : list sentence) (mean std hedgeDensity : Q)
  (style : option styleProfile) :
  Forall (Detected text sentences hedgeDensity style)
    (buildSuggestions fp text sentences mean std hedgeDensity style).
Proof.
  assert (H : Forall (Detected text sentences hedgeDensity style)
                (candidates fp text sentences mean std hedgeDensity style)).
  { apply candidates_inv; try constructor;
      intros; apply pushSuggestion_Detected; try assumption.
    - now apply checked_vary.
    - now apply (checked_phrase _ _ _ _ entry lastIndex).
    - now apply checked_texture.
    - now apply checked_opener.
    - now apply checked_hedge.
    - now apply (checked_rhythm _ _ _ _ s p). }
  unfold buildSuggestions. rewrite Forall_forall in *.
  intros sg Hsg. apply H. now apply In_firstn in Hsg.
Qed.

(** *** Case of the matched text *)

Lemma in_allAscii (c : ascii) : In c allAscii.
Proof.
  unfold allAscii. rewrite <- (ascii_nat_embedding c).
  apply in_map, in_seq. pose proof (nat_ascii_bounded c). lia.
Qed.

(** A character that matches a pattern character under the [i] flag is
    that character once lowered, when the pattern character is in lower
    case. *)
Lemma toLowerChar_of_match (p c : ascii) :
  toLowerChar p = p ->
  Ascii.eqb (toUpperChar p) (toUpperChar c) = true ->
  toLowerChar c = p.
Proof.
  intros Hp He.
  assert (Hall :
    forallb (fun p =>
      forallb (fun c =>
        implb (Ascii.eqb (toLowerChar p) p
               && Ascii.eqb (toUpperChar p) (toUpperChar c))%bool
          (Ascii.eqb (toLowerChar c) p)) allAscii) allAscii = true)
    by (vm_compute; reflexivity).
  rewrite forallb_forall in Hall.
  specialize (Hall p (in_allAscii p)). rewrite forallb_forall in Hall.
  specialize (Hall c (in_allAscii c)).
  rewrite Hp, Ascii.eqb_refl, He in Hall. simpl in Hall.
  now apply Ascii.eqb_eq.
Qed.

Lemma matchLiteralCI_lower (pat : str) :
  Forall (fun p => toLowerChar p = p) pat ->
  forall s m rest,
    matchLiteralCI pat s = Some (m, rest) -> toLowerCase m = pat.
Proof.
  induction 1 as [|p pat Hp Hpat IH]; intros s m rest H; simpl in H.
  - injection H as <- _. reflexivity.
  - destruct s as [|c s']; [discriminate|].
    destruct (Ascii.eqb (toUpperChar p) (toUpperChar c)) eqn:E;
      [|discriminate].
    destruct (matchLiteralCI pat s') as [[m' rest']|] eqn:E';
      [|discriminate].
    injection H as <- _. simpl.
    rewrite (toLowerChar_of_match p c Hp E). f_equal.
    exact (IH _ _ _ E').
Qed.

Lemma execWordFrom_lower (phrase : str) :
  Forall (fun p => toLowerChar p = p) phrase ->
  forall s prev pos i m,
    execWordFrom [phrase] prev s pos = Some (i, m) -> toLowerCase m = phrase.
Proof.
  intros Hp. induction s as [|c r IH]; intros prev pos i m H;
    cbn [execWordFrom] in H;
    destruct (matchWordHere prev [phrase] _) as [m0|] eqn:E.
  1, 3: injection H as _ <-; unfold matchWordHere in E;
    destruct (wordBoundary _ _); [|discriminate];
    cbn [matchAlts] in E;
    match type of E with
    | context [matchLiteralCI ?a ?b] =>
        destruct (matchLiteralCI a b) as [[m1 rest]|] eqn:E1;
          [|discriminate]
    end;
    destruct (wordBoundary _ _); [|discriminate];
    injection E as <-; exact (matchLiteralCI_lower _ Hp _ _ _ E1).
  - discriminate.
  - exact (IH _ _ _ _ H).
Qed.

Lemma catalog_lower :
  Forall (fun entry => Forall (fun p => toLowerChar p = p) (fst entry))
    PREDICTABLE_PHRASES.
Proof. repeat constructor. Qed.

(** A suggestion of the type swap-predictable-phrasing comes from an
    entry of the catalog: its original is the phrase of the entry up to
    letter case, its span has the length of the phrase, its replacement is
    the replacement of the entry, capitalized exactly when the original
    starts with an uppercase letter, and its risk impact is 6. *)
Theorem swap_suggestion_from_catalog (fp : arithmetic) (text : str)
  (sentences : list sentence) (mean std hedgeDensity : Q)
  (style : option styleProfile) (sg : suggestion) :
  In sg (buildSuggestions fp text sentences mean std hedgeDensity style) ->
  sg_type sg = swap_predictable_phrasing ->
  exists entry,
    In entry PREDICTABLE_PHRASES /\
    toLowerCase (sg_original sg) = fst entry /\
    sg_end sg - sg_start sg = len (fst entry) /\
    sg_replacement sg
    = (if startsUpper (sg_original sg) then capitalizeFirst (snd entry)
       else snd entry) /\
    sg_riskImpact sg = 6.
Proof.
  intros Hin Hty.
  pose proof (buildSuggestions_Detected fp text sentences mean std
                hedgeDensity style) as H.
  rewrite Forall_forall in H. destruct (H sg Hin) as [c [n [Hc ->]]].
  destruct Hc as [s|entry lastIndex index original Hentry Hexec|s|word s
                 |s|s p]; try discriminate.
  exists entry. split; [exact Hentry|].
  pose proof catalog_lower as Hlow. rewrite Forall_forall in Hlow.
  assert (Hm : toLowerCase original = fst entry)
    by exact (execWordFrom_lower _ (Hlow _ Hentry) _ _ _ _ _ Hexec).
  cbn [withId phraseCandidate sg_original sg_end sg_start sg_replacement
       sg_riskImpact c_original c_end c_start c_replacement c_riskImpact].
  split; [exact Hm|]. split; [|split; reflexivity].
  rewrite <- Hm. unfold len, toLowerCase. rewrite length_map. lia.
Qed.

Lemma swap_suggestion_from_catalog_witness :
  let sgs := buildSuggestions binary64 SAMPLE_TEXT
               (splitSentences spaceTerms SAMPLE_TEXT) 0 0 0 None in
  let sg := nth 0 sgs (demoSuggestion "" 0 0 "" "") in
  sg_original sg = lit "It is important to note that" /\
  exists entry,
    In entry PREDICTABLE_PHRASES /\
    toLowerCase (sg_original sg) = fst entry /\
    sg_end sg - sg_start sg = len (fst entry) /\
    sg_replacement sg
    = (if startsUpper (sg_original sg) then capitalizeFirst (snd entry)
       else snd entry) /\
    sg_riskImpact sg = 6.
Proof.
  intros sgs sg. split; [vm_compute; reflexivity|].
  apply (swap_suggestion_from_catalog binary64 SAMPLE_TEXT
           (splitSentences spaceTerms SAMPLE_TEXT) 0 0 0 None sg).
  - vm_compute. left. reflexivity.
  - vm_compute. reflexivity.
Defined.

(** A hedging suggestion is made only at a hedge density of 0.5 or more,
    for a sentence that holds a hedge word, and its replacement is the
    text of that sentence with its runs of white space collapsed, which
    differs from the text. *)
Theorem hedging_suggestion_gate (fp : arithmetic) (text : str)
  (sentences : list sentence) (mean std hedgeDensity : Q)
  (style : option styleProfile) (sg : suggestion) :
  In sg (buildSuggestions fp text sentences mean std hedgeDensity style) ->
  sg_type sg = reduce_hedging_uniformity ->
  (5 # 10 <= hedgeDensity)%Q /\
  exists s,
    In s sentences /\ sg_original sg = s_raw s /\
    sg_start sg = s_start s /\ sg_end sg = s_end s /\
    matchAll HEDGE_REGEX (s_text s) <> [] /\
    sg_replacement sg = trim (collapse (s_text s)) /\
    sg_replacement sg <> s_text s /\ sg_replacement sg <> [].
Proof.
  intros Hin Hty.
  pose proof (buildSuggestions_Detected fp text sentences mean std
                hedgeDensity style) as H.
  rewrite Forall_forall in H. destruct (H sg Hin) as [c [n [Hc ->]]].
  destruct Hc as [s|entry lastIndex index original|s|word s
                 |s Hd Hs Hm Hne Hdiff|s p]; try discriminate.
  split; [exact Hd|]. exists s.
  cbn [withId hedgeCandidate sg_original sg_end sg_start sg_replacement
       c_original c_end c_start c_replacement].
  repeat split; try assumption.
  apply hedgeReplacement_keeps_hedges.
Qed.

Lemma hedging_suggestion_gate_witness :
  let sentences := splitSentences spaceTerms spacedHedges in
  let sgs := buildSuggestions binary64 spacedHedges sentences 0 0 1 None in
  let sg := nth 0 sgs (demoSuggestion "" 0 0 "" "") in
  sg_replacement sg = lit "It may work." /\
  (5 # 10 <= 1)%Q /\
  exists s,
    In s sentences /\ sg_original sg = s_raw s /\
    sg_start sg = s_start s /\ sg_end sg = s_end s /\
    matchAll HEDGE_REGEX (s_text s) <> [] /\
    sg_replacement sg = trim (collapse (s_text s)) /\
    sg_replacement sg <> s_text s /\ sg_replacement sg <> [].
Proof.
  intros sentences sgs sg. split; [vm_compute; reflexivity|].
  apply (hedging_suggestion_gate binary64 spacedHedges sentences 0 0 1 None sg).
  - vm_compute. left. reflexivity.
  - vm_compute. reflexivity.
Defined.

(** A suggestion of the type vary-sentence-length splits a sentence that
    holds a comma, at its first comma.  The detector of uniform runs makes
    it for a sentence of more than twenty words whose two halves are not
    empty; the other one is made only with a style profile. *)
Theorem split_suggestion_guards (fp : arithmetic) (text : str)
  (sentences : list sentence) (mean std hedgeDensity : Q)
  (style : option styleProfile) (sg : suggestion) :
  In sg (buildSuggestions fp text sentences mean std hedgeDensity style) ->
  sg_type sg = vary_sentence_length ->
  exists s,
    In s sentences /\ sg_original sg = s_raw s /\
    sg_start sg = s_start s /\ sg_end sg = s_end s /\
    includes (s_text s) ","%char = true /\
    sg_replacement sg = splitReplacement (s_text s) /\
    sg_riskImpact sg = 8 /\
    ((sg_title sg = "Vary sentence length in this run"%string /\
      (20 < s_wordCount s)%nat /\
      fst (commaSplit (s_text s)) <> [] /\
      snd (commaSplit (s_text s)) <> []) \/
     (sg_title sg = "Match your usual rhythm"%string /\ style <> None)).
Proof.
  intros Hin Hty.
  pose proof (buildSuggestions_Detected fp text sentences mean std
                hedgeDensity style) as H.
  rewrite Forall_forall in H. destruct (H sg Hin) as [c [n [Hc ->]]].
  destruct Hc as [s Hs Hw Hc Hl Hr|entry lastIndex index original|s|word s
                 |s|s p Hp Hs Hc]; try discriminate; exists s;
    cbn [withId varyCandidate rhythmCandidate sg_original sg_end sg_start
         sg_replacement sg_riskImpact sg_title c_original c_end c_start
         c_replacement c_riskImpact c_title];
    repeat (split; [first [assumption|reflexivity]|]).
  - left. repeat split; assumption.
  - right. split; [reflexivity|]. rewrite Hp. discriminate.
Qed.

Lemma split_suggestion_guards_witness :
  let sentences := splitSentences spaceTerms committeeDraft in
  let style := Some variedStyle in
  let sgs := buildSuggestions binary64 committeeDraft sentences 7 0 0 style in
  let sg := nth 1 sgs (demoSuggestion "" 0 0 "" "") in
  sg_replacement sg
  = lit "When the committee finally met on Tuesday. The members agreed to postpone the vote until every report had been read." /\
  exists s,
    In s sentences /\ sg_original sg = s_raw s /\
    sg_start sg = s_start s /\ sg_end sg = s_end s /\
    includes (s_text s) ","%char = true /\
    sg_replacement sg = splitReplacement (s_text s) /\
    sg_riskImpact sg = 8 /\
    ((sg_title sg = "Vary sentence length in this run"%string /\
      (20 < s_wordCount s)%nat /\
      fst (commaSplit (s_text s)) <> [] /\
      snd (commaSplit (s_text s)) <> []) \/
     (sg_title sg = "Match your usual rhythm"%string /\ style <> None)).
Proof.
  intros sentences style sgs sg. split; [vm_compute; reflexivity|].
  apply (split_suggestion_guards binary64 committeeDraft sentences 7 0 0 style
           sg).
  - vm_compute. right. left. reflexivity.
  - vm_compute. reflexivity.
Defined.

(** A suggestion of the type add-stylistic-texture targets a sentence of
    at least fourteen words that holds no opening parenthesis, and its
    replacement is the text of that sentence with the aside inserted. *)
Theorem texture_suggestion_guards (fp : arithmetic) (text : str)
  (sentences : list sentence) (mean std hedgeDensity : Q)
  (style : option styleProfile) (sg : suggestion) :
  In sg (buildSuggestions fp text sentences mean std hedgeDensity style) ->
  sg_type sg = add_stylistic_texture ->
  exists s,
    In s sentences /\ sg_original sg = s_raw s /\
    sg_start sg = s_start s /\ sg_end sg = s_end s /\
    (14 <= s_wordCount s)%nat /\
    includes (s_text s) "("%char = false /\
    sg_replacement sg = textureReplacement (s_text s) /\
    sg_riskImpact sg = 5.
Proof.
  intros Hin Hty.
  pose proof (buildSuggestions_Detected fp text sentences mean std
                hedgeDensity style) as H.
  rewrite Forall_forall in H. destruct (H sg Hin) as [c [n [Hc ->]]].
  destruct Hc as [s|entry lastIndex index original|s Hs Hw Hp|word s
                 |s|s p]; try discriminate.
  exists s.
  cbn [withId textureCandidate sg_original sg_end sg_start sg_replacement
       sg_riskImpact c_original c_end c_start c_replacement c_riskImpact].
  repeat split; assumption.
Qed.

Lemma texture_suggestion_guards_witness :
  let sentences := splitSentences spaceTerms SAMPLE_TEXT in
  let sgs := buildSuggestions binary64 SAMPLE_TEXT sentences 0 0 0 None in
  let sg := nth 2 sgs (demoSuggestion "" 0 0 "" "") in
  sg_replacement sg
  = lit "It is important to note that (for context), each milestone followed the same structure for consistency." /\
  exists s,
    In s sentences /\ sg_original sg = s_raw s /\
    sg_start sg = s_start s /\ sg_end sg = s_end s /\
    (14 <= s_wordCount s)%nat /\
    includes (s_text s) "("%char = false /\
    sg_replacement sg = textureReplacement (s_text s) /\
    sg_riskImpact sg = 5.
Proof.
  intros sentences sgs sg. split; [vm_compute; reflexivity|].
  apply (texture_suggestion_guards binary64 SAMPLE_TEXT sentences 0 0 0 None sg).
  - vm_compute. do 2 right. left. reflexivity.
  - vm_compute. reflexivity.
Defined.

Lemma filter_cons_split {A} (p : A -> bool) (l : list A) (x : A)
  (r : list A) :
  filter p l = x :: r ->
  exists l1 l2, l = l1 ++ x :: l2 /\ r = filter p l2 /\ p x = true.
Proof.
  induction l as [|y l IH]; simpl; [discriminate|].
  destruct (p y) eqn:E; intros H.
  - injection H as -> <-. now exists [], l.
  - destruct (IH H) as [l1 [l2 [-> [Hr Hp]]]]. now exists (y :: l1), l2.
Qed.

Lemma occurrences_In (keys : list str) (k : str) :
  (0 < occurrences keys k)%nat -> In k keys.
Proof.
  unfold occurrences. intros H.
  destruct (filter (fun x => str_eqb x k) keys) as [|x r] eqn:E;
    [simpl in H; lia|].
  assert (Hx : In x (filter (fun x => str_eqb x k) keys))
    by (rewrite E; now left).
  apply filter_In in Hx. destruct Hx as [Hin Hk].
  apply str_eqb_eq in Hk. now subst x.
Qed.

Lemma occurrences_firstWord (l : list sentence) (word : str) :
  word <> [] ->
  occurrences (filter (fun k => negb (isEmpty k)) (map s_firstWord l)) word
  = length (filter (fun s => str_eqb (s_firstWord s) word) l).
Proof.
  intros Hne. unfold occurrences. induction l as [|s l IH]; [reflexivity|].
  cbn [map filter].
  destruct (s_firstWord s) as [|c w] eqn:E; cbn [isEmpty negb].
  - destruct (str_eqb [] word) eqn:Ew; [|exact IH].
    apply str_eqb_eq in Ew. now subst word.
  - cbn [filter]. destruct (str_eqb (c :: w) word); simpl; now rewrite IH.
Qed.

(** A suggestion of the type diversify-openers targets a sentence whose
    first word starts at least three sentences of the text, and never the
    first of those sentences. *)
Theorem opener_suggestion_guards (fp : arithmetic) (text : str)
  (sentences : list sentence) (mean std hedgeDensity : Q)
  (style : option styleProfile) (sg : suggestion) :
  In sg (buildSuggestions fp text sentences mean std hedgeDensity style) ->
  sg_type sg = diversify_openers ->
  exists s,
    In s sentences /\ sg_original sg = s_raw s /\
    sg_start sg = s_start s /\ sg_end sg = s_end s /\
    s_firstWord s <> [] /\
    (3 <= length (filter (fun x => str_eqb (s_firstWord x) (s_firstWord s))
                    sentences))%nat /\
    (exists before earlier after,
        sentences = before ++ earlier :: after /\
        s_firstWord earlier = s_firstWord s /\ In s after) /\
    sg_replacement sg = openerReplacement (s_text s) /\
    sg_riskImpact sg = 7.
Proof.
  intros Hin Hty.
  pose proof (buildSuggestions_Detected fp text sentences mean std
                hedgeDensity style) as H.
  rewrite Forall_forall in H. destruct (H sg Hin) as [c [n [Hc ->]]].
  destruct Hc as [s|entry lastIndex index original|s|word s Hword Hs
                 |s|s p]; try discriminate.
  exists s.
  cbn [withId openerCandidate sg_original sg_end sg_start sg_replacement
       sg_riskImpact c_original c_end c_start c_replacement c_riskImpact].
  apply In_firstn in Hs.
  destruct (filter (fun s => str_eqb (s_firstWord s) word) sentences)
    as [|s0 r] eqn:Ef; [contradiction|].
  simpl in Hs.
  destruct (filter_cons_split _ _ _ _ Ef) as [l1 [l2 [Hsent [Hr Hs0]]]].
  rewrite Hr in Hs. apply filter_In in Hs. destruct Hs as [Hs2 Hsw].
  apply str_eqb_eq in Hsw. apply str_eqb_eq in Hs0.
  apply in_map_iff in Hword. destruct Hword as [[k cnt] [Hk He]].
  simpl in Hk. subst k.
  apply filter_In in He. destruct He as [He Hcnt]. cbn [snd] in Hcnt.
  apply Nat.leb_le in Hcnt.
  apply (proj2 (countAll_table _)) in He. destruct He as [Hocc Hpos].
  assert (Hne : word <> []).
  { rewrite Hocc in Hpos. apply occurrences_In in Hpos.
    apply filter_In in Hpos. destruct Hpos as [_ Hw].
    intros ->. discriminate. }
  rewrite occurrences_firstWord in Hocc by exact Hne.
  assert (Hs : In s sentences).
  { rewrite Hsent. apply in_or_app. right. now right. }
  rewrite Hsw.
  repeat split; try assumption; try reflexivity.
  - rewrite Ef in Hocc. rewrite Ef. lia.
  - exists l1, s0, l2. auto.
Qed.

Lemma opener_suggestion_guards_witness :
  let sentences := splitSentences spaceTerms SAMPLE_TEXT in
  let sgs := buildSuggestions binary64 SAMPLE_TEXT sentences 0 0 0 None in
  let sg := nth 3 sgs (demoSuggestion "" 0 0 "" "") in
  sg_original sg
  = lit " The report explains the timeline and outcomes in detail." /\
  exists s,
    In s sentences /\ sg_original sg = s_raw s /\
    sg_start sg = s_start s /\ sg_end sg = s_end s /\
    s_firstWord s <> [] /\
    (3 <= length (filter (fun x => str_eqb (s_firstWord x) (s_firstWord s))
                    sentences))%nat /\
    (exists before earlier after,
        sentences = before ++ earlier :: after /\
        s_firstWord earlier = s_firstWord s /\ In s after) /\
    sg_replacement sg = openerReplacement (s_text s) /\
    sg_riskImpact sg = 7.
Proof.
  intros sentences sgs sg. split; [vm_compute; reflexivity|].
  apply (opener_suggestion_guards binary64 SAMPLE_TEXT sentences 0 0 0 None sg).
  - vm_compute. do 3 right. left. reflexivity.
  - vm_compute. reflexivity.
Defined.

(** ** The swap detector and the cap of 40 *)

Lemma pushSuggestion_length_le (acc : list suggestion) (c : candidate) :
  (length (pushSuggestion acc c) <= length acc + 1)%nat.
Proof.
  unfold pushSuggestion. destruct (_ || _)%bool; [lia|].
  rewrite length_app. simpl. lia.
Qed.

Lemma phraseLoop_bound (phrase replacement text : str) (fuel : nat) :
  forall lastIndex acc,
    (length acc
     <= length (phraseLoop fuel phrase replacement text lastIndex acc)
     <= Nat.max (length acc + 1) 40)%nat.
Proof.
  induction fuel as [|f IH]; intros lastIndex acc; cbn [phraseLoop]; [lia|].
  destruct (execWord [phrase] text lastIndex) as [[index original]|]; [|lia].
  match goal with
  | |- context [pushSuggestion acc ?c] =>
      pose proof (pushSuggestion_length acc c) as Hge;
      pose proof (pushSuggestion_length_le acc c) as Hle;
      generalize dependent (pushSuggestion acc c)
  end.
  intros acc' Hge Hle.
  destruct (Nat.leb_spec 40 (length acc')) as [H40|H40]; [lia|].
  specialize (IH (index + length original)%nat acc'). lia.
Qed.

(** The swap detector never removes a suggestion, adds at most one per
    catalog phrase once the list holds 40, and so leaves at most 49
    suggestions when it starts below 40. *)
Theorem swap_detector_bound (text : str) (acc : list suggestion) :
  (length acc <= length (swapPredictablePhrasing text acc)
   <= Nat.max (length acc + 10) 49)%nat.
Proof.
  unfold swapPredictablePhrasing.
  change 10%nat with (length PREDICTABLE_PHRASES).
  change 49%nat with (39 + length PREDICTABLE_PHRASES)%nat.
  generalize PREDICTABLE_PHRASES. intros l. revert acc.
  induction l as [|entry l IH]; intros acc; cbn [fold_left length]; [lia|].
  pose proof (phraseLoop_bound (fst entry) (snd entry) text
                (S (length text)) 0 acc) as H1.
  match goal with
  | |- context [fold_left ?f l ?a] => specialize (IH a)
  end.
  lia.
Qed.

(** ** White space around the draft *)




(** White space in front of the draft and after it changes nothing in the
    analysis: the scores, the bands, the counts and the suggestions with
    their offsets are those of the draft without it. *)
Theorem analysis_ignores_outer_space (terms : str -> list str)
  (fp : arithmetic) (lead text trail styleSample : str) :
  Forall (fun c => isSpace c = true) lead ->
  Forall (fun c => isSpace c = true) trail ->
  analyzeText terms fp (lead ++ text ++ trail) styleSample
  = analyzeText terms fp text styleSample.
Proof.
  intros Hl Ht. unfold analyzeText. now rewrite (trim_spaces _ _ _ Hl Ht).
Qed.

Lemma analysis_ignores_outer_space_witness :
  analyzeText spaceTerms binary64
    (lit "  " ++ SAMPLE_TEXT ++ [" "%char]) []
  = analyzeText spaceTerms binary64 SAMPLE_TEXT [].
Proof.
  apply (analysis_ignores_outer_space spaceTerms binary64 (lit "  ")
           SAMPLE_TEXT [" "%char] []); repeat constructor.
Defined.

(** ** The word count of the client *)

Lemma nonSpaceRuns_nil (s : str) :
  forall cur, nonSpaceRuns s cur = [] ->
              cur = [] /\ Forall (fun c => isSpace c = true) s.
Proof.
  induction s as [|c r IH]; intros cur H; simpl in H.
  - destruct cur; [now split|discriminate].
  - destruct (isSpace c) eqn:E.
    + destruct cur; simpl in H; [|discriminate].
      destruct (IH _ H) as [_ Hr]. split; [reflexivity|now constructor].
    + destruct (IH _ H) as [Hcur _]. apply app_eq_nil in Hcur.
      destruct Hcur; discriminate.
Qed.

Lemma nonSpaceRuns_half (s : str) :
  forall cur,
    (2 * length (nonSpaceRuns s cur)
     <= length s + (if isEmpty cur then 1 else 2))%nat.
Proof.
  induction s as [|c r IH]; intros cur; simpl nonSpaceRuns.
  - destruct cur; simpl; lia.
  - destruct (isSpace c).
    + specialize (IH []). destruct cur; simpl in *; lia.
    + specialize (IH (cur ++ [c])).
      destruct (cur ++ [c]) eqn:E;
        [apply app_eq_nil in E; destruct E; discriminate|].
      destruct cur; simpl in *; lia.
Qed.

(** The word count of the client is 0 exactly for a blank text, the text
    that [handleAnalyze] refuses, and a text of [n] characters holds at
    most [(n + 1) / 2] words. *)
Theorem countWords_bounds (text : str) :
  (countWords text = 0%nat <-> trim text = []) /\
  (2 * countWords text <= length text + 1)%nat.
Proof.
  unfold countWords. rewrite nonSpaceRuns_trim. split; [split|].
  - intros H.
    destruct (nonSpaceRuns text []) eqn:E; [|discriminate].
    destruct (nonSpaceRuns_nil _ _ E) as [_ Hsp].
    rewrite <- (app_nil_r text).
    change (text ++ []) with (text ++ [] ++ []).
    rewrite trim_spaces; [reflexivity|exact Hsp|constructor].
  - intros H. rewrite <- nonSpaceRuns_trim, H. reflexivity.
  - exact (nonSpaceRuns_half text []).
Qed.

(** ** The counters of the client *)

Lemma reconcile_status_other (id : str) (a b delta : Z) (replacement : str)
  (item : suggestion) :
  sg_id item <> id ->
  sg_status (reconcile id a b delta replacement item) = sg_status item.
Proof.
  intros H. unfold reconcile. rewrite (proj2 (str_eqb_neq _ _) H).
  destruct (b <=? sg_start item); reflexivity.
Qed.

Lemma reconcile_status_same (id : str) (a b delta : Z) (replacement : str)
  (item : suggestion) :
  sg_id item = id ->
  sg_status (reconcile id a b delta replacement item) = accepted.
Proof.
  intros H. unfold reconcile. rewrite H, str_eqb_refl. reflexivity.
Qed.

Lemma counts_without_id (id : str) (a b delta : Z) (replacement : str)
  (l : list suggestion) :
  ~ In id (map sg_id l) ->
  acceptedCount (map (reconcile id a b delta replacement) l) = acceptedCount l
  /\ pendingCount (map (reconcile id a b delta replacement) l)
     = pendingCount l.
Proof.
  unfold acceptedCount, pendingCount.
  induction l as [|x l IH]; intros Hid; [now split|].
  simpl in Hid. cbn [map filter].
  assert (Hx : sg_id x <> id) by tauto.
  rewrite (reconcile_status_other _ a b delta replacement _ Hx).
  destruct IH as [IHa IHp]; [tauto|].
  split.
  - destruct (isAccepted (sg_status x)); simpl; now rewrite IHa.
  - destruct (isPending (sg_status x)); simpl; now rewrite IHp.
Qed.

(** When ids are distinct, accepting a pending suggestion whose original
    is found moves one suggestion from the pending ones to the accepted
    ones. *)
Theorem accept_moves_one_count (st : appState) (sg : suggestion) :
  NoDup (map sg_id (st_suggestions st)) ->
  In sg (st_suggestions st) ->
  sg_status sg = pending ->
  locate (st_text st) sg <> None ->
  let st' := applySuggestion st (sg_id sg) in
  acceptedCount (st_suggestions st') = S (acceptedCount (st_suggestions st))
  /\ S (pendingCount (st_suggestions st')) = pendingCount (st_suggestions st).
Proof.
  intros Hnd Hin Hp Hloc st'. subst st'.
  pose proof (find_by_id _ _ Hnd Hin) as Hfind.
  destruct (locate (st_text st) sg) as [[[a b] o]|] eqn:El; [|congruence].
  rewrite (applySuggestion_located st (sg_id sg) sg a b o Hfind Hp El).
  cbn [st_suggestions].
  generalize (len (sg_replacement sg) - len o). intros delta.
  clear Hfind El Hloc.
  induction (st_suggestions st) as [|x l IH]; [contradiction|].
  simpl in Hnd. inversion Hnd as [|? ? Hx Hl]; subst.
  destruct (list_eq_dec ascii_dec (sg_id x) (sg_id sg)) as [E|E].
  - assert (x = sg).
    { destruct Hin as [->|Hin]; [reflexivity|].
      exfalso. apply Hx. rewrite E. now apply in_map. }
    subst x.
    destruct (counts_without_id (sg_id sg) a b delta (sg_replacement sg) l Hx)
      as [Ha Hpe].
    unfold acceptedCount, pendingCount in *. cbn [map filter].
    rewrite (reconcile_status_same (sg_id sg) a b delta (sg_replacement sg)
               sg eq_refl), Hp.
    cbn [isAccepted isPending length]. now rewrite Ha, Hpe.
  - destruct Hin as [->|Hin]; [congruence|].
    destruct (IH Hl Hin) as [IHa IHp].
    unfold acceptedCount, pendingCount in *. cbn [map filter].
    rewrite (reconcile_status_other _ a b delta (sg_replacement sg) _ E).
    split.
    + destruct (isAccepted (sg_status x)); cbn [length]; now rewrite IHa.
    + destruct (isPending (sg_status x)); cbn [length]; [|exact IHp].
      now rewrite <- IHp.
Qed.

Lemma accept_moves_one_count_witness :
  let sg := demoSuggestion "s-2" 18 29 "in addition" "plus, as a bonus" in
  let st' := applySuggestion demoState (sg_id sg) in
  acceptedCount (st_suggestions st')
  = S (acceptedCount (st_suggestions demoState)) /\
  S (pendingCount (st_suggestions st'))
  = pendingCount (st_suggestions demoState).
Proof.
  intros sg.
  apply (accept_moves_one_count demoState sg).
  - simpl. repeat constructor; simpl; intuition discriminate.
  - simpl. right. left. reflexivity.
  - reflexivity.
  - vm_compute. discriminate.
Defined.
